(** * chrono-matchmaking: the matching engine of [service/matcher.go]

    A shallow embedding of the matchmaking service and of the part of the
    Redis storage layer it calls, followed by the properties of the
    rating window, of the compatibility predicate and of the two matchers
    ([FindMatch] and [ProcessQueue]); then the rest of the storage layer
    (joining the queue, its size), the HTTP handlers of [handler/queue.go]
    and the periodic queue processing of [main], with their properties. *)

From stdpp Require Import base tactics option list strings gmap pretty sorting.
From Stdlib Require Import ZArith Lia.

Local Open Scope Z_scope.

(** ** Machine integers

    Go's [int] and [time.Duration] are 64-bit two's complement; they are
    embedded as [Z] and every arithmetic result is wrapped. *)
Module Int64.

Definition min_int : Z := - 2 ^ 63.
Definition max_int : Z := 2 ^ 63 - 1.

Definition in_range (z : Z) : Prop := min_int <= z <= max_int.

(** The value a 64-bit register holds after an operation whose exact
    result is [z]. *)
Definition wrap (z : Z) : Z := (z + 2 ^ 63) mod 2 ^ 64 - 2 ^ 63.

(** Saturation, as [time.Time.Sub] does on overflow. *)
Definition sat (z : Z) : Z :=
  if z <? min_int then min_int else if max_int <? z then max_int else z.

(** [float64(x)] for an integer [x]: round to nearest, ties to even, on
    a 53-bit significand.  The result is integral and is kept as a [Z]. *)
Definition to_float64 (z : Z) : Z :=
  let a := Z.abs z in
  let e := Z.max 0 (Z.log2 a - 52) in
  let q := Z.shiftr a e in
  let r := a - Z.shiftl q e in
  let half := Z.shiftl 1 (e - 1) in
  let q' :=
    if e =? 0 then q
    else if r <? half then q
    else if half <? r then q + 1
    else if Z.even q then q else q + 1 in
  Z.sgn z * Z.shiftl q' e.

(** [int(f)] for an integral float [f].  The only out-of-range value that
    arises here is [2^63]; amd64 then yields the smallest integer (the
    language leaves the result to the implementation). *)
Definition of_float64 (f : Z) : Z :=
  if (min_int <=? f) && (f <=? max_int) then f else min_int.

End Int64.

(** ** Data model ([models] package) *)

(** Instants are nanoseconds since the Unix epoch; a [JoinedAt] read back
    from JSON carries no monotonic reading. *)
Record Player := mkPlayer {
  ID : string;
  Rating : Z;
  Region : string;
  GameMode : string;
  JoinedAt : Z;
  PlayerLevel : Z
}.

Record Match := mkMatch {
  MatchID : string;
  Players : list Player;
  CreatedAt : Z
}.

#[global] Instance Player_eq_dec : EqDecision Player.
Proof. solve_decision. Defined.

#[global] Instance Match_eq_dec : EqDecision Match.
Proof. solve_decision. Defined.

(** ** Configuration *)

(** [MaxSearchTime] is a [time.Duration]: nanoseconds. *)
Record MatcherConfig := mkConfig {
  MaxRatingDiff : Z;
  MaxSearchTime : Z;
  RatingExpansionRate : Z;
  PlayersPerMatch : Z
}.

Definition Second : Z := 1000000000.
Definition Minute : Z := 60 * Second.

Definition DefaultMatcherConfig : MatcherConfig :=
  {| MaxRatingDiff := 200;
     MaxSearchTime := 5 * Minute;
     RatingExpansionRate := 50;
     PlayersPerMatch := 6 |}.

Definition GetPlayersPerMatch (gameMode : string) : Z :=
  if String.eqb gameMode "1v1" then 2
  else if String.eqb gameMode "3v3" then 6
  else 6.

(** ** Rating window and compatibility *)

(** [Duration.Seconds] computes [float64(sec) + float64(nsec)/1e9] from
    the whole seconds and the remaining nanoseconds of the duration.  The
    doubles that arise are multiples of 2^-82 (a fraction that is not zero
    is at least 1e-9 > 2^-30 in magnitude and has 53 bits); such a double
    is kept as that multiple, an integer. *)
Module Float64.

Definition scale : Z := 2 ^ 82.

(** The quotient [p / q] of two integers, [0 <= p] and [0 < q], rounded to
    the nearest integer, ties to even. *)
Definition rne_div (p q : Z) : Z :=
  let k := p / q in
  let r := p mod q in
  if 2 * r <? q then k
  else if q <? 2 * r then k + 1
  else if Z.even k then k else k + 1.

(** [float64(nsec) / 1e9] for [|nsec| < 1e9]: both operands are exact and
    the quotient is rounded to 53 bits. *)
Definition frac (nsec : Z) : Z :=
  let p := Z.abs nsec * scale in
  let e := Z.max 0 (Z.log2 (p / Second) - 52) in
  Z.sgn nsec * (rne_div p (Second * 2 ^ e) * 2 ^ e).

(** [d.Seconds()]: [sec := d / Second], [nsec := d % Second] (both
    truncated), then the sum of the two doubles, rounded to 53 bits. *)
Definition Seconds (d : Z) : Z :=
  let sec := Z.quot d Second in
  let nsec := Z.rem d Second in
  Int64.to_float64 (Int64.to_float64 sec * scale + frac nsec).

(** [int(f)]: the conversion truncates toward zero. *)
Definition to_int (f : Z) : Z := Z.quot f scale.

End Float64.

(** [int(d.Seconds())].  Below 2^24 s (194 days) this is the whole number
    of seconds; from there on the sum can round up to the next second. *)
Definition Seconds_int (d : Z) : Z := Float64.to_int (Float64.Seconds d).

Definition calculateRatingRange (config : MatcherConfig) (waitTime : Z) : Z :=
  if MaxSearchTime config <? waitTime then 1000
  else
    let expansionCount := Z.quot (Seconds_int waitTime) 30 in
    Int64.wrap (MaxRatingDiff config
                + Int64.wrap (expansionCount * RatingExpansionRate config)).

(** The difference [isCompatible] compares with the configured bound:
    [int(math.Abs(float64(p1.Rating - p2.Rating)))]. *)
Definition ratingDiff (p1 p2 : Player) : Z :=
  Int64.of_float64
    (Z.abs (Int64.to_float64 (Int64.wrap (Rating p1 - Rating p2)))).

Definition isCompatible (config : MatcherConfig) (p1 p2 : Player) : bool :=
  if negb (String.eqb (Region p1) (Region p2)) then false
  else if negb (String.eqb (GameMode p1) (GameMode p2)) then false
  else ratingDiff p1 p2 <=? MaxRatingDiff config.

(** ** Results and errors

    A Go [error] is its message; [fmt.Errorf("ctx: %w", err)] prefixes the
    message of the wrapped error. *)
Inductive result (A : Type) : Type :=
| Ok (a : A)
| Err (msg : string).
Arguments Ok {A} a.
Arguments Err {A} msg.

Definition Errorf (context err : string) : string := context +:+ ": " +:+ err.

(** ** Observable events: log lines and storage calls *)
Inductive Level := Info | Warn.

Inductive StoreCall :=
| CallGetMatchByPlayerID (playerID : string)
| CallGetPlayerByID (playerID : string)
| CallGetPlayersInRange (key : string) (minRating maxRating limit : Z)
| CallSaveMatch (m : Match)
| CallRemovePlayerFromQueue (playerID : string).

(** A storage call is recorded when it returns, with its error if any. *)
Inductive Event :=
| Log (lvl : Level) (msg : string) (fields : list (string * string))
| Store (call : StoreCall) (err : option string).

(** ** The world a call runs in

    The store holds player records where Redis holds their JSON encodings,
    so decoding a stored value never fails; the expiry of the player keys
    (30 minutes) does not occur within a call.

    - [zsets]: the sorted sets [queue:<region>:<mode>], members in the
      order Redis returns them (ascending score);
    - [strs]: the string keys [player:<id>];
    - [saved]: the persisted matches, newest first;
    - [faults]: the outcome of the Redis commands still to come, one entry
      per command ([Some e] makes that command fail with message [e]; an
      exhausted schedule means success);
    - [clock], [ticks]: the readings of [time.Now()], in call order;
    - [trace]: the events so far, oldest first. *)
Record World := mkWorld {
  zsets : gmap string (list Player);
  strs : gmap string Player;
  saved : list Match;
  faults : list (option string);
  clock : nat → Z;
  ticks : nat;
  trace : list Event
}.

Definition set_zsets (f : gmap string (list Player) → gmap string (list Player))
    (w : World) : World :=
  mkWorld (f (zsets w)) (strs w) (saved w) (faults w) (clock w) (ticks w) (trace w).
Definition set_strs (f : gmap string Player → gmap string Player) (w : World) : World :=
  mkWorld (zsets w) (f (strs w)) (saved w) (faults w) (clock w) (ticks w) (trace w).
Definition set_saved (f : list Match → list Match) (w : World) : World :=
  mkWorld (zsets w) (strs w) (f (saved w)) (faults w) (clock w) (ticks w) (trace w).
Definition set_faults (fs : list (option string)) (w : World) : World :=
  mkWorld (zsets w) (strs w) (saved w) fs (clock w) (ticks w) (trace w).
Definition set_ticks (n : nat) (w : World) : World :=
  mkWorld (zsets w) (strs w) (saved w) (faults w) (clock w) n (trace w).
Definition set_trace (t : list Event) (w : World) : World :=
  mkWorld (zsets w) (strs w) (saved w) (faults w) (clock w) (ticks w) t.

(** ** State monad over the world *)
Definition M (A : Type) : Type := World → A * World.

Definition ret {A} (a : A) : M A := λ w, (a, w).
Definition bind {A B} (m : M A) (k : A → M B) : M B :=
  λ w, let '(a, w') := m w in k a w'.
Definition gets {A} (f : World → A) : M A := λ w, (f w, w).
Definition modify (f : World → World) : M unit := λ w, (tt, f w).

Notation "'let*' x := m 'in' k" := (bind m (λ x, k))
  (at level 10, x pattern, m at level 100, k at level 200, only parsing).
Notation "m >> k" := (bind m (λ _, k))
  (at level 100, k at level 200, only parsing, right associativity).

Definition emit (e : Event) : M unit :=
  modify (λ w, set_trace (trace w ++ [e]) w).

Definition logger (lvl : Level) (msg : string) (fields : list (string * string))
    : M unit :=
  emit (Log lvl msg fields).

(** [time.Now()]. *)
Definition time_Now : M Z :=
  let* now := gets (λ w, clock w (ticks w)) in
  modify (λ w, set_ticks (S (ticks w)) w) >>
  ret now.

(** [t.Sub(u)] for instants without monotonic reading. *)
Definition time_Sub (t u : Z) : Z := Int64.sat (t - u).

(** ** Redis commands *)
Module Redis.

(** One round trip to the server: the scheduled outcome of the next
    command, [None] for success. *)
Definition command : M (option string) :=
  λ w, (match faults w with [] => None | f :: _ => f end,
        set_faults (tail (faults w)) w).

(** [GET key]; [Ok None] is [redis.Nil]. *)
Definition Get (key : string) : M (result (option Player)) :=
  let* f := command in
  match f with
  | Some e => ret (Err e)
  | None => gets (λ w, Ok (strs w !! key))
  end.

Definition Del (key : string) : M (option string) :=
  let* f := command in
  match f with
  | Some e => ret (Some e)
  | None => modify (set_strs (delete key)) >> ret None
  end.

Definition members (key : string) (w : World) : list Player :=
  default [] (zsets w !! key).

Definition ZRem (key : string) (member : Player) : M (option string) :=
  let* f := command in
  match f with
  | Some e => ret (Some e)
  | None =>
      modify (set_zsets (alter (filter (λ q, q ≠ member)) key)) >> ret None
  end.

(** The score of a queued record, set by [ZADD]: [float64(player.Rating)]. *)
Definition score (member : Player) : Z := Int64.to_float64 (Rating member).

(** Whether the score of a member lies within the bounds of a range query.
    The client sends the bounds as decimal integers and the server reads
    them as the nearest doubles. *)
Definition within (min max : Z) (member : Player) : Prop :=
  Int64.to_float64 min <= score member ∧ score member <= Int64.to_float64 max.

#[global] Instance within_dec min max member : Decision (within min max member).
Proof. unfold within. apply _. Defined.

(** The members a range query returns: those within the bounds, in the
    order of the set, cut at [count] when it is positive.  With a count of
    zero the client sends no [LIMIT] and a negative count lifts the
    limit. *)
Definition range (min max count : Z) (l : list Player) : list Player :=
  let hits := filter (within min max) l in
  if 0 <? count then take (Z.to_nat count) hits else hits.

(** [ZRANGEBYSCORE key min max] with [Offset: 0, Count: count]. *)
Definition ZRangeByScore (key : string) (min max count : Z)
    : M (result (list Player)) :=
  let* f := command in
  match f with
  | Some e => ret (Err e)
  | None => gets (λ w, Ok (range min max count (members key w)))
  end.

End Redis.

(** ** Storage layer ([storage.RedisStorage]) *)

Definition queueKey (region gameMode : string) : string :=
  "queue:" +:+ region +:+ ":" +:+ gameMode.

Definition playerKey (playerID : string) : string := "player:" +:+ playerID.

(** The end of a storage method: its outcome goes to the trace. *)
Definition returning {A} (call : StoreCall) (err : option string) (a : A) : M A :=
  emit (Store call err) >> ret a.

Definition RemovePlayerFromQueue (playerID : string) : M (option string) :=
  let call := CallRemovePlayerFromQueue playerID in
  let* r := Redis.Get (playerKey playerID) in
  match r with
  | Ok None => let e := "player not found" in returning call (Some e) (Some e)
  | Err e =>
      let e := Errorf "failed to get player" e in returning call (Some e) (Some e)
  | Ok (Some player) =>
      let* e := Redis.ZRem (queueKey (Region player) (GameMode player)) player in
      match e with
      | Some e =>
          let e := Errorf "failed to remove player from queue" e in
          returning call (Some e) (Some e)
      | None =>
          let* e := Redis.Del (playerKey playerID) in
          match e with
          | Some e =>
              let e := Errorf "failed to delete player key" e in
              returning call (Some e) (Some e)
          | None =>
              logger Info "Player removed from queue" [("player_id", playerID)] >>
              returning call None None
          end
      end
  end.

Definition GetPlayersInRange (region gameMode : string)
    (minRating maxRating limit : Z) : M (result (list Player)) :=
  let key := queueKey region gameMode in
  let call := CallGetPlayersInRange key minRating maxRating limit in
  let* r := Redis.ZRangeByScore key minRating maxRating limit in
  match r with
  | Err e =>
      let e := Errorf "failed to get players in range" e in
      returning call (Some e) (Err e)
  | Ok players => returning call None (Ok players)
  end.

Definition GetPlayerByID (playerID : string) : M (result Player) :=
  let call := CallGetPlayerByID playerID in
  let* r := Redis.Get (playerKey playerID) in
  match r with
  | Ok None => let e := "player not found" in returning call (Some e) (Err e)
  | Err e =>
      let e := Errorf "failed to get player" e in returning call (Some e) (Err e)
  | Ok (Some player) => returning call None (Ok player)
  end.

Definition contains (playerID : string) (m : Match) : bool :=
  bool_decide (playerID ∈ ID <$> Players m).

(** Modelled from the spec: [SaveMatch] is called by the matchers but its
    body is not part of the storage file.  The spec gives
    "saveMatch(match): durable write"; it is one store command that either
    fails, leaving the store as it was, or records the match. *)
Definition SaveMatch (m : Match) : M (option string) :=
  let* f := Redis.command in
  match f with
  | Some e => returning (CallSaveMatch m) (Some e) (Some e)
  | None =>
      modify (set_saved (cons m)) >>
      returning (CallSaveMatch m) None None
  end.

(** Modelled from the spec: [GetMatchByPlayerID] is called by [FindMatch]
    but its body is not part of the storage file.  The spec gives
    "getMatchByPlayerID(playerID) -> match or NotFound", a match that
    "already exists containing playerID"; the most recently persisted one
    is taken when there are several. *)
Definition GetMatchByPlayerID (playerID : string) : M (result (option Match)) :=
  let call := CallGetMatchByPlayerID playerID in
  let* f := Redis.command in
  match f with
  | Some e => returning call (Some e) (Err e)
  | None =>
      let* found := gets (λ w, find (contains playerID) (saved w)) in
      match found with
      | Some m => returning call None (Ok (Some m))
      | None => let e := "match not found" in returning call (Some e) (Err e)
      end
  end.

(** ** Matcher service ([service.MatcherService]) *)
Section Matcher.

Variable config : MatcherConfig.

Definition len {A} (l : list A) : Z := Z.of_nat (length l).

(** The candidate loop of [FindMatch]: the requesting player is skipped,
    a compatible candidate is appended, and the loop breaks as soon as the
    group is full. *)
Fixpoint selectCandidates (playerID : string) (currentPlayer : Player)
    (playersPerMatch : Z) (candidates matchPlayers : list Player) : list Player :=
  match candidates with
  | [] => matchPlayers
  | candidate :: candidates =>
      if String.eqb (ID candidate) playerID then
        selectCandidates playerID currentPlayer playersPerMatch candidates matchPlayers
      else if isCompatible config currentPlayer candidate then
        let matchPlayers := matchPlayers ++ [candidate] in
        if playersPerMatch <=? len matchPlayers then matchPlayers
        else selectCandidates playerID currentPlayer playersPerMatch
               candidates matchPlayers
      else
        selectCandidates playerID currentPlayer playersPerMatch candidates matchPlayers
  end.

(** The removal loop both matchers run after saving: every member is
    removed from the queue and a failed removal is only logged. *)
Fixpoint removeFromQueue (players : list Player) : M unit :=
  match players with
  | [] => ret tt
  | p :: players =>
      let* err := RemovePlayerFromQueue (ID p) in
      match err with
      | Some e =>
          logger Warn "Failed to remove player from queue"
            [("player_id", ID p); ("error", e)]
      | None => ret tt
      end >>
      removeFromQueue players
  end.

(** The block both matchers run on a full group: build the match (two
    clock readings), save it, log a failed save, then remove the members. *)
Definition createMatch (matchPlayers : list Player) : M Match :=
  let* unixNano := time_Now in
  let* createdAt := time_Now in
  let m := {| MatchID := "match_" +:+ pretty unixNano;
              Players := matchPlayers;
              CreatedAt := createdAt |} in
  let* err := SaveMatch m in
  match err with
  | Some e =>
      logger Warn "Failed to save match" [("match_id", MatchID m); ("error", e)]
  | None => ret tt
  end >>
  removeFromQueue matchPlayers >>
  ret m.

Definition FindMatch (playerID : string) : M (result Match) :=
  let* saved := GetMatchByPlayerID playerID in
  match saved with
  | Ok (Some savedMatch) =>
      logger Info "Returning saved match"
        [("match_id", MatchID savedMatch); ("player_id", playerID)] >>
      ret (Ok savedMatch)
  | _ =>
      let* r := GetPlayerByID playerID in
      match r with
      | Err e => ret (Err (Errorf "player not found in queue" e))
      | Ok currentPlayer =>
          let playersPerMatch := GetPlayersPerMatch (GameMode currentPlayer) in
          let* now := time_Now in
          let waitTime := time_Sub now (JoinedAt currentPlayer) in
          let ratingRange := calculateRatingRange config waitTime in
          let* r := GetPlayersInRange (Region currentPlayer) (GameMode currentPlayer)
                      (Int64.wrap (Rating currentPlayer - ratingRange))
                      (Int64.wrap (Rating currentPlayer + ratingRange))
                      (Int64.wrap (playersPerMatch * 2)) in
          match r with
          | Err e => ret (Err (Errorf "failed to get candidates" e))
          | Ok candidates =>
              let matchPlayers :=
                selectCandidates playerID currentPlayer playersPerMatch
                  candidates [currentPlayer] in
              if playersPerMatch <=? len matchPlayers then
                let* m := createMatch matchPlayers in
                logger Info "Match found"
                  [("match_id", MatchID m);
                   ("players_count", pretty (len matchPlayers))] >>
                ret (Ok m)
              else ret (Err "no suitable match found")
          end
      end
  end.

(** [used[id]] on a [map[string]bool]: an absent key reads [false]. *)
Definition is_used (used : gmap string bool) (id : string) : bool :=
  default false (used !! id).

(** The inner loop of [ProcessQueue]: [for j := 0; j < len(players) &&
    len(group) < playersPerMatch; j++], comparing with [group[0]]. *)
Fixpoint fillGroup (playersPerMatch : Z) (players group : list Player)
    (used : gmap string bool) : list Player * gmap string bool :=
  match players with
  | [] => (group, used)
  | pj :: players =>
      if len group <? playersPerMatch then
        if is_used used (ID pj) then fillGroup playersPerMatch players group used
        else
          match group with
          | [] => (group, used)
          | anchor :: _ =>
              if isCompatible config anchor pj then
                fillGroup playersPerMatch players (group ++ [pj])
                  (<[ID pj := true]> used)
              else fillGroup playersPerMatch players group used
          end
      else (group, used)
  end.

(** [for k := 1; k < len(group); k++ { delete(used, group[k].ID) }]
    followed by [delete(used, group[0].ID)]. *)
Definition release (group : list Player) (used : gmap string bool)
    : gmap string bool :=
  let used := foldl (λ u p, delete (ID p) u) used (tail group) in
  match group with
  | [] => used
  | anchor :: _ => delete (ID anchor) used
  end.

(** The outer loop of [ProcessQueue] from index [i] on: [anchors] is
    [players[i:]]. *)
Fixpoint formGroups (region gameMode : string) (playersPerMatch : Z)
    (players anchors : list Player) (used : gmap string bool) : M unit :=
  match anchors with
  | [] => ret tt
  | pi :: anchors =>
      if is_used used (ID pi) then
        formGroups region gameMode playersPerMatch players anchors used
      else
        let '(group, used) :=
          fillGroup playersPerMatch players [pi] (<[ID pi := true]> used) in
        if playersPerMatch <=? len group then
          let* m := createMatch group in
          logger Info "Match created from queue processing"
            [("match_id", MatchID m);
             ("players_count", pretty (len (Players m)));
             ("region", region);
             ("game_mode", gameMode)] >>
          formGroups region gameMode playersPerMatch players anchors used
        else
          formGroups region gameMode playersPerMatch players anchors
            (release group used)
  end.

Definition ProcessQueue (region gameMode : string) : M (option string) :=
  let playersPerMatch := GetPlayersPerMatch gameMode in
  let* r := GetPlayersInRange region gameMode 0 Int64.max_int 100 in
  match r with
  | Err e => ret (Some (Errorf "failed to get players" e))
  | Ok players =>
      if len players <? playersPerMatch then ret None
      else
        formGroups region gameMode playersPerMatch players players ∅ >>
        ret None
  end.

End Matcher.


(** ** Storage layer: joining the queue and its size *)

(** [ZCARD key]. *)
Definition ZCard (key : string) : M (result Z) :=
  let* f := Redis.command in
  match f with
  | Some e => ret (Err e)
  | None => gets (λ w, Ok (len (Redis.members key w)))
  end.

(** [SET key value EX ttl]. *)
Definition SetEX (key : string) (value : Player) : M (option string) :=
  let* f := Redis.command in
  match f with
  | Some e => ret (Some e)
  | None => modify (set_strs (<[key := value]>)) >> ret None
  end.

(** [RedisStorage.GetQueueSize]: the error of the command is returned as
    it is. *)
Definition GetQueueSize (region gameMode : string) : M (result Z) :=
  ZCard (queueKey region gameMode).

(** ** Encoding a record

    [json.Marshal] of a player fails only in [Time.MarshalJSON], for a
    [JoinedAt] whose year lies outside 0..9999 (taken in UTC here); the
    bounds are the first instants of the years 0 and 10000. *)
Definition year_0 : Z := -62167219200 * Second.
Definition year_10000 : Z := 253402300800 * Second.

Definition encodable (t : Z) : bool := (year_0 <=? t) && (t <? year_10000).

Definition marshal_error : string :=
  "json: error calling MarshalJSON for type time.Time: "
  +:+ "Time.MarshalJSON: year outside of range [0,9999]".

(** The members of a sorted set that share a score are ordered by the
    bytes of the member, here the JSON encoding of the record;
    [encoding_le p q] stands for that order of the encodings of [p] and
    [q]. *)
Section Encoding.

Variable encoding_le : Player → Player → bool.

(** Whether [member] comes before [q] in the sorted set: by score, then by
    encoding. *)
Definition zbefore (member q : Player) : bool :=
  (Redis.score member <? Redis.score q)
  || ((Redis.score member =? Redis.score q) && encoding_le member q).

Fixpoint zinsert (member : Player) (l : list Player) : list Player :=
  match l with
  | [] => [member]
  | q :: l' => if zbefore member q then member :: q :: l' else q :: zinsert member l'
  end.

(** [ZADD key score member] with the rating as score.  A member that is
    already in the set keeps its place: the same encoding carries the same
    rating. *)
Definition ZAdd (key : string) (member : Player) : M (option string) :=
  let* f := Redis.command in
  match f with
  | Some e => ret (Some e)
  | None =>
      modify (set_zsets (λ zs,
        let l := default [] (zs !! key) in
        <[key := if bool_decide (member ∈ l) then l else zinsert member l]> zs)) >>
      ret None
  end.

(** [RedisStorage.AddPlayerToQueue].  The record is encoded before any
    command is sent. *)
Definition AddPlayerToQueue (player : Player) : M (option string) :=
  let key := queueKey (Region player) (GameMode player) in
  if negb (encodable (JoinedAt player)) then
    ret (Some (Errorf "failed to marshal player" marshal_error))
  else
    let* err := ZAdd key player in
    match err with
    | Some e => ret (Some (Errorf "failed to add player to queue" e))
    | None =>
        let* err := SetEX (playerKey (ID player)) player in
        match err with
        | Some e => ret (Some (Errorf "failed to set player TTL" e))
        | None =>
            logger Info "Player added to queue"
              [("player_id", ID player);
               ("region", Region player);
               ("game_mode", GameMode player);
               ("rating", pretty (Rating player))] >>
            ret None
        end
    end.

End Encoding.

(** ** [models.NewPlayer] and the request *)

Record MatchRequest := mkRequest {
  req_PlayerID : string;
  req_Rating : Z;
  req_Region : string;
  req_GameMode : string;
  req_PlayerLevel : Z
}.

(** [uuid] is the value of [uuid.New().String()]. *)
Definition NewPlayer (uuid : string) (rating : Z) (region gameMode : string)
    (playerLevel : Z) : M Player :=
  let* now := time_Now in
  ret {| ID := uuid;
         Rating := rating;
         Region := region;
         GameMode := gameMode;
         JoinedAt := now;
         PlayerLevel := playerLevel |}.

(** ** HTTP handlers ([handler.QueueHandler])

    A handler is given what the router and the decoder extract from the
    request (path variable, query parameters, decoded body) and yields the
    status code and the JSON body it writes.  The service methods
    [AddPlayerToQueue], [RemovePlayerFromQueue] and [GetQueueSize] pass the
    call on to the storage method of the same name. *)
Inductive Value :=
| VString (s : string)
| VInt (n : Z).

Inductive Body :=
| Object (fields : gmap string Value)
| MatchBody (m : Match).

Record Response := mkResponse {
  status : Z;
  body : Body
}.

Definition StatusOK : Z := 200.
Definition StatusBadRequest : Z := 400.
Definition StatusNotFound : Z := 404.
Definition StatusInternalServerError : Z := 500.

(** Writing the response to the client is not modelled; encoding these
    bodies does not fail. *)
Definition respondJSON (code : Z) (data : Body) : M Response :=
  ret {| status := code; body := data |}.

(** [zap.Error(nil)] adds no field to the log line. *)
Definition respondError (code : Z) (message : string) (err : option string)
    : M Response :=
  logger Warn "Request error"
    ([("status", pretty code); ("message", message)]
     ++ match err with Some e => [("error", e)] | None => [] end) >>
  let errorResp : gmap string Value := {[ "error" := VString message ]} in
  let errorResp :=
    match err with
    | Some e => <["details" := VString e]> errorResp
    | None => errorResp
    end in
  ret {| status := code; body := Object errorResp |}.

Definition JoinQueue (encoding_le : Player → Player → bool) (uuid : string)
    (decoded : result MatchRequest) : M Response :=
  match decoded with
  | Err e => respondError StatusBadRequest "Invalid request body" (Some e)
  | Ok req =>
      let* player := NewPlayer uuid (req_Rating req) (req_Region req)
                       (req_GameMode req) (req_PlayerLevel req) in
      let* err := AddPlayerToQueue encoding_le player in
      match err with
      | Some e =>
          respondError StatusInternalServerError "Failed to add player to queue"
            (Some e)
      | None =>
          let* resp :=
            respondJSON StatusOK
              (Object {[ "player_id" := VString (ID player);
                         "status" := VString "queued";
                         "message" := VString "Player added to queue" ]}) in
          logger Info "Player joined queue"
            [("player_id", ID player);
             ("region", Region player);
             ("game_mode", GameMode player);
             ("rating", pretty (Rating player))] >>
          ret resp
      end
  end.

Definition LeaveQueue (playerID : string) : M Response :=
  if String.eqb playerID "" then
    respondError StatusBadRequest "Player ID is required" None
  else
    let* err := RemovePlayerFromQueue playerID in
    match err with
    | Some e =>
        respondError StatusNotFound "Failed to remove player from queue" (Some e)
    | None =>
        let* resp :=
          respondJSON StatusOK
            (Object {[ "player_id" := VString playerID;
                       "status" := VString "removed";
                       "message" := VString "Player removed from queue" ]}) in
        logger Info "Player left queue" [("player_id", playerID)] >>
        ret resp
    end.

Definition GetQueueStatus (region gameMode : string) : M Response :=
  if String.eqb region "" || String.eqb gameMode "" then
    respondError StatusBadRequest "Region and game_mode are required" None
  else
    let* r := GetQueueSize region gameMode in
    match r with
    | Err e =>
        respondError StatusInternalServerError "Failed to get queue size" (Some e)
    | Ok queueSize =>
        let* now := time_Now in
        respondJSON StatusOK
          (Object {[ "region" := VString region;
                     "game_mode" := VString gameMode;
                     "queue_size" := VInt queueSize;
                     "timestamp" := VInt (now / Second) ]})
    end.

Section Service.

Variable config : MatcherConfig.

(** [QueueHandler.FindMatch]. *)
Definition HandleFindMatch (playerID : string) : M Response :=
  if String.eqb playerID "" then
    respondError StatusBadRequest "Player ID is required" None
  else
    let* r := FindMatch config playerID in
    match r with
    | Err e => respondError StatusNotFound "Match not found" (Some e)
    | Ok m =>
        let* resp := respondJSON StatusOK (MatchBody m) in
        logger Info "Match found"
          [("match_id", MatchID m); ("player_id", playerID)] >>
        ret resp
    end.

(** ** The periodic queue processing of [main]

    One tick of the ticker: every region and mode of the fixed lists is
    processed in turn and a failure is logged. *)
Definition regions : list string := ["EU"; "US"; "ASIA"].
Definition gameModes : list string := ["1v1"; "3v3"].

Fixpoint processModes (region : string) (modes : list string) : M unit :=
  match modes with
  | [] => ret tt
  | gameMode :: modes =>
      let* err := ProcessQueue config region gameMode in
      match err with
      | Some e =>
          logger Warn "Failed to process queue"
            [("region", region); ("game_mode", gameMode); ("error", e)]
      | None => ret tt
      end >>
      processModes region modes
  end.

Fixpoint processRegions (rs : list string) : M unit :=
  match rs with
  | [] => ret tt
  | region :: rs => processModes region gameModes >> processRegions rs
  end.

Definition tick : M unit := processRegions regions.

End Service.
(** * Vocabulary of the statements *)

(** Number of elapsed 30-second slices, as [calculateRatingRange] counts
    them. *)
Definition expansionCount (waitTime : Z) : Z := Z.quot (Seconds_int waitTime) 30.

(** A non-negative rational [p / q] rounded to 53 significant bits, for a
    quotient of at least 2^52 or an integer ([q = 1]). *)
Definition round53 (p q : Z) : Z :=
  let e := Z.max 0 (Z.log2 (p / q) - 52) in
  Float64.rne_div p (q * 2 ^ e) * 2 ^ e.

(** The shortest wait at which the float64 reading of the seconds changes
    the slice count: one nanosecond short of 16777230 s, which is read as
    16777230 s. *)
Definition rounding_onset : Z := 16777230 * Second - 1.

(** The window in the words of the specification: below the threshold the
    base plus [floor(t.seconds / 30)] expansions, above it 1000. *)
Definition window_spec (config : MatcherConfig) (t : Z) : Z :=
  if MaxSearchTime config <? t then 1000
  else MaxRatingDiff config + t / (30 * Second) * RatingExpansionRate config.

(** Configurations whose window cannot leave the 64-bit range. *)
Definition fits (config : MatcherConfig) : Prop :=
  Z.abs (MaxRatingDiff config) <= 2 ^ 62 ∧
  Z.abs (RatingExpansionRate config) <= 2 ^ 32.

(** The events a call appended to the trace. *)
Definition events_since (w w' : World) : list Event :=
  drop (length (trace w)) (trace w').

(** The stored data of [w'] is that of [w]. *)
Definition same_store (w w' : World) : Prop :=
  zsets w' = zsets w ∧ strs w' = strs w ∧ saved w' = saved w.

(** The next [n] store commands succeed. *)
Definition available (n : nat) (w : World) : Prop :=
  Forall (λ f, f = None) (take n (faults w)).

(** What one removal leaves in the trace, by outcome. *)
Definition removal_events (p : Player) (err : option string) : list Event :=
  match err with
  | None =>
      [Log Info "Player removed from queue" [("player_id", ID p)];
       Store (CallRemovePlayerFromQueue (ID p)) None]
  | Some e =>
      [Store (CallRemovePlayerFromQueue (ID p)) (Some e);
       Log Warn "Failed to remove player from queue"
         [("player_id", ID p); ("error", e)]]
  end.

(** What saving a match leaves in the trace, by outcome. *)
Definition save_events (m : Match) (err : option string) : list Event :=
  Store (CallSaveMatch m) err ::
  match err with
  | None => []
  | Some e =>
      [Log Warn "Failed to save match" [("match_id", MatchID m); ("error", e)]]
  end.

(** The events of [createMatch]: the save, then one removal per member. *)
Definition match_events (m : Match) (err : option string)
    (outcomes : list (option string)) : list Event :=
  save_events m err ++ concat (zip_with removal_events (Players m) outcomes).

(** All players of a group share one region and one game mode. *)
Definition same_party (players : list Player) : Prop :=
  ∃ region gameMode,
    Forall (λ p, Region p = region ∧ GameMode p = gameMode) players.

(** Events that leave the queue and the persisted matches untouched. *)
Definition read_only (e : Event) : Prop :=
  match e with
  | Store (CallSaveMatch _) _ | Store (CallRemovePlayerFromQueue _) _ => False
  | _ => True
  end.

(** The events of one group formed by [ProcessQueue]. *)
Definition group_events (region gameMode : string)
    (g : Match * option string * list (option string)) : list Event :=
  let '(m, err, outcomes) := g in
  match_events m err outcomes ++
  [Log Info "Match created from queue processing"
     [("match_id", MatchID m);
      ("players_count", pretty (len (Players m)));
      ("region", region);
      ("game_mode", gameMode)]].

(** The part of [FindMatch] that runs when no saved match is returned:
    steps 2 to 8, from the lookup of the queue entry on. *)
Definition assemble (config : MatcherConfig) (playerID : string) : M (result Match) :=
  let* r := GetPlayerByID playerID in
  match r with
  | Err e => ret (Err (Errorf "player not found in queue" e))
  | Ok currentPlayer =>
      let playersPerMatch := GetPlayersPerMatch (GameMode currentPlayer) in
      let* now := time_Now in
      let waitTime := time_Sub now (JoinedAt currentPlayer) in
      let ratingRange := calculateRatingRange config waitTime in
      let* r := GetPlayersInRange (Region currentPlayer) (GameMode currentPlayer)
                  (Int64.wrap (Rating currentPlayer - ratingRange))
                  (Int64.wrap (Rating currentPlayer + ratingRange))
                  (Int64.wrap (playersPerMatch * 2)) in
      match r with
      | Err e => ret (Err (Errorf "failed to get candidates" e))
      | Ok candidates =>
          let matchPlayers :=
            selectCandidates config playerID currentPlayer playersPerMatch
              candidates [currentPlayer] in
          if playersPerMatch <=? len matchPlayers then
            let* m := createMatch matchPlayers in
            logger Info "Match found"
              [("match_id", MatchID m);
               ("players_count", pretty (len matchPlayers))] >>
            ret (Ok m)
          else ret (Err "no suitable match found")
      end
  end.

(** A group [ProcessQueue] formed out of [players], as seen in the final
    world [w']: full size, one party, members drawn from the fetched
    players, one removal outcome per member, and persisted if its save
    succeeded. *)
Definition group_formed (playersPerMatch : Z) (players : list Player) (w' : World)
    (g : Match * option string * list (option string)) : Prop :=
  let '(m, err, outcomes) := g in
  len (Players m) = playersPerMatch ∧
  same_party (Players m) ∧
  Forall (λ p, p ∈ players) (Players m) ∧
  length outcomes = length (Players m) ∧
  (err = None → m ∈ saved w').

(** ** Scenario worlds *)

(** Two queued EU/1v1 players, ratings 1500 and 1550, joined at instant 0;
    [fs] schedules the outcome of the store commands and the clock reads
    1 s, then 1 s + 1 ns, and so on. *)
Definition duel_p : Player := mkPlayer "p" 1500 "EU" "1v1" 0 1.
Definition duel_q : Player := mkPlayer "q" 1550 "EU" "1v1" 0 1.

Definition duel_world (fs : list (option string)) : World :=
  {| zsets := {[ queueKey "EU" "1v1" := [duel_p; duel_q] ]};
     strs := {[ playerKey "p" := duel_p; playerKey "q" := duel_q ]};
     saved := [];
     faults := fs;
     clock := λ n, Second + Z.of_nat n;
     ticks := 0;
     trace := [] |}.

(** An EU/3v3 player who joined at instant 0 and asks at 61 s, four players
    within 40 points, one 290 points above and one 310 points above. *)
Definition lone_p : Player := mkPlayer "p" 1500 "EU" "3v3" 0 1.
Definition lone_a : Player := mkPlayer "a" 1510 "EU" "3v3" 0 1.
Definition lone_b : Player := mkPlayer "b" 1520 "EU" "3v3" 0 1.
Definition lone_c : Player := mkPlayer "c" 1530 "EU" "3v3" 0 1.
Definition lone_d : Player := mkPlayer "d" 1540 "EU" "3v3" 0 1.
Definition lone_near : Player := mkPlayer "near" 1790 "EU" "3v3" 0 1.
Definition lone_far : Player := mkPlayer "far" 1810 "EU" "3v3" 0 1.

Definition lone_world : World :=
  {| zsets := {[ queueKey "EU" "3v3" :=
                   [lone_p; lone_a; lone_b; lone_c; lone_d; lone_near; lone_far] ]};
     strs := {[ playerKey "p" := lone_p; playerKey "a" := lone_a;
                playerKey "b" := lone_b; playerKey "c" := lone_c;
                playerKey "d" := lone_d; playerKey "near" := lone_near;
                playerKey "far" := lone_far ]};
     saved := [];
     faults := [];
     clock := λ _, 61 * Second;
     ticks := 0;
     trace := [] |}.

(** Two compatible EU/1v1 players, one of them with a negative rating. *)
Definition below_zero : Player := mkPlayer "n" (-5) "EU" "1v1" 0 1.
Definition above_zero : Player := mkPlayer "z" 10 "EU" "1v1" 0 1.

Definition negative_world : World :=
  {| zsets := {[ queueKey "EU" "1v1" := [below_zero; above_zero] ]};
     strs := {[ playerKey "n" := below_zero; playerKey "z" := above_zero ]};
     saved := [];
     faults := [];
     clock := λ n, Second + Z.of_nat n;
     ticks := 0;
     trace := [] |}.

(** ** Ordering of saves and removals in a trace

    Every removal call in [evs] comes after the save call of a match that
    contains the removed player; that match satisfies [persisted] when its
    save succeeded; and a removal that failed is followed up by a warning
    in [evs]. *)
Definition removals_follow_save (persisted : Match → Prop) (evs : list Event) : Prop :=
  ∀ (i : nat) playerID rerr,
    evs !! i = Some (Store (CallRemovePlayerFromQueue playerID) rerr) →
    ∃ (j : nat) m serr,
      (j < i)%nat ∧
      evs !! j = Some (Store (CallSaveMatch m) serr) ∧
      playerID ∈ ID <$> Players m ∧
      (serr = None → persisted m) ∧
      (∀ e, rerr = Some e →
            Log Warn "Failed to remove player from queue"
              [("player_id", playerID); ("error", e)] ∈ evs).

(** The ordering as the specification words it: every removal comes after
    a save that succeeded, of a match containing the removed player. *)
Definition persisted_before_removal (evs : list Event) : Prop :=
  ∀ (i : nat) playerID rerr,
    evs !! i = Some (Store (CallRemovePlayerFromQueue playerID) rerr) →
    ∃ (j : nat) m,
      (j < i)%nat ∧
      evs !! j = Some (Store (CallSaveMatch m) None) ∧
      playerID ∈ ID <$> Players m.

(** ** Vocabulary of the further properties *)

(** The matches handed to [SaveMatch], in trace order. *)
Definition built (evs : list Event) : list Match :=
  omap (λ e, match e with Store (CallSaveMatch m) _ => Some m | _ => None end) evs.

(** A partition in ascending order of score, as a sorted set keeps it. *)
Definition ascending (l : list Player) : Prop :=
  StronglySorted (λ p q, Redis.score p <= Redis.score q) l.

(** A group built around its first member: every other member passes
    [isCompatible] with it. *)
Definition anchored (config : MatcherConfig) (players : list Player) : Prop :=
  match players with
  | [] => True
  | anchor :: others => Forall (λ c, isCompatible config anchor c = true) others
  end.

(** The player ids of a list of matches, match after match. *)
Definition member_ids (ms : list Match) : list string :=
  concat ((λ m, ID <$> Players m) <$> ms).


(** The fetched players whose id is not marked in [used], in queue order. *)
Definition unused (used : gmap string bool) (players : list Player) : list Player :=
  filter (λ p, is_used used (ID p) = false) players.

(** [used] marks exactly the first [k] of [players]. *)
Definition marks (players : list Player) (used : gmap string bool) (k : nat) : Prop :=
  ∀ j p, players !! j = Some p → is_used used (ID p) = bool_decide (j < k)%nat.

(** Every sorted set of [w] lists its members by ascending score. *)
Definition sorted_store (w : World) : Prop :=
  ∀ key, ascending (Redis.members key w).

(** A third EU/1v1 player, rated between the two of [duel_world]. *)
Definition duel_r : Player := mkPlayer "r" 1520 "EU" "1v1" 5 1.

(** Ties of rating resolved by the order of arrival. *)
Definition arrival_le (p q : Player) : bool := JoinedAt p <=? JoinedAt q.

(** The range queries among the events, in call order, with their outcome. *)
Definition fetches (evs : list Event) : list (string * option string) :=
  omap (λ e, match e with
             | Store (CallGetPlayersInRange key _ _ _) err => Some (key, err)
             | _ => None
             end) evs.

(** The warnings of the queue processor among the events, with their fields. *)
Definition process_warnings (evs : list Event) : list (list (string * string)) :=
  omap (λ e, match e with
             | Log Warn msg fields =>
                 if String.eqb msg "Failed to process queue" then Some fields
                 else None
             | _ => None
             end) evs.

(** The store answers every command still to come. *)
Definition healthy (w : World) : Prop := Forall (λ f, f = None) (faults w).

(** The queue and the player keys agree: a key holds a record of that id,
    every member of a sorted set is the record under its own key and lies
    in the set of its region and mode, and no set lists a member twice. *)
Definition consistent (w : World) : Prop :=
  (∀ id p, strs w !! playerKey id = Some p → ID p = id) ∧
  (∀ key p, p ∈ Redis.members key w →
            strs w !! playerKey (ID p) = Some p ∧
            key = queueKey (Region p) (GameMode p)) ∧
  (∀ key, NoDup (Redis.members key w)).

(** [w'] holds the player keys and sorted sets of [w] without [players]. *)
Definition removed (players : list Player) (w w' : World) : Prop :=
  strs w' = foldl (λ s p, delete (playerKey (ID p)) s) (strs w) players ∧
  zsets w'
  = foldl (λ z p, alter (filter (λ q, q ≠ p)) (queueKey (Region p) (GameMode p)) z)
      (zsets w) players.
(** * Properties *)

(** ** Machine arithmetic *)

Lemma wrap_in_range z : Int64.in_range z → Int64.wrap z = z.
Proof.
  unfold Int64.in_range, Int64.min_int, Int64.max_int, Int64.wrap.
  intros Hz. rewrite Z.mod_small; lia.
Qed.

Lemma wrap_abs_sym z : Z.abs (Int64.wrap (- z)) = Z.abs (Int64.wrap z).
Proof.
  unfold Int64.wrap.
  destruct (Z.eq_dec ((z + 2 ^ 63) mod 2 ^ 64) 0) as [H0 | Hne].
  - (* z wraps to the smallest integer, and so does its opposite *)
    assert ((- z + 2 ^ 63) mod 2 ^ 64 = 0) as ->.
    { apply Z.mod_divide in H0 as [k Hk]; [| lia].
      apply Z.mod_divide; [lia |]. exists (1 - k). lia. }
    rewrite H0. reflexivity.
  - assert ((- z + 2 ^ 63) mod 2 ^ 64 = 2 ^ 64 - (z + 2 ^ 63) mod 2 ^ 64) as ->.
    { pose proof (Z.mod_pos_bound (z + 2 ^ 63) (2 ^ 64) ltac:(lia)) as Hb.
      symmetry. apply Z.mod_unique_pos with (q := - ((z + 2 ^ 63) / 2 ^ 64)); [lia |].
      pose proof (Z.div_mod (z + 2 ^ 63) (2 ^ 64) ltac:(lia)). lia. }
    lia.
Qed.

Lemma to_float64_abs z : Z.abs (Int64.to_float64 z) = Int64.to_float64 (Z.abs z).
Proof.
  unfold Int64.to_float64. rewrite (Z.abs_eq (Z.abs z)) by lia.
  set (a := Z.abs z). set (e := Z.max 0 (Z.log2 a - 52)).
  set (q' := if e =? 0 then _ else _).
  assert (0 <= Z.shiftl q' e) as Hnn.
  { apply Z.shiftl_nonneg. subst q'.
    assert (0 <= Z.shiftr a e) by (apply Z.shiftr_nonneg; lia).
    repeat case_match; lia. }
  destruct (Z.sgn_spec z) as [(? & ->) | [(? & ->) | (? & ->)]];
    destruct (Z.sgn_spec a) as [(? & ->) | [(? & ->) | (? & ->)]]; lia.
Qed.

Lemma to_float64_exact z : Z.abs z < 2 ^ 53 → Int64.to_float64 z = z.
Proof.
  intros Hz. unfold Int64.to_float64.
  assert (Z.log2 (Z.abs z) - 52 <= 0) as He.
  { destruct (Z.eq_dec (Z.abs z) 0) as [-> | Hne]; [cbn; lia |].
    assert (Z.log2 (Z.abs z) < 53); [| lia].
    apply Z.log2_lt_pow2; lia. }
  rewrite Z.max_l by lia. cbn [Z.eqb].
  rewrite Z.shiftr_0_r, Z.shiftl_0_r.
  destruct (Z.sgn_spec z) as [(? & ->) | [(? & ->) | (? & ->)]]; lia.
Qed.

(** ** Float64 rounding *)

Lemma rne_div_bounds p q : 0 < q → p / q <= Float64.rne_div p q <= p / q + 1.
Proof.
  intros Hq. unfold Float64.rne_div. cbv zeta.
  destruct (_ <? _); [lia |]. destruct (_ <? _); [lia |]. destruct (Z.even _); lia.
Qed.

Lemma rne_div_mono p p' q : 0 < q → p <= p' → Float64.rne_div p q <= Float64.rne_div p' q.
Proof.
  intros Hq Hle.
  pose proof (Z.div_le_mono p p' q Hq Hle) as Hk.
  destruct (Z.eq_dec (p / q) (p' / q)) as [Heq | Hne].
  - unfold Float64.rne_div. cbv zeta. rewrite <- Heq.
    pose proof (Z.div_mod p q ltac:(lia)). pose proof (Z.div_mod p' q ltac:(lia)).
    assert (p mod q <= p' mod q) by nia.
    destruct (Z.ltb_spec (2 * (p mod q)) q), (Z.ltb_spec q (2 * (p mod q))),
      (Z.ltb_spec (2 * (p' mod q)) q), (Z.ltb_spec q (2 * (p' mod q)));
      try lia; destruct (Z.even (p / q)); lia.
  - pose proof (rne_div_bounds p q Hq). pose proof (rne_div_bounds p' q Hq). lia.
Qed.

Lemma rne_div_exact k q : 0 < q → Float64.rne_div (k * q) q = k.
Proof.
  intros Hq. unfold Float64.rne_div. rewrite Z.div_mul, Z.mod_mul by lia.
  destruct (Z.ltb_spec (2 * 0) q); lia.
Qed.

Lemma round53_range p q :
  0 <= p → 0 < q →
  let e := Z.max 0 (Z.log2 (p / q) - 52) in
  (0 < e → 2 ^ (52 + e) <= round53 p q <= 2 ^ (53 + e)) ∧
  (e = 0 → p / q <= round53 p q <= p / q + 1 ∧ p / q < 2 ^ 53).
Proof.
  intros Hp Hq e. unfold round53. fold e.
  assert (0 <= p / q) as Hfl by (apply Z.div_pos; lia).
  assert (0 <= e) as He by lia.
  assert (0 < 2 ^ e) as Hpow by (apply Z.pow_pos_nonneg; lia).
  pose proof (rne_div_bounds p (q * 2 ^ e) ltac:(nia)) as Hb.
  rewrite <- Z.div_div in Hb by lia.
  split.
  - intros Hpos.
    assert (0 < p / q) as Hflpos.
    { destruct (Z.eq_dec (p / q) 0) as [H0 | ?]; [| lia].
      subst e. rewrite H0 in Hpos. cbn in Hpos. lia. }
    destruct (Z.log2_spec (p / q) Hflpos) as [Hlo Hhi].
    assert (Z.log2 (p / q) = 52 + e) as Hlog by lia.
    rewrite Hlog in Hlo. replace (Z.succ (Z.log2 (p / q))) with (53 + e) in Hhi by lia.
    rewrite !Z.pow_add_r in * by lia.
    assert (2 ^ 52 <= p / q / 2 ^ e) by (apply Z.div_le_lower_bound; lia).
    assert (p / q / 2 ^ e < 2 ^ 53) by (apply Z.div_lt_upper_bound; lia).
    nia.
  - intros He0. rewrite He0 in *. rewrite Z.pow_0_r, Z.div_1_r in *.
    rewrite Z.mul_1_r. split; [lia |].
    destruct (Z.eq_dec (p / q) 0) as [H0 | ?]; [rewrite H0; lia |].
    apply Z.log2_lt_pow2; lia.
Qed.

Lemma round53_mono p p' q :
  0 <= p → 0 < q → p <= p' → round53 p q <= round53 p' q.
Proof.
  intros Hp Hq Hle.
  pose proof (Z.div_le_mono p p' q Hq Hle) as Hfl.
  assert (0 <= p / q) by (apply Z.div_pos; lia).
  pose proof (Z.log2_le_mono (p / q) (p' / q) Hfl) as Hlog.
  destruct (round53_range p q Hp Hq) as [Hbig Hsmall].
  destruct (round53_range p' q ltac:(lia) Hq) as [Hbig' Hsmall'].
  set (e := Z.max 0 (Z.log2 (p / q) - 52)) in *.
  set (e' := Z.max 0 (Z.log2 (p' / q) - 52)) in *.
  assert (e <= e') as Hee by lia.
  destruct (Z.eq_dec e e') as [Heq | Hne].
  - unfold round53. fold e e'. rewrite <- Heq.
    assert (0 < 2 ^ e) by (apply Z.pow_pos_nonneg; lia).
    apply Z.mul_le_mono_nonneg_r; [lia |]. apply rne_div_mono; nia.
  - assert (0 < e') as He' by lia. specialize (Hbig' He').
    destruct (Z.eq_dec e 0) as [He0 | He0].
    + destruct (Hsmall He0) as [[_ Hup] Hlt].
      assert (2 ^ 53 <= 2 ^ (52 + e')) by (apply Z.pow_le_mono_r; lia). lia.
    + assert (0 < e) as Hepos by lia. specialize (Hbig Hepos).
      assert (2 ^ (53 + e) <= 2 ^ (52 + e')) by (apply Z.pow_le_mono_r; lia). lia.
Qed.

(** [to_float64] on a non-negative integer is this rounding. *)
Lemma to_float64_round53 a : 0 <= a → Int64.to_float64 a = round53 a 1.
Proof.
  intros Ha. unfold Int64.to_float64, round53.
  rewrite Z.abs_eq, Z.div_1_r, Z.mul_1_l by done.
  set (e := Z.max 0 (Z.log2 a - 52)).
  assert (0 <= e) as He by lia.
  assert (0 < 2 ^ e) as Hpow by (apply Z.pow_pos_nonneg; lia).
  rewrite Z.shiftr_div_pow2, !Z.shiftl_mul_pow2 by lia.
  destruct (Z.eq_dec a 0) as [-> | Hne].
  { cbn. reflexivity. }
  rewrite Z.sgn_pos, Z.mul_1_l by lia. f_equal.
  unfold Float64.rne_div.
  pose proof (Z.div_mod a (2 ^ e) ltac:(lia)) as Hdm.
  replace (a - a / 2 ^ e * 2 ^ e) with (a mod 2 ^ e) by lia.
  destruct (Z.eqb_spec e 0) as [He0 | He0].
  - rewrite He0, Z.pow_0_r, Z.mod_1_r, Z.div_1_r. reflexivity.
  - rewrite Z.shiftl_mul_pow2 by lia. rewrite Z.mul_1_l.
    assert (2 ^ e = 2 * 2 ^ (e - 1)) as Hhalf.
    { rewrite <- Z.pow_succ_r by lia. f_equal. lia. }
    destruct (Z.ltb_spec (a mod 2 ^ e) (2 ^ (e - 1))),
      (Z.ltb_spec (2 ^ (e - 1)) (a mod 2 ^ e)),
      (Z.ltb_spec (2 * (a mod 2 ^ e)) (2 ^ e)),
      (Z.ltb_spec (2 ^ e) (2 * (a mod 2 ^ e))); lia.
Qed.

Lemma to_float64_opp z : Int64.to_float64 (- z) = - Int64.to_float64 z.
Proof.
  unfold Int64.to_float64. rewrite Z.abs_opp, Z.sgn_opp. lia.
Qed.

Lemma to_float64_mono a b : a <= b → Int64.to_float64 a <= Int64.to_float64 b.
Proof.
  intros Hab.
  assert (∀ x, 0 <= x → 0 <= Int64.to_float64 x) as Hnn.
  { intros x Hx. rewrite to_float64_round53 by done.
    pose proof (round53_mono 0 x 1 ltac:(lia) ltac:(lia) Hx) as H.
    by vm_compute in H |- *. }
  destruct (Z.le_gt_cases 0 a) as [Ha | Ha].
  - rewrite !to_float64_round53 by lia. apply round53_mono; lia.
  - destruct (Z.le_gt_cases 0 b) as [Hb | Hb].
    + pose proof (Hnn b Hb) as Hb'. pose proof (Hnn (- a) ltac:(lia)) as Ha'.
      rewrite to_float64_opp in Ha'. lia.
    + pose proof (round53_mono (- b) (- a) 1 ltac:(lia) ltac:(lia) ltac:(lia)) as H.
      rewrite <- !to_float64_round53, !to_float64_opp in H by lia. lia.
Qed.

(** An integer with at most 53 significant bits is a double. *)
Lemma to_float64_fixed k j :
  0 <= j → Z.abs k <= 2 ^ 53 → Int64.to_float64 (k * 2 ^ j) = k * 2 ^ j.
Proof.
  intros Hj Hk.
  assert (∀ k, 0 < k <= 2 ^ 53 → Int64.to_float64 (k * 2 ^ j) = k * 2 ^ j) as Hpos.
  { clear k Hk. intros k Hk.
    assert (0 < 2 ^ j) as Hpow by (apply Z.pow_pos_nonneg; lia).
    rewrite to_float64_round53 by nia. unfold round53.
    rewrite Z.div_1_r, Z.mul_1_l.
    set (e := Z.max 0 (Z.log2 (k * 2 ^ j) - 52)).
    assert (0 <= e) as He by lia.
    assert (0 < 2 ^ e) as Hpe by (apply Z.pow_pos_nonneg; lia).
    assert (∃ c, k * 2 ^ j = c * 2 ^ e) as [c Hc].
    { destruct (Z.le_gt_cases e j) as [Hej | Hej].
      - exists (k * 2 ^ (j - e)). rewrite <- Z.mul_assoc, <- Z.pow_add_r by lia.
        do 2 f_equal. lia.
      - (* more than 53 bits would be needed: k is a power of two times ... *)
        assert (Z.log2 (k * 2 ^ j) = Z.log2 k + j) as Hlog.
        { rewrite Z.log2_mul_pow2 by lia. lia. }
        assert (Z.log2 k <= 53) as Hlk.
        { destruct (Z.eq_dec k (2 ^ 53)) as [-> | ?]; [by rewrite Z.log2_pow2 |].
          assert (Z.log2 k < 53); [| lia]. apply Z.log2_lt_pow2; lia. }
        assert (e = j + 1 ∧ Z.log2 k = 53) as [He1 Hl53] by lia.
        assert (k = 2 ^ 53) as ->.
        { destruct (Z.log2_spec k ltac:(lia)) as [Hlo _]. rewrite Hl53 in Hlo. lia. }
        exists (2 ^ 52). rewrite He1, Z.pow_add_r by lia. lia. }
    rewrite Hc, rne_div_exact by lia. done. }
  destruct (Z.lt_trichotomy k 0) as [Hneg | [-> | Hp]].
  - replace (k * 2 ^ j) with (- (- k * 2 ^ j)) by lia.
    rewrite to_float64_opp, Hpos by lia. lia.
  - done.
  - apply Hpos. lia.
Qed.

Lemma rne_div_upper p q : 0 < q → 2 * (Float64.rne_div p q * q) <= 2 * p + q.
Proof.
  intros Hq. unfold Float64.rne_div. cbv zeta.
  pose proof (Z.div_mod p q ltac:(lia)) as Hdm.
  pose proof (Z.mod_pos_bound p q Hq) as Hr.
  destruct (Z.ltb_spec (2 * (p mod q)) q); [nia |].
  destruct (Z.ltb_spec q (2 * (p mod q))); [nia |].
  destruct (Z.even (p / q)); nia.
Qed.

Lemma to_float64_upper a : 0 <= a < 2 ^ 106 → Int64.to_float64 a <= a + 2 ^ 52.
Proof.
  intros [Ha Hlt]. rewrite to_float64_round53 by done. unfold round53.
  rewrite Z.div_1_r, Z.mul_1_l.
  set (e := Z.max 0 (Z.log2 a - 52)).
  assert (0 <= e <= 53) as He.
  { destruct (Z.eq_dec a 0) as [-> | Hne]; [subst e; cbn; lia |].
    assert (Z.log2 a < 106) by (apply Z.log2_lt_pow2; lia). lia. }
  assert (0 < 2 ^ e) as Hpe by (apply Z.pow_pos_nonneg; lia).
  assert (2 ^ e <= 2 ^ 53) by (apply Z.pow_le_mono_r; lia).
  pose proof (rne_div_upper a (2 ^ e) Hpe). lia.
Qed.

Lemma frac_round53 n : 0 <= n → Float64.frac n = round53 (n * Float64.scale) Second.
Proof.
  intros Hn. unfold Float64.frac, round53. rewrite Z.abs_eq by done.
  destruct (Z.eq_dec n 0) as [-> | Hne]; [reflexivity |].
  rewrite Z.sgn_pos by lia. lia.
Qed.

Lemma frac_opp n : Float64.frac (- n) = - Float64.frac n.
Proof. unfold Float64.frac. rewrite Z.abs_opp, Z.sgn_opp. lia. Qed.

Lemma frac_range n :
  0 <= n < Second → 0 <= Float64.frac n <= 4835703273622813557129216.
Proof.
  intros [H0 Hlt]. rewrite frac_round53 by done.
  change 4835703273622813557129216 with (round53 (999999999 * Float64.scale) Second).
  change 0 with (round53 (0 * Float64.scale) Second) at 1.
  unfold Second in *.
  split; (apply round53_mono; [unfold Float64.scale; lia | lia | unfold Float64.scale; lia]).
Qed.

Lemma frac_mono n n' : 0 <= n <= n' → Float64.frac n <= Float64.frac n'.
Proof.
  intros [H0 Hle]. rewrite !frac_round53 by lia.
  apply round53_mono; unfold Float64.scale, Second; lia.
Qed.

(** The exact sum [float64(sec) + float64(nsec)/1e9] before rounding. *)
Lemma Seconds_nonneg d :
  0 <= d <= Int64.max_int →
  let sec := d / Second in
  Float64.Seconds d
  = Int64.to_float64 (sec * Float64.scale + Float64.frac (d mod Second)) ∧
  0 <= sec < 2 ^ 34 ∧
  sec * Float64.scale <= Float64.Seconds d <= (sec + 1) * Float64.scale.
Proof.
  intros [H0 Hmax] sec. unfold Int64.max_int in Hmax.
  assert (0 <= sec < 2 ^ 34) as Hsec.
  { subst sec. unfold Second. split; [apply Z.div_pos; lia |].
    apply Z.div_lt_upper_bound; lia. }
  assert (Float64.Seconds d
          = Int64.to_float64 (sec * Float64.scale + Float64.frac (d mod Second)))
    as Heq.
  { unfold Float64.Seconds. cbv zeta.
    rewrite Z.quot_div_nonneg, Z.rem_mod_nonneg by (unfold Second; lia).
    fold sec. rewrite (to_float64_exact sec) by lia. done. }
  split; [done |]. split; [done |]. rewrite Heq.
  pose proof (frac_range (d mod Second)
                (Z.mod_pos_bound d Second ltac:(unfold Second; lia))) as Hf.
  assert (0 < Float64.scale) by (by vm_compute).
  assert (4835703273622813557129216 < Float64.scale) by (by vm_compute).
  pose proof (to_float64_fixed sec 82 ltac:(lia) ltac:(lia)) as Hlo.
  pose proof (to_float64_fixed (sec + 1) 82 ltac:(lia) ltac:(lia)) as Hhi.
  change (2 ^ 82) with Float64.scale in Hlo, Hhi.
  split; [rewrite <- Hlo at 1 | rewrite <- Hhi]; apply to_float64_mono; lia.
Qed.

Lemma Seconds_int_opp d : Seconds_int (- d) = - Seconds_int d.
Proof.
  unfold Seconds_int, Float64.to_int, Float64.Seconds. cbv zeta.
  rewrite Z.quot_opp_l, Z.rem_opp_l by (unfold Second; lia).
  rewrite to_float64_opp, frac_opp.
  replace (- Int64.to_float64 (d ÷ Second) * Float64.scale
           + - Float64.frac (Z.rem d Second))
    with (- (Int64.to_float64 (d ÷ Second) * Float64.scale
             + Float64.frac (Z.rem d Second))) by lia.
  rewrite to_float64_opp, Z.quot_opp_l; [done | by vm_compute].
Qed.

(** The conversion gives the whole seconds or one more. *)
Lemma Seconds_int_nonneg d :
  0 <= d <= Int64.max_int → d / Second <= Seconds_int d <= d / Second + 1.
Proof.
  intros Hd. destruct (Seconds_nonneg d Hd) as (_ & Hsec & Hlo & Hhi).
  unfold Seconds_int, Float64.to_int.
  assert (0 < Float64.scale) as Hs by (by vm_compute).
  rewrite Z.quot_div_nonneg by nia. split.
  - apply Z.div_le_lower_bound; lia.
  - apply Z.div_le_upper_bound; [lia |]. nia.
Qed.

(** Below 2^24 s it gives the whole seconds. *)
Lemma Seconds_int_exact d : Z.abs d < 2 ^ 24 * Second → Seconds_int d = d ÷ Second.
Proof.
  assert (∀ d, 0 <= d < 2 ^ 24 * Second → Seconds_int d = d ÷ Second) as Hpos.
  { clear d. intros d [H0 Hlt].
    assert (d <= Int64.max_int) as Hmax
      by (unfold Int64.max_int, Second in *; lia).
    destruct (Seconds_nonneg d (conj H0 Hmax)) as (Heq & Hsec & Hlo & _).
    cbv zeta in *.
    assert (d / Second < 2 ^ 24) as Hsmall
      by (apply Z.div_lt_upper_bound; unfold Second in *; lia).
    pose proof (frac_range (d mod Second)
                  (Z.mod_pos_bound d Second ltac:(unfold Second; lia))) as Hf.
    assert (Float64.scale = 2 ^ 82) as Hscale by reflexivity.
    assert (Float64.Seconds d < (d / Second + 1) * Float64.scale) as Hhi.
    { rewrite Heq.
      eapply Z.le_lt_trans; [apply to_float64_upper; rewrite Hscale; nia |].
      rewrite Hscale. lia. }
    unfold Seconds_int, Float64.to_int.
    rewrite (Z.quot_div_nonneg d) by (unfold Second; lia).
    rewrite Z.quot_div_nonneg by (rewrite Hscale in *; nia).
    symmetry. apply Z.div_unique with (Float64.Seconds d - d / Second * Float64.scale).
    - left. rewrite Hscale in *. lia.
    - lia. }
  intros Hd. destruct (Z.le_gt_cases 0 d) as [H0 | Hneg].
  - apply Hpos. lia.
  - pose proof (Hpos (- d) ltac:(lia)) as H.
    rewrite Seconds_int_opp, Z.quot_opp_l in H by (unfold Second; lia). lia.
Qed.

Lemma Seconds_int_mono d d' :
  Int64.in_range d → Int64.in_range d' → d <= d' → Seconds_int d <= Seconds_int d'.
Proof.
  assert (∀ d d', 0 <= d <= d' → d' <= - Int64.min_int →
                  Seconds_int d <= Seconds_int d') as Hpos.
  { clear d d'. intros d d' [H0 Hle] Hmax.
    assert (∀ x, 0 <= x <= - Int64.min_int →
                 let sec := x / Second in
                 Float64.Seconds x
                 = Int64.to_float64 (sec * Float64.scale + Float64.frac (x mod Second))
                 ∧ 0 <= sec < 2 ^ 34) as Hexp.
    { intros x [Hx0 Hx]. unfold Int64.min_int in Hx.
      destruct (Z.eq_dec x (2 ^ 63)) as [-> | Hne]; [by vm_compute |].
      destruct (Seconds_nonneg x) as (? & ? & _); [unfold Int64.max_int; lia | done]. }
    destruct (Hexp d ltac:(lia)) as [Hd Hsec].
    destruct (Hexp d' ltac:(lia)) as [Hd' Hsec'].
    cbv zeta in *.
    unfold Seconds_int, Float64.to_int. apply Z.quot_le_mono; [by vm_compute |].
    rewrite Hd, Hd'. apply to_float64_mono.
    pose proof (frac_range (d mod Second)
                  (Z.mod_pos_bound d Second ltac:(unfold Second; lia))) as Hf.
    pose proof (frac_range (d' mod Second)
                  (Z.mod_pos_bound d' Second ltac:(unfold Second; lia))) as Hf'.
    assert (Float64.scale = 2 ^ 82) as Hscale by reflexivity.
    pose proof (Z.div_le_mono d d' Second ltac:(unfold Second; lia) Hle) as Hq.
    destruct (Z.eq_dec (d / Second) (d' / Second)) as [Heq | Hne].
    - rewrite Heq. apply Z.add_le_mono_l, frac_mono.
      pose proof (Z.div_mod d Second ltac:(unfold Second; lia)).
      pose proof (Z.div_mod d' Second ltac:(unfold Second; lia)).
      pose proof (Z.mod_pos_bound d Second ltac:(unfold Second; lia)).
      split; [lia |]. nia.
    - rewrite Hscale. nia. }
  intros Hd Hd' Hle. unfold Int64.in_range, Int64.max_int in *.
  destruct (Z.le_gt_cases 0 d) as [H0 | Hneg].
  - apply Hpos; unfold Int64.min_int in *; lia.
  - destruct (Z.le_gt_cases 0 d') as [H0' | Hneg'].
    + pose proof (Hpos 0 d' ltac:(lia) ltac:(unfold Int64.min_int in *; lia)) as Hup.
      pose proof (Hpos 0 (- d) ltac:(lia) ltac:(lia)) as Hlo.
      rewrite Seconds_int_opp in Hlo. change (Seconds_int 0) with 0 in *. lia.
    + pose proof (Hpos (- d') (- d) ltac:(lia) ltac:(lia)) as H.
      rewrite !Seconds_int_opp in H. lia.
Qed.

Lemma Seconds_int_bound d :
  Int64.in_range d → Z.abs (Seconds_int d) <= 9223372036.
Proof.
  intros Hd.
  assert (Int64.in_range Int64.min_int ∧ Int64.in_range Int64.max_int) as [Hmin Hmax]
    by (by vm_compute).
  pose proof (Seconds_int_mono _ _ Hmin Hd ltac:(unfold Int64.in_range in Hd; lia)) as Hlo.
  pose proof (Seconds_int_mono _ _ Hd Hmax ltac:(unfold Int64.in_range in Hd; lia)) as Hhi.
  assert (Seconds_int Int64.min_int = -9223372036) as Emin by (by vm_compute).
  assert (Seconds_int Int64.max_int = 9223372036) as Emax by (by vm_compute).
  lia.
Qed.

(** The seconds read are the whole seconds of the duration or one more
    in magnitude. *)
Lemma Seconds_int_near d :
  Int64.in_range d →
  Seconds_int d = d ÷ Second ∨ Seconds_int d = d ÷ Second + Z.sgn d.
Proof.
  assert (∀ d, 0 <= d <= - Int64.min_int →
               Seconds_int d = d ÷ Second ∨ Seconds_int d = d ÷ Second + Z.sgn d)
    as Hpos.
  { clear d. intros d [H0 Hmax]. unfold Int64.min_int in Hmax.
    destruct (Z.eq_dec d (2 ^ 63)) as [-> | Hne]; [left; by vm_compute |].
    destruct (Z.eq_dec d 0) as [-> | Hnz]; [left; by vm_compute |].
    pose proof (Seconds_int_nonneg d ltac:(unfold Int64.max_int; lia)) as Hb.
    rewrite Z.quot_div_nonneg by (unfold Second; lia).
    rewrite Z.sgn_pos by lia. lia. }
  intros Hd. unfold Int64.in_range, Int64.max_int in Hd.
  destruct (Z.le_gt_cases 0 d) as [H0 | Hneg].
  - apply Hpos. unfold Int64.min_int in *. lia.
  - pose proof (Hpos (- d) ltac:(lia)) as H.
    rewrite Seconds_int_opp, Z.quot_opp_l, Z.sgn_opp in H by (unfold Second; lia).
    lia.
Qed.

(** ** Range queries on float64 scores *)

Lemma range_sublist min max count l : sublist (Redis.range min max count l) l.
Proof.
  unfold Redis.range. cbv zeta. case_match.
  - etrans; [apply sublist_take | apply sublist_filter].
  - apply sublist_filter.
Qed.

Lemma range_elem min max count l p :
  p ∈ Redis.range min max count l → p ∈ l ∧ Redis.within min max p.
Proof.
  unfold Redis.range. cbv zeta. intros Hp.
  assert (p ∈ filter (Redis.within min max) l) as Hf.
  { case_match; [| done]. apply elem_of_take in Hp as (i & Hp & _).
    by apply list_elem_of_lookup_2 in Hp. }
  apply list_elem_of_filter in Hf. tauto.
Qed.

Lemma range_positive min max count l :
  0 < count →
  Redis.range min max count l
  = take (Z.to_nat count) (filter (Redis.within min max) l).
Proof.
  intros Hc. unfold Redis.range. cbv zeta.
  by destruct (Z.ltb_spec 0 count); [| lia].
Qed.

Lemma range_length min max count l :
  0 < count → (length (Redis.range min max count l) <= Z.to_nat count)%nat.
Proof. intros Hc. rewrite range_positive by done. rewrite length_take. lia. Qed.

(** A rating between the bounds has its score between theirs. *)
Lemma within_rating min max p :
  min <= Rating p <= max → Redis.within min max p.
Proof.
  intros [Hlo Hhi]. unfold Redis.within, Redis.score.
  split; by apply to_float64_mono.
Qed.

(** Below 2^53 in magnitude the scores compare as the ratings do. *)
Lemma within_exact min max p :
  Z.abs min < 2 ^ 53 → Z.abs max < 2 ^ 53 → Z.abs (Rating p) < 2 ^ 53 →
  Redis.within min max p ↔ min <= Rating p <= max.
Proof.
  intros Hmin Hmax Hp. unfold Redis.within, Redis.score.
  by rewrite !to_float64_exact.
Qed.

(** The fetch of all non-negative scores is exact on 64-bit ratings. *)
Lemma within_all p :
  Rating p <= Int64.max_int →
  Redis.within 0 Int64.max_int p ↔ 0 <= Rating p.
Proof.
  intros Hmax. unfold Redis.within, Redis.score. split.
  - intros [Hlo _]. destruct (Z.le_gt_cases 0 (Rating p)) as [| Hneg]; [done |].
    pose proof (to_float64_mono (Rating p) (-1) ltac:(lia)) as Hm.
    change (Int64.to_float64 (-1)) with (-1) in Hm.
    change (Int64.to_float64 0) with 0 in Hlo. lia.
  - intros Hp. split; by apply to_float64_mono.
Qed.

(** ** The compared difference *)

(** The compared difference is symmetric, whatever the ratings. *)
Lemma ratingDiff_sym p1 p2 : ratingDiff p1 p2 = ratingDiff p2 p1.
Proof.
  unfold ratingDiff. rewrite !to_float64_abs.
  replace (Rating p2 - Rating p1) with (- (Rating p1 - Rating p2)) by lia.
  by rewrite wrap_abs_sym.
Qed.

(** Where subtraction and conversion are exact it is the absolute
    difference of the ratings. *)
Lemma ratingDiff_exact p1 p2 :
  Z.abs (Rating p1 - Rating p2) <= 2 ^ 53 →
  ratingDiff p1 p2 = Z.abs (Rating p1 - Rating p2).
Proof.
  intros Hd. unfold ratingDiff.
  rewrite wrap_in_range by (unfold Int64.in_range, Int64.min_int, Int64.max_int; lia).
  assert (Int64.to_float64 (Rating p1 - Rating p2) = Rating p1 - Rating p2)
    as ->.
  { destruct (Z.eq_dec (Z.abs (Rating p1 - Rating p2)) (2 ^ 53)) as [Heq | Hne];
      [| apply to_float64_exact; lia].
    destruct (Z.abs_spec (Rating p1 - Rating p2)) as [[_ Ha] | [_ Ha]].
    - rewrite <- Ha, Heq. by vm_compute.
    - replace (Rating p1 - Rating p2) with (- 2 ^ 53) by lia. by vm_compute. }
  unfold Int64.of_float64, Int64.min_int, Int64.max_int.
  rewrite andb_true_intro; [done |].
  split; apply Z.leb_le; lia.
Qed.

(** ** The rating window *)

Lemma expansionCount_exact t :
  Z.abs t < 2 ^ 24 * Second → expansionCount t = t ÷ (30 * Second).
Proof.
  intros Ht. unfold expansionCount. rewrite Seconds_int_exact by done.
  rewrite Z.mul_comm. apply Z.quot_quot; unfold Second; lia.
Qed.

(** Up to the onset of rounding the slices are those of the whole
    seconds. *)
Lemma expansionCount_below t :
  Z.abs t < rounding_onset → expansionCount t = t ÷ (30 * Second).
Proof.
  assert (∀ t, 0 <= t < rounding_onset → expansionCount t = t ÷ (30 * Second))
    as Hpos.
  { clear t. intros t [H0 Hlt].
    destruct (Z.lt_ge_cases t (2 ^ 24 * Second)) as [Hshort | Hlong];
      [apply expansionCount_exact; lia |].
    unfold rounding_onset in Hlt.
    assert (Int64.in_range t ∧ Int64.in_range (16777230 * Second - 2)) as [Ht Hlast]
      by (unfold Int64.in_range, Int64.min_int, Int64.max_int, Second in *; lia).
    pose proof (Seconds_int_mono t (16777230 * Second - 2) Ht Hlast ltac:(lia))
      as Hup.
    replace (Seconds_int (16777230 * Second - 2)) with 16777229 in Hup
      by (by vm_compute).
    pose proof (Seconds_int_mono (2 ^ 24 * Second) t
                  ltac:(by vm_compute) Ht Hlong) as Hlow.
    replace (Seconds_int (2 ^ 24 * Second)) with 16777216 in Hlow
      by (by vm_compute).
    unfold expansionCount.
    assert (Seconds_int t ÷ 30 = 559240) as ->.
    { rewrite Z.quot_div_nonneg by lia.
      symmetry. apply (Z.div_unique _ 30 559240 (Seconds_int t - 16777200)); lia. }
    rewrite Z.quot_div_nonneg by (unfold Second; lia).
    apply (Z.div_unique _ _ 559240 (t - 559240 * (30 * Second)));
      unfold Second in *; lia. }
  intros Ht. destruct (Z.le_gt_cases 0 t) as [H0 | Hneg]; [apply Hpos; lia |].
  pose proof (Hpos (- t) ltac:(lia)) as H. unfold expansionCount in *.
  rewrite Seconds_int_opp, !Z.quot_opp_l in H by (unfold Second; lia). lia.
Qed.

Lemma expansionCount_nonneg t :
  0 <= t < rounding_onset → expansionCount t = t / (30 * Second).
Proof.
  intros Ht. rewrite expansionCount_below by lia.
  apply Z.quot_div_nonneg; unfold Second; lia.
Qed.

Lemma expansionCount_neg t :
  - rounding_onset < t <= 0 → expansionCount t = - (- t / (30 * Second)).
Proof.
  intros Ht. rewrite expansionCount_below by lia.
  rewrite <- (Z.quot_div_nonneg (- t)) by (unfold Second; lia).
  rewrite Z.quot_opp_l by (unfold Second; lia). lia.
Qed.

Lemma expansionCount_mono t t' :
  Int64.in_range t → Int64.in_range t' → t <= t' →
  expansionCount t <= expansionCount t'.
Proof.
  intros Ht Ht' Hle. unfold expansionCount.
  apply Z.quot_le_mono; [lia |]. by apply Seconds_int_mono.
Qed.

Lemma expansionCount_sign t :
  Int64.in_range t →
  (0 <= t → 0 <= expansionCount t) ∧ (t <= 0 → expansionCount t <= 0).
Proof.
  intros Ht.
  assert (Int64.in_range 0) as H0 by (by vm_compute).
  split; intros Hs.
  - apply (expansionCount_mono 0 t H0 Ht Hs).
  - apply (expansionCount_mono t 0 Ht H0 Hs).
Qed.

Lemma expansionCount_bound t :
  Int64.in_range t → Z.abs (expansionCount t) <= 307445734.
Proof.
  intros Ht. pose proof (Seconds_int_bound t Ht) as Hb. unfold expansionCount.
  assert (Z.abs (Seconds_int t ÷ 30) = Z.abs (Seconds_int t) ÷ 30) as ->.
  { destruct (Z.le_gt_cases 0 (Seconds_int t)) as [Hs | Hs].
    - rewrite !Z.abs_eq; [done | done |]. apply Z.quot_pos; lia.
    - rewrite (Z.abs_neq (Seconds_int t)) by lia.
      rewrite Z.quot_opp_l by lia. apply Z.abs_neq.
      replace (Seconds_int t) with (- - Seconds_int t) by lia.
      rewrite Z.quot_opp_l by lia.
      assert (0 <= - Seconds_int t ÷ 30) by (apply Z.quot_pos; lia). lia. }
  rewrite Z.quot_div_nonneg by lia.
  assert (Z.abs (Seconds_int t) / 30 <= 9223372036 / 30)
    by (apply Z.div_le_mono; lia).
  change (9223372036 / 30) with 307445734 in *. lia.
Qed.

(** Below the threshold, and with a configuration that fits, no wrap-around
    occurs. *)
Lemma calculateRatingRange_ramp config t :
  Int64.in_range t → fits config → t <= MaxSearchTime config →
  calculateRatingRange config t
  = MaxRatingDiff config + expansionCount t * RatingExpansionRate config.
Proof.
  intros Ht [Hb Hr] Hle. unfold calculateRatingRange.
  destruct (Z.ltb_spec (MaxSearchTime config) t); [lia |].
  fold (expansionCount t).
  pose proof (expansionCount_bound t Ht) as Hc.
  assert (Z.abs (expansionCount t * RatingExpansionRate config)
          <= 307445734 * 2 ^ 32) as Hp.
  { rewrite Z.abs_mul. apply Z.mul_le_mono_nonneg; lia. }
  rewrite (wrap_in_range (_ * _))
    by (unfold Int64.in_range, Int64.min_int, Int64.max_int; lia).
  apply wrap_in_range.
  unfold Int64.in_range, Int64.min_int, Int64.max_int; lia.
Qed.

Lemma calculateRatingRange_saturated config t :
  MaxSearchTime config < t → calculateRatingRange config t = 1000.
Proof.
  intros Hgt. unfold calculateRatingRange.
  by destruct (Z.ltb_spec (MaxSearchTime config) t); [| lia].
Qed.

(** C3, as the claim states it, fails in these ways.  For a negative
    wait: one second before the join instant the code counts zero slices
    (integer division truncates toward zero) where [floor] counts minus
    one.  For a long wait: the seconds are read from a float64, and one
    nanosecond short of 16777230 s (2^24 s and a little) the sum rounds up
    to 16777230 s, which makes 559241 slices where [floor] of the elapsed
    seconds over 30 counts 559240, under a threshold that long for a
    positive wait and under the default one for a negative wait.  With a
    base next to the largest integer the sum wraps around, and with a
    negative rate the window decreases. *)
Lemma window_floor_counterexample :
  let long := {| MaxRatingDiff := 200;
                 MaxSearchTime := 2 ^ 25 * Second;
                 RatingExpansionRate := 50;
                 PlayersPerMatch := 6 |} in
  let high := {| MaxRatingDiff := Int64.max_int;
                 MaxSearchTime := 5 * Minute;
                 RatingExpansionRate := 1;
                 PlayersPerMatch := 6 |} in
  let falling := {| MaxRatingDiff := 200;
                    MaxSearchTime := 5 * Minute;
                    RatingExpansionRate := -50;
                    PlayersPerMatch := 6 |} in
  let t := rounding_onset in
  (- Second <= MaxSearchTime DefaultMatcherConfig ∧
   calculateRatingRange DefaultMatcherConfig (- Second) = 200 ∧
   window_spec DefaultMatcherConfig (- Second) = 150) ∧
  (0 <= t <= MaxSearchTime long ∧
   t / (30 * Second) = 559240 ∧
   calculateRatingRange long t = 200 + 559241 * 50 ∧
   window_spec long t = 200 + 559240 * 50) ∧
  (- t <= MaxSearchTime DefaultMatcherConfig ∧
   t / (30 * Second) = 559240 ∧
   calculateRatingRange DefaultMatcherConfig (- t) = 200 - 559241 * 50) ∧
  (calculateRatingRange high (30 * Second) = Int64.min_int ∧
   window_spec high (30 * Second) = Int64.max_int + 1) ∧
  (calculateRatingRange falling 0 = 200 ∧
   calculateRatingRange falling (30 * Second) = 150).
Proof. by vm_compute. Qed.

(** C3 (amended): for a wait time [t] in the 64-bit range and a
    configuration that fits, the window is 1000 when [t] exceeds
    [MaxSearchTime].  Up to [MaxSearchTime] it is the base plus the slice
    count times the rate, where the slices are counted on the seconds
    read from a float64: for a wait shorter in magnitude than
    16777229.999999999 s (where that reading first changes the count)
    that is [floor(t.seconds / 30)] slices when [t >= 0] and minus
    [floor(|t|.seconds / 30)] when [t < 0]; for every wait the seconds
    read are the whole seconds of [|t|] or one more.  With a non-negative
    rate the window is non-decreasing over all [t <= MaxSearchTime]. *)
Theorem calculateRatingRange_window config t :
  Int64.in_range t → fits config →
  (MaxSearchTime config < t → calculateRatingRange config t = 1000) ∧
  (0 <= t <= MaxSearchTime config → t < rounding_onset →
   calculateRatingRange config t
   = MaxRatingDiff config + t / (30 * Second) * RatingExpansionRate config) ∧
  (t < 0 → t <= MaxSearchTime config → - rounding_onset < t →
   calculateRatingRange config t
   = MaxRatingDiff config - - t / (30 * Second) * RatingExpansionRate config) ∧
  (t <= MaxSearchTime config →
   ∃ seconds,
     calculateRatingRange config t
     = MaxRatingDiff config + seconds ÷ 30 * RatingExpansionRate config ∧
     (seconds = t ÷ Second ∨ seconds = t ÷ Second + Z.sgn t)) ∧
  (0 <= RatingExpansionRate config →
   ∀ t', Int64.in_range t' → t <= t' <= MaxSearchTime config →
         calculateRatingRange config t <= calculateRatingRange config t').
Proof.
  intros Ht Hfits. split; [| split; [| split; [| split]]].
  - apply calculateRatingRange_saturated.
  - intros [H0 Hle] Hshort. rewrite calculateRatingRange_ramp by done.
    by rewrite expansionCount_nonneg.
  - intros Hneg Hle Hshort. rewrite calculateRatingRange_ramp by done.
    rewrite expansionCount_neg by lia. lia.
  - intros Hle. exists (Seconds_int t).
    split; [by apply calculateRatingRange_ramp |].
    by apply Seconds_int_near.
  - intros Hrate t' Ht' [Htt' Hle].
    rewrite !calculateRatingRange_ramp by (done || lia).
    pose proof (expansionCount_mono t t' Ht Ht' Htt').
    apply Z.add_le_mono_l, Z.mul_le_mono_nonneg_r; lia.
Qed.

Lemma calculateRatingRange_window_witness :
  calculateRatingRange DefaultMatcherConfig (61 * Second) = 200 + 2 * 50 ∧
  calculateRatingRange DefaultMatcherConfig (- (61 * Second)) = 200 - 2 * 50 ∧
  calculateRatingRange DefaultMatcherConfig (301 * Second) = 1000 ∧
  calculateRatingRange DefaultMatcherConfig (- (61 * Second))
  <= calculateRatingRange DefaultMatcherConfig (61 * Second).
Proof.
  assert (Int64.in_range (61 * Second)) as H61 by (by vm_compute).
  assert (Int64.in_range (- (61 * Second))) as Hm61 by (by vm_compute).
  assert (Int64.in_range (301 * Second)) as H301 by (by vm_compute).
  assert (fits DefaultMatcherConfig) as Hfits by (by vm_compute).
  destruct (calculateRatingRange_window DefaultMatcherConfig (61 * Second)
              H61 Hfits) as (_ & Hpos & _ & _).
  destruct (calculateRatingRange_window DefaultMatcherConfig (- (61 * Second))
              Hm61 Hfits) as (_ & _ & Hneg & _ & Hmono).
  destruct (calculateRatingRange_window DefaultMatcherConfig (301 * Second)
              H301 Hfits) as (Hsat & _ & _ & _).
  split; [| split; [| split]].
  - rewrite Hpos; [reflexivity | by vm_compute | by vm_compute].
  - rewrite Hneg; [reflexivity | reflexivity | by vm_compute | by vm_compute].
  - apply Hsat. reflexivity.
  - apply Hmono; [by vm_compute | exact H61 | by vm_compute].
Defined.

(** C9, as the claim states it, fails for a negative wait: with the
    default configuration a join instant 150 s in the future gives a
    window of -50.  It also fails for a configuration with a negative base
    or a negative rate, and for one whose base is next to the largest
    integer, where the sum wraps around. *)
Lemma window_negative_counterexample :
  let low := {| MaxRatingDiff := -1;
                MaxSearchTime := 5 * Minute;
                RatingExpansionRate := 50;
                PlayersPerMatch := 6 |} in
  let falling := {| MaxRatingDiff := 200;
                    MaxSearchTime := 5 * Minute;
                    RatingExpansionRate := -300;
                    PlayersPerMatch := 6 |} in
  let high := {| MaxRatingDiff := Int64.max_int;
                 MaxSearchTime := 5 * Minute;
                 RatingExpansionRate := 1;
                 PlayersPerMatch := 6 |} in
  (calculateRatingRange DefaultMatcherConfig (- (150 * Second)) = -50 ∧
   ¬ 0 <= calculateRatingRange DefaultMatcherConfig (- (150 * Second))) ∧
  calculateRatingRange low 0 = -1 ∧
  calculateRatingRange falling (30 * Second) = -100 ∧
  calculateRatingRange high (30 * Second) = Int64.min_int.
Proof. by vm_compute. Qed.

(** C9 (amended): with a non-negative base difference and expansion rate
    that fit, the window is non-negative for every wait time that is zero
    or positive or lies past [MaxSearchTime]; for a negative wait up to
    [MaxSearchTime] it is non-negative exactly when the slices counted
    (for a wait shorter in magnitude than 16777229.999999999 s,
    [floor(|t|.seconds/30)] of them) times the rate do not exceed the
    base. *)
Theorem calculateRatingRange_nonneg config t :
  Int64.in_range t → fits config →
  0 <= MaxRatingDiff config → 0 <= RatingExpansionRate config →
  (0 <= t ∨ MaxSearchTime config < t → 0 <= calculateRatingRange config t) ∧
  (t < 0 → t <= MaxSearchTime config →
   (0 <= calculateRatingRange config t
    ↔ - expansionCount t * RatingExpansionRate config <= MaxRatingDiff config) ∧
   (- rounding_onset < t →
    (0 <= calculateRatingRange config t
     ↔ - t / (30 * Second) * RatingExpansionRate config <= MaxRatingDiff config))).
Proof.
  intros Ht Hfits Hb Hr. split.
  - intros Hcase.
    destruct (Z.lt_ge_cases (MaxSearchTime config) t) as [Hgt | Hle].
    + rewrite calculateRatingRange_saturated by done. lia.
    + rewrite calculateRatingRange_ramp by (done || lia).
      destruct (expansionCount_sign t Ht) as [Hnn _].
      apply Z.add_nonneg_nonneg; [done |].
      apply Z.mul_nonneg_nonneg; [apply Hnn; lia | done].
  - intros Hneg Hle. rewrite calculateRatingRange_ramp by done. split; [lia |].
    intros Hshort. rewrite expansionCount_neg by lia. lia.
Qed.

Lemma calculateRatingRange_nonneg_witness :
  0 <= calculateRatingRange DefaultMatcherConfig (61 * Second) ∧
  0 <= calculateRatingRange DefaultMatcherConfig (- (149 * Second)) ∧
  ¬ 0 <= calculateRatingRange DefaultMatcherConfig (- (150 * Second)).
Proof.
  assert (fits DefaultMatcherConfig) as Hfits by (by vm_compute).
  assert (0 <= MaxRatingDiff DefaultMatcherConfig) as Hb by (by vm_compute).
  assert (0 <= RatingExpansionRate DefaultMatcherConfig) as Hr
    by (by vm_compute).
  assert (Int64.in_range (61 * Second)) as H1 by (by vm_compute).
  assert (Int64.in_range (- (149 * Second))) as H2 by (by vm_compute).
  assert (Int64.in_range (- (150 * Second))) as H3 by (by vm_compute).
  destruct (calculateRatingRange_nonneg DefaultMatcherConfig (61 * Second)
              H1 Hfits Hb Hr) as [Hpos _].
  destruct (calculateRatingRange_nonneg DefaultMatcherConfig (- (149 * Second))
              H2 Hfits Hb Hr) as [_ Hneg2].
  destruct (calculateRatingRange_nonneg DefaultMatcherConfig (- (150 * Second))
              H3 Hfits Hb Hr) as [_ Hneg3].
  split; [| split].
  - apply Hpos. left. by vm_compute.
  - destruct Hneg2 as [_ Hshort]; [reflexivity | by vm_compute |].
    apply Hshort; by vm_compute.
  - destruct Hneg3 as [_ Hshort]; [reflexivity | by vm_compute |].
    intros Hge. apply Hshort in Hge; [| by vm_compute]. by vm_compute in Hge.
Defined.

(** ** The compatibility predicate *)

Lemma isCompatible_true config a b :
  isCompatible config a b = true ↔
  Region a = Region b ∧ GameMode a = GameMode b ∧
  ratingDiff a b <= MaxRatingDiff config.
Proof.
  unfold isCompatible.
  destruct (String.eqb_spec (Region a) (Region b)) as [Hr | Hr]; cbn;
    [| split; [done | by intros (? & _)]].
  destruct (String.eqb_spec (GameMode a) (GameMode b)) as [Hm | Hm]; cbn;
    [| split; [done | by intros (_ & ? & _)]].
  rewrite Z.leb_le. tauto.
Qed.

(** C7, as the claim states it, fails for ratings that lie far apart.
    Between the largest rating and zero the difference becomes 2^63 as a
    float64, which [int] turns into the smallest integer (on amd64);
    between the largest rating and one hundred above the smallest the
    64-bit subtraction wraps to -101.  In both cases [isCompatible] is
    true although the absolute difference of the ratings exceeds
    [MaxRatingDiff].  And a difference of 2^53 + 1 becomes 2^53 as a
    float64, which passes a bound of 2^53. *)
Lemma isCompatible_far_counterexample :
  let a := mkPlayer "a" Int64.max_int "EU" "1v1" 0 1 in
  let b := mkPlayer "b" 0 "EU" "1v1" 0 1 in
  let c := mkPlayer "c" (Int64.min_int + 100) "EU" "1v1" 0 1 in
  let d := mkPlayer "d" (2 ^ 53 + 1) "EU" "1v1" 0 1 in
  let wide := {| MaxRatingDiff := 2 ^ 53;
                 MaxSearchTime := 5 * Minute;
                 RatingExpansionRate := 50;
                 PlayersPerMatch := 6 |} in
  (isCompatible DefaultMatcherConfig a b = true ∧
   ¬ Z.abs (Rating a - Rating b) <= MaxRatingDiff DefaultMatcherConfig) ∧
  (isCompatible DefaultMatcherConfig a c = true ∧
   ¬ Z.abs (Rating a - Rating c) <= MaxRatingDiff DefaultMatcherConfig) ∧
  (isCompatible wide d b = true ∧
   ¬ Z.abs (Rating d - Rating b) <= MaxRatingDiff wide).
Proof. by vm_compute. Qed.

(** C7 (amended): [isCompatible] is symmetric; it is false whenever the
    regions or the game modes differ, whatever the ratings; it is true
    exactly when the regions match, the modes match and the rating
    difference it computes is at most [MaxRatingDiff]; and as long as the
    absolute difference of the two ratings is at most 2^53 (where the
    64-bit subtraction and the float64 conversion are exact) it is true
    exactly when the regions match, the modes match and that absolute
    difference is at most [MaxRatingDiff]. *)
Theorem isCompatible_spec config a b :
  isCompatible config a b = isCompatible config b a ∧
  (Region a ≠ Region b ∨ GameMode a ≠ GameMode b →
   isCompatible config a b = false) ∧
  (isCompatible config a b = true ↔
   Region a = Region b ∧ GameMode a = GameMode b ∧
   ratingDiff a b <= MaxRatingDiff config) ∧
  (Z.abs (Rating a - Rating b) <= 2 ^ 53 →
   (isCompatible config a b = true ↔
    Region a = Region b ∧ GameMode a = GameMode b ∧
    Z.abs (Rating a - Rating b) <= MaxRatingDiff config)).
Proof.
  split; [| split; [| split]].
  - apply eq_true_iff_eq. rewrite !isCompatible_true, (ratingDiff_sym b a).
    split; intros (-> & -> & ?); done.
  - intros Hne. apply not_true_is_false. rewrite isCompatible_true.
    intros (? & ? & _). tauto.
  - apply isCompatible_true.
  - intros Hd. rewrite isCompatible_true, ratingDiff_exact; done.
Qed.

Lemma isCompatible_spec_witness :
  isCompatible DefaultMatcherConfig
    (mkPlayer "a" 1500 "EU" "1v1" 0 1) (mkPlayer "b" 1550 "EU" "1v1" 0 1) = true ∧
  isCompatible DefaultMatcherConfig
    (mkPlayer "a" 1500 "EU" "1v1" 0 1) (mkPlayer "c" 1701 "EU" "1v1" 0 1) = false.
Proof.
  split.
  - apply (isCompatible_spec DefaultMatcherConfig
             (mkPlayer "a" 1500 "EU" "1v1" 0 1) (mkPlayer "b" 1550 "EU" "1v1" 0 1));
      by vm_compute.
  - apply not_true_is_false.
    rewrite (proj2 (proj2 (proj2 (isCompatible_spec DefaultMatcherConfig
               (mkPlayer "a" 1500 "EU" "1v1" 0 1)
               (mkPlayer "c" 1701 "EU" "1v1" 0 1)))));
      [| by vm_compute].
    intros (_ & _ & Hle). revert Hle. by vm_compute.
Defined.

(** ** The storage layer *)

Ltac munfold :=
  unfold returning, logger in *; unfold emit in *;
  unfold bind, ret, gets, modify, Redis.command in *.

Lemma events_since_app w w' evs :
  trace w' = trace w ++ evs → events_since w w' = evs.
Proof. unfold events_since. intros ->. by rewrite drop_app_length. Qed.

Lemma GetMatchByPlayerID_inv playerID w r w1 :
  GetMatchByPlayerID playerID w = (r, w1) →
  same_store w w1 ∧ faults w1 = tail (faults w) ∧
  ∃ err, trace w1 = trace w ++ [Store (CallGetMatchByPlayerID playerID) err] ∧
  match r with
  | Ok (Some m) => err = None ∧ find (contains playerID) (saved w) = Some m
  | Ok None => False
  | Err _ => True
  end.
Proof.
  unfold GetMatchByPlayerID, same_store. munfold. intros H.
  repeat case_match; simplify_eq; cbn; eauto 10.
Qed.

Lemma GetMatchByPlayerID_found playerID w m :
  find (contains playerID) (saved w) = Some m → available 1 w →
  ∃ w1, GetMatchByPlayerID playerID w = (Ok (Some m), w1) ∧
        same_store w w1 ∧ faults w1 = tail (faults w).
Proof.
  unfold GetMatchByPlayerID, same_store, available. munfold. intros Hf Hav.
  destruct (faults w) as [| f fs] eqn:Hfs; cbn in *.
  - rewrite Hf. cbn. eauto 10.
  - apply Forall_cons in Hav as [-> _]. cbn. rewrite Hf. cbn. eauto 10.
Qed.

Lemma GetPlayerByID_inv playerID w r w1 :
  GetPlayerByID playerID w = (r, w1) →
  same_store w w1 ∧ faults w1 = tail (faults w) ∧
  ∃ err, trace w1 = trace w ++ [Store (CallGetPlayerByID playerID) err] ∧
  match r with
  | Ok p => err = None ∧ strs w !! playerKey playerID = Some p
  | Err _ => True
  end.
Proof.
  unfold GetPlayerByID, Redis.Get, same_store. munfold. intros H.
  repeat case_match; simplify_eq; cbn; eauto 10.
Qed.

Lemma GetPlayersInRange_inv region gameMode lo hi limit w r w1 :
  GetPlayersInRange region gameMode lo hi limit w = (r, w1) →
  same_store w w1 ∧ faults w1 = tail (faults w) ∧
  ∃ err, trace w1
         = trace w ++ [Store (CallGetPlayersInRange (queueKey region gameMode)
                                lo hi limit) err] ∧
  match r with
  | Ok players =>
      err = None ∧
      players = Redis.range lo hi limit
                  (Redis.members (queueKey region gameMode) w)
  | Err _ => True
  end.
Proof.
  unfold GetPlayersInRange, Redis.ZRangeByScore, same_store. munfold. intros H.
  repeat case_match; simplify_eq; cbn; eauto 10.
Qed.

Lemma time_Now_inv w now w1 :
  time_Now w = (now, w1) →
  same_store w w1 ∧ faults w1 = faults w ∧ trace w1 = trace w.
Proof.
  unfold time_Now, same_store. munfold. intros H. by simplify_eq.
Qed.

Lemma RemovePlayerFromQueue_inv (p : Player) w err w1 :
  RemovePlayerFromQueue (ID p) w = (err, w1) →
  saved w1 = saved w ∧
  trace w1 = trace w ++ match err with
                        | None => removal_events p None
                        | Some e => [Store (CallRemovePlayerFromQueue (ID p)) (Some e)]
                        end.
Proof.
  unfold RemovePlayerFromQueue, Redis.Get, Redis.ZRem, Redis.Del. munfold.
  intros H. repeat case_match; simplify_eq; cbn; rewrite <- ?app_assoc; eauto.
Qed.

Lemma removeFromQueue_inv players w w1 :
  removeFromQueue players w = (tt, w1) →
  saved w1 = saved w ∧
  ∃ outcomes, length outcomes = length players ∧
    trace w1 = trace w ++ concat (zip_with removal_events players outcomes).
Proof.
  revert w. induction players as [| p players IH]; intros w; cbn.
  - unfold ret. intros ?; simplify_eq. split; [done |].
    exists []. by rewrite app_nil_r.
  - unfold bind at 1 2.
    destruct (RemovePlayerFromQueue (ID p) w) as [err w2] eqn:Hrm.
    apply RemovePlayerFromQueue_inv in Hrm as [Hs2 Ht2].
    assert (∃ w3, (match err with
                   | Some e => logger Warn "Failed to remove player from queue"
                                 [("player_id", ID p); ("error", e)]
                   | None => ret tt
                   end) w2 = (tt, w3) ∧ saved w3 = saved w2 ∧
                  trace w3 = trace w ++ removal_events p err) as (w3 & -> & Hs3 & Ht3).
    { destruct err; munfold; eexists; (split; [done |]); cbn; rewrite ?Ht2; cbn;
        rewrite <- ?app_assoc; done. }
    intros H. apply IH in H as (Hs & outs & Hlen & Ht).
    split; [congruence |].
    exists (err :: outs). cbn. split; [by rewrite Hlen |].
    by rewrite Ht, Ht3, <- app_assoc.
Qed.

Lemma SaveMatch_inv m w err w1 :
  SaveMatch m w = (err, w1) →
  trace w1 = trace w ++ [Store (CallSaveMatch m) err] ∧
  saved w1 = match err with None => m :: saved w | Some _ => saved w end.
Proof.
  unfold SaveMatch. munfold. intros H.
  repeat case_match; simplify_eq; cbn; eauto.
Qed.

(** ** Group assembly *)
Section Assembly.

Variable config : MatcherConfig.

Lemma compatible_same_party anchor (added : list Player) :
  Forall (λ p, isCompatible config anchor p = true) added →
  same_party (anchor :: added).
Proof.
  intros Hall. exists (Region anchor), (GameMode anchor).
  constructor; [done |].
  eapply Forall_impl; [exact Hall |]. cbn. intros p Hp.
  apply isCompatible_true in Hp as (-> & -> & _). done.
Qed.

Lemma selectCandidates_shape playerID currentPlayer playersPerMatch candidates acc :
  ∃ accepted,
    selectCandidates config playerID currentPlayer playersPerMatch candidates acc
    = acc ++ accepted ∧
    Forall (λ c, c ∈ candidates ∧ ID c ≠ playerID ∧
                 isCompatible config currentPlayer c = true) accepted ∧
    (len acc < playersPerMatch → len (acc ++ accepted) <= playersPerMatch).
Proof.
  revert acc. induction candidates as [| c candidates IH]; intros acc; cbn.
  - exists []. rewrite app_nil_r. split; [done |]. split; [done | lia].
  - assert (∀ accepted,
              Forall (λ c0, c0 ∈ candidates ∧ ID c0 ≠ playerID ∧
                            isCompatible config currentPlayer c0 = true) accepted →
              Forall (λ c0, c0 ∈ c :: candidates ∧ ID c0 ≠ playerID ∧
                            isCompatible config currentPlayer c0 = true) accepted)
      as Hweak.
    { intros accepted Hacc. eapply Forall_impl; [exact Hacc |].
      intros c0 (? & ? & ?). split; [by right | done]. }
    destruct (String.eqb_spec (ID c) playerID) as [Hself | Hother].
    { destruct (IH acc) as (accepted & -> & Hall & Hlen). eauto. }
    destruct (isCompatible config currentPlayer c) eqn:Hc.
    2: { destruct (IH acc) as (accepted & -> & Hall & Hlen). eauto. }
    destruct (Z.leb_spec playersPerMatch (len (acc ++ [c]))) as [Hfull | Hroom].
    + exists [c]. split; [done |]. split.
      * constructor; [| done]. split; [by left | done].
      * unfold len in *. rewrite length_app in *. cbn in *. lia.
    + destruct (IH (acc ++ [c])) as (accepted & -> & Hall & Hlen).
      exists (c :: accepted). rewrite <- app_assoc. split; [done |]. split.
      * constructor; [| by apply Hweak]. split; [by left | done].
      * intros _. rewrite <- app_assoc in Hlen. by apply Hlen.
Qed.

Lemma fillGroup_shape playersPerMatch players anchor rest used group' used' :
  fillGroup config playersPerMatch players (anchor :: rest) used = (group', used') →
  len (anchor :: rest) <= playersPerMatch →
  ∃ added,
    group' = anchor :: rest ++ added ∧
    Forall (λ p, p ∈ players ∧ isCompatible config anchor p = true) added ∧
    len group' <= playersPerMatch.
Proof.
  revert rest used.
  induction players as [| pj players IH]; intros rest used; cbn [fillGroup].
  - intros ? Hlen; simplify_eq. exists []. by rewrite app_nil_r.
  - assert (∀ added,
              Forall (λ p, p ∈ players ∧ isCompatible config anchor p = true) added →
              Forall (λ p, p ∈ pj :: players ∧ isCompatible config anchor p = true)
                added) as Hweak.
    { intros added Hadd. eapply Forall_impl; [exact Hadd |].
      intros p (? & ?). split; [by right | done]. }
    intros Hfill Hlen.
    destruct (Z.ltb_spec (len (anchor :: rest)) playersPerMatch) as [Hroom | Hfull].
    2: { simplify_eq. exists []. by rewrite app_nil_r. }
    destruct (is_used used (ID pj)).
    { destruct (IH _ _ Hfill Hlen) as (added & -> & Hall & Hle). eauto. }
    destruct (isCompatible config anchor pj) eqn:Hc.
    2: { destruct (IH _ _ Hfill Hlen) as (added & -> & Hall & Hle). eauto. }
    change ((anchor :: rest) ++ [pj]) with (anchor :: (rest ++ [pj])) in Hfill.
    apply IH in Hfill as (added & -> & Hall & Hle).
    + exists (pj :: added). rewrite <- app_assoc in Hle |- *.
      split; [done |]. split; [| done].
      constructor; [| by apply Hweak]. split; [by left | done].
    + unfold len in *. cbn in *. rewrite length_app. cbn. lia.
Qed.

End Assembly.

(** ** Creating a match *)

Lemma createMatch_inv players w m w' :
  createMatch players w = (m, w') →
  Players m = players ∧
  ∃ err outcomes,
    length outcomes = length players ∧
    trace w' = trace w ++ match_events m err outcomes ∧
    saved w' = match err with None => m :: saved w | Some _ => saved w end.
Proof.
  unfold createMatch, bind. intros H.
  destruct (time_Now w) as [unixNano w1] eqn:H1.
  destruct (time_Now w1) as [createdAt w2] eqn:H2.
  apply time_Now_inv in H1 as ((_ & _ & Hs1) & _ & Ht1).
  apply time_Now_inv in H2 as ((_ & _ & Hs2) & _ & Ht2).
  match type of H with context [SaveMatch ?m0 w2] => set (mm := m0) in * end.
  destruct (SaveMatch mm w2) as [err w3] eqn:H3.
  apply SaveMatch_inv in H3 as [Ht3 Hs3].
  assert (∃ w4, (match err with
                 | Some e => logger Warn "Failed to save match"
                               [("match_id", MatchID mm); ("error", e)]
                 | None => ret tt
                 end) w3 = (tt, w4) ∧ saved w4 = saved w3 ∧
                trace w4 = trace w ++ save_events mm err) as (w4 & Hw4 & Hs4 & Ht4).
  { destruct err; munfold; eexists; (split; [done |]); cbn;
      rewrite Ht3, Ht2, Ht1, <- ?app_assoc; done. }
  rewrite Hw4 in H.
  destruct (removeFromQueue players w4) as [[] w5] eqn:H5.
  apply removeFromQueue_inv in H5 as (Hs5 & outcomes & Hlen & Ht5).
  unfold ret in H. simplify_eq. split; [done |].
  exists err, outcomes. split; [done |]. split.
  - unfold match_events. by rewrite Ht5, Ht4, <- app_assoc.
  - rewrite Hs5, Hs4, Hs3, Hs2, Hs1. done.
Qed.

Lemma createMatch_saved_mono players w m w' m0 :
  createMatch players w = (m, w') → m0 ∈ saved w → m0 ∈ saved w'.
Proof.
  intros H Hin. apply createMatch_inv in H as (_ & err & _ & _ & _ & ->).
  destruct err; [done | by right].
Qed.

(** ** [FindMatch], case by case *)

Lemma FindMatch_unfold config playerID :
  FindMatch config playerID
  = (let* saved := GetMatchByPlayerID playerID in
     match saved with
     | Ok (Some savedMatch) =>
         logger Info "Returning saved match"
           [("match_id", MatchID savedMatch); ("player_id", playerID)] >>
         ret (Ok savedMatch)
     | _ => assemble config playerID
     end).
Proof. reflexivity. Qed.

Lemma assemble_inv config playerID w r w' :
  assemble config playerID w = (r, w') →
  match r with
  | Err _ =>
      same_store w w' ∧ ∃ evs, trace w' = trace w ++ evs ∧ Forall read_only evs
  | Ok m =>
      ∃ currentPlayer lo hi err outcomes,
        let playersPerMatch := GetPlayersPerMatch (GameMode currentPlayer) in
        let key := queueKey (Region currentPlayer) (GameMode currentPlayer) in
        let limit := Int64.wrap (playersPerMatch * 2) in
        let candidates :=
          Redis.range lo hi limit (Redis.members key w) in
        strs w !! playerKey playerID = Some currentPlayer ∧
        Players m = selectCandidates config playerID currentPlayer playersPerMatch
                      candidates [currentPlayer] ∧
        playersPerMatch <= len (Players m) ∧
        length outcomes = length (Players m) ∧
        trace w' = trace w ++
          [Store (CallGetPlayerByID playerID) None;
           Store (CallGetPlayersInRange key lo hi limit) None] ++
          match_events m err outcomes ++
          [Log Info "Match found"
             [("match_id", MatchID m);
              ("players_count", pretty (len (Players m)))]] ∧
        saved w' = match err with None => m :: saved w | Some _ => saved w end
  end.
Proof.
  unfold assemble. unfold bind at 1. intros H.
  destruct (GetPlayerByID playerID w) as [r1 w1] eqn:H1.
  apply GetPlayerByID_inv in H1 as (Hst1 & _ & e1 & Ht1 & Hr1).
  destruct r1 as [currentPlayer | e]; cycle 1.
  { unfold ret in H. simplify_eq. split; [done |].
    eexists. split; [exact Ht1 |]. by repeat constructor. }
  destruct Hr1 as [-> Hcur].
  unfold bind at 1 in H.
  destruct (time_Now w1) as [now w2] eqn:H2.
  apply time_Now_inv in H2 as (Hst2 & _ & Ht2).
  unfold bind at 1 in H.
  match type of H with
  | context [GetPlayersInRange ?a ?b ?lo ?hi ?lim w2] =>
      destruct (GetPlayersInRange a b lo hi lim w2) as [r3 w3] eqn:H3;
      apply GetPlayersInRange_inv in H3 as (Hst3 & _ & e3 & Ht3 & Hr3)
  end.
  assert (same_store w w3) as Hst.
  { unfold same_store in *. intuition congruence. }
  destruct r3 as [candidates | e]; cycle 1.
  { unfold ret in H. simplify_eq. split; [done |].
    eexists. split; [by rewrite Ht3, Ht2, Ht1, <- app_assoc |].
    by repeat constructor. }
  destruct Hr3 as [-> ->].
  assert (Redis.members (queueKey (Region currentPlayer) (GameMode currentPlayer)) w2
          = Redis.members (queueKey (Region currentPlayer) (GameMode currentPlayer)) w)
    as Hmem.
  { unfold Redis.members. destruct Hst1 as (E1 & _), Hst2 as (E2 & _).
    by rewrite E2, E1. }
  rewrite Hmem in H.
  match type of H with
  | context [selectCandidates config playerID currentPlayer ?ppm ?cands ?acc] =>
      set (matchPlayers := selectCandidates config playerID currentPlayer ppm cands acc)
        in *
  end.
  destruct (Z.leb_spec (GetPlayersPerMatch (GameMode currentPlayer)) (len matchPlayers))
    as [Hfull | Hshort]; cycle 1.
  { unfold ret in H. simplify_eq. split; [done |].
    eexists. split; [by rewrite Ht3, Ht2, Ht1, <- app_assoc |].
    by repeat constructor. }
  unfold bind at 1 in H.
  destruct (createMatch matchPlayers w3) as [m w4] eqn:H4.
  apply createMatch_inv in H4 as (Hpl & err & outcomes & Hlen & Ht4 & Hs4).
  munfold. simplify_eq.
  eexists currentPlayer, _, _, err, outcomes. cbv zeta.
  split; [done |]. split; [exact Hpl |].
  split; [by rewrite Hpl |]. split; [by rewrite Hpl |]. split.
  - change (trace (set_trace ?t _)) with t.
    rewrite Ht4, Ht3, Ht2, Ht1, <- !app_assoc, Hpl. reflexivity.
  - destruct Hst as (_ & _ & <-). exact Hs4.
Qed.

Lemma FindMatch_inv config playerID w r w' :
  FindMatch config playerID w = (r, w') →
  match r with
  | Err _ =>
      same_store w w' ∧ ∃ evs, trace w' = trace w ++ evs ∧ Forall read_only evs
  | Ok m =>
      (find (contains playerID) (saved w) = Some m ∧
       same_store w w' ∧ faults w' = tail (faults w) ∧
       trace w' = trace w ++
         [Store (CallGetMatchByPlayerID playerID) None;
          Log Info "Returning saved match"
            [("match_id", MatchID m); ("player_id", playerID)]])
      ∨
      (∃ currentPlayer lo hi lookup err outcomes,
         let playersPerMatch := GetPlayersPerMatch (GameMode currentPlayer) in
         let key := queueKey (Region currentPlayer) (GameMode currentPlayer) in
         let limit := Int64.wrap (playersPerMatch * 2) in
         let candidates :=
           Redis.range lo hi limit (Redis.members key w) in
         strs w !! playerKey playerID = Some currentPlayer ∧
         Players m = selectCandidates config playerID currentPlayer playersPerMatch
                       candidates [currentPlayer] ∧
         playersPerMatch <= len (Players m) ∧
         length outcomes = length (Players m) ∧
         trace w' = trace w ++
           [Store (CallGetMatchByPlayerID playerID) lookup;
            Store (CallGetPlayerByID playerID) None;
            Store (CallGetPlayersInRange key lo hi limit) None] ++
           match_events m err outcomes ++
           [Log Info "Match found"
              [("match_id", MatchID m);
               ("players_count", pretty (len (Players m)))]] ∧
         saved w' = match err with None => m :: saved w | Some _ => saved w end)
  end.
Proof.
  rewrite FindMatch_unfold. unfold bind at 1. intros H.
  destruct (GetMatchByPlayerID playerID w) as [r0 w0] eqn:H0.
  apply GetMatchByPlayerID_inv in H0 as (Hst0 & Hf0 & lookup & Ht0 & Hr0).
  assert (assemble config playerID w0 = (r, w') →
          match r with
          | Err _ =>
              same_store w w' ∧
              ∃ evs, trace w' = trace w ++ evs ∧ Forall read_only evs
          | Ok m =>
              ∃ currentPlayer lo hi lookup err outcomes,
                let playersPerMatch := GetPlayersPerMatch (GameMode currentPlayer) in
                let key := queueKey (Region currentPlayer) (GameMode currentPlayer) in
                let limit := Int64.wrap (playersPerMatch * 2) in
                let candidates :=
                  Redis.range lo hi limit (Redis.members key w) in
                strs w !! playerKey playerID = Some currentPlayer ∧
                Players m = selectCandidates config playerID currentPlayer
                              playersPerMatch candidates [currentPlayer] ∧
                playersPerMatch <= len (Players m) ∧
                length outcomes = length (Players m) ∧
                trace w' = trace w ++
                  [Store (CallGetMatchByPlayerID playerID) lookup;
                   Store (CallGetPlayerByID playerID) None;
                   Store (CallGetPlayersInRange key lo hi limit) None] ++
                  match_events m err outcomes ++
                  [Log Info "Match found"
                     [("match_id", MatchID m);
                      ("players_count", pretty (len (Players m)))]] ∧
                saved w' = match err with None => m :: saved w | Some _ => saved w end
          end) as Hfresh.
  { intros Ha. apply assemble_inv in Ha.
    destruct Hst0 as (Hz0 & Hs0 & Hsv0).
    destruct r as [m | e].
    - destruct Ha as (cur & lo & hi & err & outs & Hcur & Hpl & Hfull & Hlen & Ht & Hs).
      exists cur, lo, hi, lookup, err, outs. cbn.
      unfold Redis.members in *. rewrite Hz0, Hs0 in *.
      repeat split; try done.
      + rewrite Ht, Ht0, <- app_assoc. done.
      + by rewrite Hs, Hsv0.
    - destruct Ha as ((Hz & Hs & Hsv) & evs & Ht & Hro).
      split; [unfold same_store; intuition congruence |].
      eexists. split; [by rewrite Ht, Ht0, <- app_assoc |].
      by constructor. }
  destruct r0 as [[savedMatch |] | e]; [| done | by destruct r; auto].
  destruct Hr0 as [-> Hfind]. munfold. simplify_eq. left.
  destruct Hst0 as (? & ? & ?). cbn.
  repeat split; try done. by rewrite Ht0, <- app_assoc.
Qed.

(** ** [ProcessQueue], group by group *)

Lemma group_formed_mono playersPerMatch players w1 w' g :
  (∀ m0, m0 ∈ saved w1 → m0 ∈ saved w') →
  group_formed playersPerMatch players w1 g →
  group_formed playersPerMatch players w' g.
Proof.
  destruct g as [[m err] outcomes]. unfold group_formed.
  intros Hmono (? & ? & ? & ? & Hsaved). repeat split; try done.
  intros Herr. by apply Hmono, Hsaved.
Qed.

Lemma formGroups_inv config region gameMode playersPerMatch players anchors used w w' :
  1 <= playersPerMatch →
  Forall (λ p, p ∈ players) anchors →
  formGroups config region gameMode playersPerMatch players anchors used w = (tt, w') →
  ∃ gs,
    trace w' = trace w ++ concat (group_events region gameMode <$> gs) ∧
    Forall (group_formed playersPerMatch players w') gs ∧
    (∀ m0, m0 ∈ saved w → m0 ∈ saved w').
Proof.
  intros Hppm Hanchors. revert used w.
  induction anchors as [| pi anchors IH]; intros used w; cbn [formGroups].
  - unfold ret. intros ?; simplify_eq. exists []. cbn. by rewrite app_nil_r.
  - apply Forall_cons in Hanchors as [Hpi Hanchors].
    specialize (IH Hanchors).
    destruct (is_used used (ID pi)); [by apply IH |].
    destruct (fillGroup config playersPerMatch players [pi] (<[ID pi:=true]> used))
      as [group used'] eqn:Hfill.
    apply fillGroup_shape in Hfill as (added & -> & Hadded & Hle);
      [| unfold len; cbn; lia].
    cbn [app] in *.
    destruct (Z.leb_spec playersPerMatch (len (pi :: added))) as [Hfull | Hshort];
      [| by apply IH].
    unfold bind at 1.
    destruct (createMatch (pi :: added) w) as [m w1] eqn:Hcreate.
    pose proof (λ m0, createMatch_saved_mono _ _ _ _ m0 Hcreate) as Hmono1.
    apply createMatch_inv in Hcreate as (Hpl & err & outcomes & Hlen & Ht1 & Hs1).
    unfold bind at 1, logger, emit, modify.
    intros Hrest. apply IH in Hrest as (gs & Ht & Hgs & Hmono).
    cbn [saved trace set_trace] in *.
    exists ((m, err, outcomes) :: gs). split; [| split].
    + rewrite Ht, Ht1. cbn [fmap list_fmap concat group_events].
      by rewrite <- !app_assoc.
    + constructor; [| done]. unfold group_formed. rewrite Hpl.
      split; [lia |]. split.
      { apply compatible_same_party with (config := config).
        eapply Forall_impl; [exact Hadded |]. by intros p (_ & ?). }
      split.
      { constructor; [done |].
        eapply Forall_impl; [exact Hadded |]. by intros p (? & _). }
      split; [done |].
      intros ->. apply Hmono. rewrite Hs1. by left.
    + intros m0 Hm0. by apply Hmono, Hmono1.
Qed.

Lemma GetPlayersPerMatch_values gameMode :
  GetPlayersPerMatch gameMode = 2 ∨ GetPlayersPerMatch gameMode = 6.
Proof. unfold GetPlayersPerMatch. repeat case_match; auto. Qed.

Lemma ProcessQueue_inv config region gameMode w r w' :
  ProcessQueue config region gameMode w = (r, w') →
  let key := queueKey region gameMode in
  let players :=
    Redis.range 0 Int64.max_int 100 (Redis.members key w) in
  (∃ e, r = Some (Errorf "failed to get players" e) ∧ same_store w w' ∧
        trace w' = trace w ++ [Store (CallGetPlayersInRange key 0 Int64.max_int 100)
                                 (Some e)])
  ∨
  (r = None ∧
   ∃ gs,
     trace w' = trace w ++
       Store (CallGetPlayersInRange key 0 Int64.max_int 100) None ::
       concat (group_events region gameMode <$> gs) ∧
     Forall (group_formed (GetPlayersPerMatch gameMode) players w') gs ∧
     (∀ m0, m0 ∈ saved w → m0 ∈ saved w') ∧
     (len players < GetPlayersPerMatch gameMode → gs = [] ∧ same_store w w')).
Proof.
  unfold ProcessQueue. unfold bind at 1. intros H.
  destruct (GetPlayersInRange region gameMode 0 Int64.max_int 100 w)
    as [r1 w1] eqn:H1.
  pose proof H1 as H1'.
  apply GetPlayersInRange_inv in H1 as (Hst1 & _ & e1 & Ht1 & Hr1).
  destruct r1 as [players | e]; cycle 1.
  { left. unfold ret in H. simplify_eq.
    (* the recorded error is the returned one *)
    unfold GetPlayersInRange, Redis.ZRangeByScore in H1'. munfold.
    repeat case_match; simplify_eq. cbn in *.
    eexists. split; [done |]. split; [done |]. done. }
  right. destruct Hr1 as [-> ->].
  set (players := Redis.range _ _ _ _) in *.
  destruct (Z.ltb_spec (len players) (GetPlayersPerMatch gameMode)) as [Hfew | Hmany].
  - unfold ret in H. simplify_eq. split; [done |].
    destruct Hst1 as (Hz & Hs & Hsv).
    exists []. cbn. repeat split; try done.
    by rewrite Hsv.
  - unfold bind at 1 in H.
    destruct (formGroups config region gameMode (GetPlayersPerMatch gameMode)
                players players ∅ w1) as [[] w2] eqn:H2.
    unfold ret in H. simplify_eq. split; [done |].
    apply formGroups_inv in H2 as (gs & Ht & Hgs & Hmono).
    + exists gs. split; [by rewrite Ht, Ht1, <- app_assoc |].
      split; [done |]. split.
      * intros m0 Hm0. apply Hmono. destruct Hst1 as (_ & _ & ->). done.
      * intros Hfew. lia.
    + destruct (GetPlayersPerMatch_values gameMode); lia.
    + apply Forall_forall. auto.
Qed.

(** ** Size and party of the groups (C4) *)

Lemma elem_of_concat {A} (x : A) (ls : list (list A)) :
  x ∈ concat ls ↔ ∃ l, x ∈ l ∧ l ∈ ls.
Proof.
  induction ls as [| l ls IH]; cbn.
  - split; [by intros ?%elem_of_nil | by intros (? & _ & ?%elem_of_nil)].
  - rewrite elem_of_app, IH. split.
    + intros [? | (l' & ? & ?)]; [exists l | exists l']; split; try done;
        [by left | by right].
    + intros (l' & Hx & [-> | ?]%elem_of_cons); [by left | right; eauto].
Qed.

(** The only save in the events of a match is the save of that match. *)
Lemma save_in_match_events m' serr m err outcomes :
  Store (CallSaveMatch m') serr ∈ match_events m err outcomes →
  m' = m ∧ serr = err.
Proof.
  unfold match_events, save_events. rewrite elem_of_app, elem_of_cons.
  intros [[? | Hin] | Hin]; [by simplify_eq | |].
  - destruct err; [apply list_elem_of_singleton in Hin | apply elem_of_nil in Hin];
      done.
  - apply elem_of_concat in Hin as (evs & Hin & Hevs).
    apply elem_of_lookup_zip_with in Hevs as (i & p & o & -> & _ & _).
    destruct o; cbn in Hin; repeat (apply elem_of_cons in Hin as [? | Hin]; [done |]);
      by apply elem_of_nil in Hin.
Qed.

Lemma save_in_group_events region gameMode m' serr g :
  Store (CallSaveMatch m') serr ∈ group_events region gameMode g →
  ∃ outcomes, g = (m', serr, outcomes).
Proof.
  destruct g as [[m err] outcomes]. unfold group_events. rewrite elem_of_app.
  intros [Hin | Hin].
  - apply save_in_match_events in Hin as [-> ->]. eauto.
  - by apply list_elem_of_singleton in Hin.
Qed.

Lemma GetPlayersPerMatch_default gameMode :
  gameMode ≠ "1v1" → GetPlayersPerMatch gameMode = 6.
Proof.
  intros Hne. unfold GetPlayersPerMatch.
  destruct (String.eqb_spec gameMode "1v1"); [done |]. by case_match.
Qed.

Lemma fetched_in_partition lo hi count key w p :
  p ∈ Redis.range lo hi count (Redis.members key w) →
  p ∈ Redis.members key w.
Proof. intros Hp. by apply range_elem in Hp as [? _]. Qed.

Lemma FindMatch_fresh_group config playerID w m :
  (FindMatch config playerID w).1 = Ok m →
  find (contains playerID) (saved w) = Some m ∨
  ∃ currentPlayer others,
    strs w !! playerKey playerID = Some currentPlayer ∧
    Players m = currentPlayer :: others ∧
    len (Players m) = GetPlayersPerMatch (GameMode currentPlayer) ∧
    Forall (λ c, isCompatible config currentPlayer c = true ∧ ID c ≠ playerID ∧
                 c ∈ Redis.members
                       (queueKey (Region currentPlayer) (GameMode currentPlayer)) w)
      others.
Proof.
  destruct (FindMatch config playerID w) as [r w'] eqn:H. cbn. intros ->.
  apply FindMatch_inv in H as [(Hfind & _) | Hnew].
  - by left.
  - right.
    destruct Hnew as (cur & lo & hi & lookup & err & outs & Hcur & Hpl & Hfull & _).
    exists cur.
    destruct (selectCandidates_shape config playerID cur
                (GetPlayersPerMatch (GameMode cur))
                (Redis.range lo hi
                   (Int64.wrap (GetPlayersPerMatch (GameMode cur) * 2))
                   (Redis.members (queueKey (Region cur) (GameMode cur)) w))
                [cur]) as (accepted & Hsel & Hall & Hle).
    rewrite Hsel in Hpl. exists accepted. split; [done |]. split; [done |]. split.
    + rewrite Hpl in Hfull |- *.
      assert (len [cur] < GetPlayersPerMatch (GameMode cur)) as Hone
        by (unfold len; cbn; destruct (GetPlayersPerMatch_values (GameMode cur)); lia).
      specialize (Hle Hone). cbn [app] in *. lia.
    + eapply Forall_impl; [exact Hall |]. cbn. intros c (Hc & Hid & Hcompat).
      repeat split; try done. by eapply fetched_in_partition.
Qed.

(** C4: the group size is 2 for "1v1" and 6 for "3v3" and for any other
    mode; a match that [FindMatch] returns is either one that was already
    persisted or a new group that starts with the requesting player and
    has exactly [GetPlayersPerMatch] players of that player's mode (2 or
    6), every one of them of the requesting player's region and mode;
    every match that [ProcessQueue] builds (and hands to [SaveMatch]) has
    exactly [GetPlayersPerMatch gameMode] players, all of one region and
    one mode, which are the region and mode of the call when the sorted
    set holds only players of its own partition. *)
Theorem matches_full_and_single_party config :
  (GetPlayersPerMatch "1v1" = 2 ∧ GetPlayersPerMatch "3v3" = 6 ∧
   ∀ gameMode, gameMode ≠ "1v1" → GetPlayersPerMatch gameMode = 6) ∧
  (∀ playerID w m,
     (FindMatch config playerID w).1 = Ok m →
     m ∈ saved w ∨
     (∃ currentPlayer,
        strs w !! playerKey playerID = Some currentPlayer ∧
        head (Players m) = Some currentPlayer ∧
        len (Players m) = GetPlayersPerMatch (GameMode currentPlayer) ∧
        (len (Players m) = 2 ∨ len (Players m) = 6) ∧
        Forall (λ p, Region p = Region currentPlayer ∧
                     GameMode p = GameMode currentPlayer) (Players m) ∧
        (∀ p, p ∈ Players m → len (Players m) = GetPlayersPerMatch (GameMode p)) ∧
        same_party (Players m))) ∧
  (∀ region gameMode w m err,
     Store (CallSaveMatch m) err
       ∈ events_since w (ProcessQueue config region gameMode w).2 →
     len (Players m) = GetPlayersPerMatch gameMode ∧
     same_party (Players m) ∧
     ((∀ p, p ∈ Redis.members (queueKey region gameMode) w →
            Region p = region ∧ GameMode p = gameMode) →
      ∀ p, p ∈ Players m → Region p = region ∧ GameMode p = gameMode)).
Proof.
  split; [| split].
  - split; [done |]. split; [done |]. apply GetPlayersPerMatch_default.
  - intros playerID w m Hm.
    apply FindMatch_fresh_group in Hm
      as [Hfind | (cur & others & Hcur & Hpl & Hlen & Hall)]; [left | right].
    { apply find_some in Hfind as [Hin _]. by apply list_elem_of_In. }
    assert (Forall (λ c, isCompatible config cur c = true) others) as Hcompat.
    { eapply Forall_impl; [exact Hall |]. by intros c (? & _). }
    assert (Forall (λ p, Region p = Region cur ∧ GameMode p = GameMode cur)
              (Players m)) as Hsame.
    { rewrite Hpl. constructor; [done |].
      eapply Forall_impl; [exact Hcompat |]. cbn. intros c Hc.
      by apply isCompatible_true in Hc as (-> & -> & _). }
    exists cur. split; [done |]. split; [by rewrite Hpl |]. split; [done |].
    split; [rewrite Hlen; apply GetPlayersPerMatch_values |].
    split; [done |]. split.
    + intros p Hp. rewrite Hlen.
      rewrite Forall_forall in Hsame. by destruct (Hsame p Hp) as [_ ->].
    + rewrite Hpl. by eapply compatible_same_party.
  - intros region gameMode w m err Hin.
    destruct (ProcessQueue config region gameMode w) as [r w'] eqn:H. cbn in Hin.
    apply ProcessQueue_inv in H as [(e & _ & _ & Ht) | (_ & gs & Ht & Hgs & _)];
      rewrite (events_since_app _ _ _ Ht) in Hin.
    { apply list_elem_of_singleton in Hin. done. }
    apply elem_of_cons in Hin as [Hin | Hin]; [done |].
    apply elem_of_concat in Hin as (evs & Hin & Hevs).
    apply list_elem_of_fmap in Hevs as (g & -> & Hg).
    rewrite Forall_forall in Hgs. specialize (Hgs g Hg).
    apply save_in_group_events in Hin as (outcomes & ->).
    destruct Hgs as (Hlen & Hparty & Hfrom & _).
    split; [done |]. split; [done |].
    intros Hkeyed p Hp. apply Hkeyed.
    rewrite Forall_forall in Hfrom. specialize (Hfrom p Hp).
    by eapply fetched_in_partition.
Qed.

Lemma matches_full_and_single_party_witness :
  let found := {| MatchID := "match_1000000001";
                  Players := [duel_p; duel_q];
                  CreatedAt := 1000000002 |} in
  let formed := {| MatchID := "match_1000000000";
                   Players := [duel_p; duel_q];
                   CreatedAt := 1000000001 |} in
  (len (Players found) = GetPlayersPerMatch "1v1" ∧ same_party (Players found)) ∧
  (len (Players formed) = 2 ∧ same_party (Players formed)).
Proof.
  intros found formed.
  destruct (matches_full_and_single_party DefaultMatcherConfig)
    as (_ & Hfind & Hprocess).
  split.
  - destruct (Hfind "p" (duel_world []) found)
      as [Hsaved | (cur & Hcur & _ & Hlen & _ & _ & _ & Hparty)].
    + reflexivity.
    + by apply elem_of_nil in Hsaved.
    + split; [| done]. vm_compute in Hcur. by simplify_eq.
  - destruct (Hprocess "EU" "1v1" (duel_world []) formed None)
      as (Hlen & Hparty & _).
    + vm_compute. right. left.
    + done.
Defined.

(** ** The requesting player and the returned records (C10) *)

(** C10: when no saved match exists for the player and [FindMatch]
    succeeds, the first element of [Players] is the record the store holds
    for the requesting player and every other element is a record of the
    player's partition, as the store held them when the call started.
    [Players] carries the records by value, so they stay in the match after
    the call has removed the queue entries. *)
Theorem FindMatch_requester_first config playerID w m :
  find (contains playerID) (saved w) = None →
  (FindMatch config playerID w).1 = Ok m →
  ∃ currentPlayer others,
    strs w !! playerKey playerID = Some currentPlayer ∧
    Players m = currentPlayer :: others ∧
    head (Players m) = Some currentPlayer ∧
    Forall (λ c, c ∈ Redis.members
                       (queueKey (Region currentPlayer) (GameMode currentPlayer)) w)
      others.
Proof.
  intros Hnone Hm.
  apply FindMatch_fresh_group in Hm
    as [Hfind | (cur & others & Hcur & Hpl & _ & Hall)]; [congruence |].
  exists cur, others. rewrite Hpl. repeat split; try done.
  eapply Forall_impl; [exact Hall |]. by intros c (_ & _ & ?).
Qed.

(** In the duel scenario the call returns both records although it has
    emptied the queue and deleted both player keys. *)
Lemma FindMatch_requester_first_witness :
  let run := FindMatch DefaultMatcherConfig "p" (duel_world []) in
  (∃ m, run.1 = Ok m ∧ head (Players m) = Some duel_p) ∧
  Redis.members (queueKey "EU" "1v1") run.2 = [] ∧
  strs run.2 !! playerKey "p" = None ∧
  strs run.2 !! playerKey "q" = None.
Proof.
  intros run. split; [| by vm_compute].
  exists {| MatchID := "match_1000000001";
            Players := [duel_p; duel_q];
            CreatedAt := 1000000002 |}.
  split; [reflexivity |].
  destruct (FindMatch_requester_first DefaultMatcherConfig "p" (duel_world [])
              {| MatchID := "match_1000000001";
                 Players := [duel_p; duel_q];
                 CreatedAt := 1000000002 |})
    as (cur & others & Hcur & _ & Hhead & _); [reflexivity | reflexivity |].
  rewrite Hhead. rewrite <- Hcur. reflexivity.
Defined.

(** ** Returning a saved match (C6) *)

Lemma FindMatch_saved config playerID w m :
  find (contains playerID) (saved w) = Some m → available 1 w →
  ∃ w1, FindMatch config playerID w = (Ok m, w1) ∧
        same_store w w1 ∧ faults w1 = tail (faults w) ∧
        trace w1 = trace w ++
          [Store (CallGetMatchByPlayerID playerID) None;
           Log Info "Returning saved match"
             [("match_id", MatchID m); ("player_id", playerID)]].
Proof.
  intros Hfind Hav.
  destruct (FindMatch config playerID w) as [r w1] eqn:H.
  pose proof H as Hinv. apply FindMatch_inv in Hinv.
  rewrite FindMatch_unfold in H. unfold bind at 1 in H.
  destruct (GetMatchByPlayerID_found _ _ _ Hfind Hav) as (w0 & Hget & _).
  rewrite Hget in H. munfold. simplify_eq.
  destruct Hinv as [(_ & Hst & Hf & Ht) | Hnew].
  - eexists. split; [done |]. split; [done |]. split; done.
  - exfalso. destruct Hnew as (? & ? & ? & lookup & ? & ? & _ & _ & _ & _ & Ht & _).
    cbn in Ht. apply GetMatchByPlayerID_inv in Hget as (_ & _ & e & Ht0 & _).
    rewrite Ht0, <- !app_assoc in Ht. cbn in Ht.
    apply app_inv_head in Ht. discriminate.
Qed.

Lemma available_tail n w w1 :
  available (S n) w → faults w1 = tail (faults w) → available n w1.
Proof.
  unfold available. intros Hav ->.
  destruct (faults w) as [| f fs]; cbn in *.
  - rewrite take_nil. constructor.
  - by apply Forall_cons in Hav as [_ ?].
Qed.

Lemma available_first n w : available (S n) w → available 1 w.
Proof.
  unfold available. destruct (faults w) as [| f fs]; cbn; [constructor |].
  intros [-> _]%Forall_cons. rewrite take_0. by repeat constructor.
Qed.

(** C6, as the claim states it, fails when the store does not answer the
    lookup of the persisted match: [FindMatch] ignores the error and
    searches the queue.  Here "p" and "q" have been matched and the match
    persisted; the lookup for "q" then meets a refused connection and the
    call reports that the player is not in the queue. *)
Lemma FindMatch_lookup_counterexample :
  let m := {| MatchID := "match_1000000001";
              Players := [duel_p; duel_q];
              CreatedAt := 1000000002 |} in
  let placed :=
    FindMatch DefaultMatcherConfig "p"
      (duel_world (replicate 10 None ++ [Some "connection refused"])) in
  placed.1 = Ok m ∧
  find (contains "q") (saved placed.2) = Some m ∧
  (FindMatch DefaultMatcherConfig "q" placed.2).1
  = Err "player not found in queue: player not found".
Proof. by vm_compute. Qed.

(** C6 (amended): for a player placed in a persisted match [m] (the match
    the store finds for the player), with a store that answers the two
    lookups, two successive calls of [FindMatch] both return [m]; the
    queue, the player keys and the persisted matches are as before the
    calls, and the calls issue no save and no removal. *)
Theorem FindMatch_idempotent config playerID w m :
  find (contains playerID) (saved w) = Some m → available 2 w →
  let first := FindMatch config playerID w in
  let second := FindMatch config playerID first.2 in
  first.1 = Ok m ∧ second.1 = Ok m ∧
  same_store w first.2 ∧ same_store w second.2 ∧
  Forall read_only (events_since w second.2).
Proof.
  intros Hfind Hav first second.
  destruct (FindMatch_saved config playerID w m Hfind (available_first _ _ Hav))
    as (w1 & H1 & Hst1 & Hf1 & Ht1).
  assert (first = (Ok m, w1)) as -> by exact H1. cbn in second.
  assert (find (contains playerID) (saved w1) = Some m) as Hfind1.
  { destruct Hst1 as (_ & _ & ->). done. }
  destruct (FindMatch_saved config playerID w1 m Hfind1 (available_tail _ _ _ Hav Hf1))
    as (w2 & H2 & Hst2 & Hf2 & Ht2).
  assert (second = (Ok m, w2)) as -> by exact H2. cbn.
  split; [done |]. split; [done |]. split; [done |]. split.
  - unfold same_store in *. intuition congruence.
  - rewrite Ht1, <- app_assoc in Ht2.
    rewrite (events_since_app _ _ _ Ht2). by repeat constructor.
Qed.

(** After [FindMatch] for "p" has matched the two duel players, the other
    player asks twice and gets that match twice. *)
Lemma FindMatch_idempotent_witness :
  let m := {| MatchID := "match_1000000001";
              Players := [duel_p; duel_q];
              CreatedAt := 1000000002 |} in
  let w := (FindMatch DefaultMatcherConfig "p" (duel_world [])).2 in
  (FindMatch DefaultMatcherConfig "q" w).1 = Ok m ∧
  (FindMatch DefaultMatcherConfig "q" (FindMatch DefaultMatcherConfig "q" w).2).1 = Ok m ∧
  saved (FindMatch DefaultMatcherConfig "q" (FindMatch DefaultMatcherConfig "q" w).2).2
  = [m].
Proof.
  intros m w.
  destruct (FindMatch_idempotent DefaultMatcherConfig "q" w m)
    as (Hfirst & Hsecond & _ & (_ & _ & Hsaved) & _).
  - reflexivity.
  - unfold available. vm_compute. constructor.
  - split; [exact Hfirst |]. split; [exact Hsecond |]. rewrite Hsaved. reflexivity.
Defined.

(** ** The window and the acceptance of candidates (C1) *)

(** Whatever the wait, a member of a new group is within [MaxRatingDiff] of
    the requesting player: the window only bounds the fetch. *)
Lemma FindMatch_members_within_base config playerID w m :
  find (contains playerID) (saved w) = None →
  (FindMatch config playerID w).1 = Ok m →
  ∃ currentPlayer others,
    Players m = currentPlayer :: others ∧
    Forall (λ c, ratingDiff currentPlayer c <= MaxRatingDiff config) others.
Proof.
  intros Hnone Hm.
  apply FindMatch_fresh_group in Hm
    as [Hfind | (cur & others & _ & Hpl & _ & Hall)]; [congruence |].
  exists cur, others. split; [done |].
  eapply Forall_impl; [exact Hall |]. cbn. intros c (Hc & _).
  by apply isCompatible_true in Hc as (_ & _ & ?).
Qed.

(** C1, the code on the scenario: after 61 s the window is 300 and the
    fetch covers [1200, 1800], so the candidate 310 points above is not
    fetched and the one 290 points above is; but [isCompatible] compares
    with the base difference 200, the candidate at +290 is not accepted,
    the group stays at five and no match is found. *)
Theorem FindMatch_window_scenario :
  let run := FindMatch DefaultMatcherConfig "p" lone_world in
  calculateRatingRange DefaultMatcherConfig
    (time_Sub (61 * Second) (JoinedAt lone_p)) = 300 ∧
  trace run.2
  = [Store (CallGetMatchByPlayerID "p") (Some "match not found");
     Store (CallGetPlayerByID "p") None;
     Store (CallGetPlayersInRange "queue:EU:3v3" 1200 1800 12) None] ∧
  (GetPlayersInRange "EU" "3v3" 1200 1800 12 lone_world).1
  = Ok [lone_p; lone_a; lone_b; lone_c; lone_d; lone_near] ∧
  isCompatible DefaultMatcherConfig lone_p lone_near = false ∧
  selectCandidates DefaultMatcherConfig "p" lone_p 6
    [lone_p; lone_a; lone_b; lone_c; lone_d; lone_near] [lone_p]
  = [lone_p; lone_a; lone_b; lone_c; lone_d] ∧
  run.1 = Err "no suitable match found".
Proof. by vm_compute. Qed.

(** ** The fetch of [ProcessQueue] (C8) *)

(** C8, the code on a partition of two compatible 1v1 players, one rated
    -5: the fetch asks for ratings from 0 up, returns only the other
    player, and the call ends without error and without a match. *)
Theorem ProcessQueue_negative_rating_scenario :
  let run := ProcessQueue DefaultMatcherConfig "EU" "1v1" negative_world in
  Redis.members (queueKey "EU" "1v1") negative_world = [below_zero; above_zero] ∧
  isCompatible DefaultMatcherConfig below_zero above_zero = true ∧
  (GetPlayersInRange "EU" "1v1" 0 Int64.max_int 100 negative_world).1
  = Ok [above_zero] ∧
  run.1 = None ∧
  trace run.2
  = [Store (CallGetPlayersInRange "queue:EU:1v1" 0 Int64.max_int 100) None] ∧
  Redis.members (queueKey "EU" "1v1") run.2 = [below_zero; above_zero].
Proof. by vm_compute. Qed.

(** Players rated zero or more are all fetched when the partition holds at
    most a hundred of them, and a partition with fewer players than a
    match needs ends the call without error, without a match and with the
    store as it was. *)
Lemma ProcessQueue_fetch config region gameMode w :
  available 1 w →
  let key := queueKey region gameMode in
  let run := ProcessQueue config region gameMode w in
  (∃ players,
     (GetPlayersInRange region gameMode 0 Int64.max_int 100 w).1 = Ok players ∧
     ((length (Redis.members key w) <= 100)%nat →
      ∀ p, p ∈ Redis.members key w → 0 <= Rating p <= Int64.max_int →
           p ∈ players)) ∧
  (len (Redis.members key w) < GetPlayersPerMatch gameMode →
   run.1 = None ∧ same_store w run.2).
Proof.
  intros Hav key run.
  assert (mjoin (head (faults w)) = None) as Hnofault.
  { unfold available in Hav. destruct (faults w) as [| f fs]; [done |].
    by apply Forall_cons in Hav as [-> _]. }
  set (players := Redis.range 0 Int64.max_int 100 (Redis.members key w)).
  assert (GetPlayersInRange region gameMode 0 Int64.max_int 100 w
          = (Ok players, (GetPlayersInRange region gameMode 0 Int64.max_int 100 w).2))
    as Hfetch.
  { unfold GetPlayersInRange, Redis.ZRangeByScore. munfold.
    destruct (faults w) as [| f fs]; cbn in *; [done |].
    by rewrite Hnofault. }
  split.
  - exists players. split; [by rewrite Hfetch |].
    intros Hsize p Hp Hrating. subst players.
    rewrite range_positive by done. rewrite take_ge.
    + apply list_elem_of_filter. split; [by apply within_rating | done].
    + etrans; [apply length_filter | done].
  - intros Hfew. subst run.
    destruct (ProcessQueue config region gameMode w) as [r w'] eqn:H. cbn.
    pose proof H as Hinv.
    apply ProcessQueue_inv in Hinv as [(e & -> & _ & _) | (-> & gs & _ & _ & _ & Hnone)].
    + exfalso. unfold ProcessQueue in H. unfold bind at 1 in H.
      rewrite Hfetch in H. destruct (len players <? _); munfold; simplify_eq.
      destruct (formGroups _ _ _ _ _ _ _ _) in H. simplify_eq.
    + split; [done |]. apply Hnone.
      assert (length players <= length (Redis.members key w))%nat.
      { subst players. apply sublist_length, range_sublist. }
      fold key players. unfold len in *. lia.
Qed.

(** ** Saves, removals and their failures (C2, C5) *)

Lemma removals_follow_save_app persisted evs1 evs2 :
  removals_follow_save persisted evs1 →
  removals_follow_save persisted evs2 →
  removals_follow_save persisted (evs1 ++ evs2).
Proof.
  intros H1 H2 i playerID rerr Hi.
  apply lookup_app_Some in Hi as [Hi | [Hge Hi]].
  - destruct (H1 _ _ _ Hi) as (j & m & serr & Hlt & Hj & Hin & Hp & Hwarn).
    exists j, m, serr. repeat split; try done.
    + by apply lookup_app_l_Some.
    + intros e He. apply elem_of_app. left. by apply Hwarn.
  - destruct (H2 _ _ _ Hi) as (j & m & serr & Hlt & Hj & Hin & Hp & Hwarn).
    exists (length evs1 + j)%nat, m, serr. repeat split; try done.
    + lia.
    + rewrite lookup_app_r by lia. rewrite <- Hj. f_equal. lia.
    + intros e He. apply elem_of_app. right. by apply Hwarn.
Qed.

Lemma removals_follow_save_read_only persisted evs :
  Forall read_only evs → removals_follow_save persisted evs.
Proof.
  intros Hro i playerID rerr Hi. exfalso.
  rewrite Forall_forall in Hro. apply list_elem_of_lookup_2, Hro in Hi. done.
Qed.

Lemma removal_in_events players outcomes playerID rerr :
  Store (CallRemovePlayerFromQueue playerID) rerr
    ∈ concat (zip_with removal_events players outcomes) →
  playerID ∈ ID <$> players ∧
  ∀ e, rerr = Some e →
       Log Warn "Failed to remove player from queue"
         [("player_id", playerID); ("error", e)]
         ∈ concat (zip_with removal_events players outcomes).
Proof.
  intros Hin. apply elem_of_concat in Hin as (evs & Hin & Hevs).
  pose proof Hevs as Hzip.
  apply elem_of_lookup_zip_with in Hzip as (i & p & o & -> & Hp & _).
  assert (playerID = ID p ∧ rerr = o) as [-> ->].
  { destruct o; cbn in Hin;
      repeat (apply elem_of_cons in Hin as [? | Hin]; [by simplify_eq |]);
      by apply elem_of_nil in Hin. }
  split.
  - apply list_elem_of_fmap. exists p. split; [done |].
    by eapply list_elem_of_lookup_2.
  - intros e ->. apply elem_of_concat. eexists. split; [| exact Hevs].
    cbn. right. left.
Qed.

Lemma removals_follow_save_match (persisted : Match → Prop) m err outcomes :
  (err = None → persisted m) →
  removals_follow_save persisted (match_events m err outcomes).
Proof.
  intros Hp i playerID rerr Hi. unfold match_events in *.
  assert (Store (CallRemovePlayerFromQueue playerID) rerr
            ∈ concat (zip_with removal_events (Players m) outcomes) ∧ (0 < i)%nat)
    as [Hin Hpos].
  { apply lookup_app_Some in Hi as [Hi | [Hge Hi]].
    - exfalso. unfold save_events in Hi.
      destruct i as [| [| i]], err; cbn in Hi; simplify_eq.
    - split; [by eapply list_elem_of_lookup_2 |].
      unfold save_events in Hge. cbn in Hge. lia. }
  apply removal_in_events in Hin as [Hid Hwarn].
  exists 0%nat, m, err. repeat split; try done.
  intros e He. apply elem_of_app. right. by apply Hwarn.
Qed.

Lemma removals_follow_save_groups persisted region gameMode gs :
  Forall (λ g, g.1.2 = None → persisted g.1.1) gs →
  removals_follow_save persisted (concat (group_events region gameMode <$> gs)).
Proof.
  induction 1 as [| [[m err] outcomes] gs Hg _ IH]; cbn [fmap list_fmap concat].
  - by apply removals_follow_save_read_only.
  - apply removals_follow_save_app; [| exact IH].
    unfold group_events. apply removals_follow_save_app.
    + by apply removals_follow_save_match.
    + apply removals_follow_save_read_only. by repeat constructor.
Qed.

(** A failed save in the events of a match: the warning is there and so is
    a removal call for every member. *)
Lemma failed_save_continues m e outcomes :
  length outcomes = length (Players m) →
  Log Warn "Failed to save match" [("match_id", MatchID m); ("error", e)]
    ∈ match_events m (Some e) outcomes ∧
  ∀ p, p ∈ Players m →
       ∃ rerr, Store (CallRemovePlayerFromQueue (ID p)) rerr
                 ∈ match_events m (Some e) outcomes.
Proof.
  intros Hlen. unfold match_events. split.
  - apply elem_of_app. left. cbn. right. left.
  - intros p Hp. apply list_elem_of_lookup_1 in Hp as [i Hi].
    destruct (outcomes !! i) as [o |] eqn:Ho; cycle 1.
    { apply lookup_ge_None in Ho. apply lookup_lt_Some in Hi. lia. }
    exists o. apply elem_of_app. right. apply elem_of_concat.
    exists (removal_events p o). split.
    + destruct o; cbn; [left | right; left].
    + eapply list_elem_of_lookup_2 with (i := i).
      rewrite lookup_zip_with, Hi. cbn. by rewrite Ho.
Qed.

Lemma FindMatch_events config playerID w :
  let run := FindMatch config playerID w in
  Forall read_only (events_since w run.2) ∨
  ∃ m pre err outcomes,
    run.1 = Ok m ∧
    events_since w run.2
    = pre ++ match_events m err outcomes ++
      [Log Info "Match found"
         [("match_id", MatchID m); ("players_count", pretty (len (Players m)))]] ∧
    Forall read_only pre ∧
    length outcomes = length (Players m) ∧
    (err = None → m ∈ saved run.2).
Proof.
  cbn. destruct (FindMatch config playerID w) as [r w'] eqn:H. cbn.
  apply FindMatch_inv in H. destruct r as [m | e].
  - destruct H as [(_ & _ & _ & Ht) | Hnew].
    + left. rewrite (events_since_app _ _ _ Ht). by repeat constructor.
    + right.
      destruct Hnew as (cur & lo & hi & lookup & err & outs & _ & _ & _ & Hlen & Ht & Hs).
      cbv zeta in Ht. eexists m, _, err, outs. split; [done |].
      split; [exact (events_since_app _ _ _ Ht) |].
      split; [by repeat constructor |]. split; [done |].
      intros ->. rewrite Hs. by left.
  - left. destruct H as (_ & evs & Ht & Hro).
    by rewrite (events_since_app _ _ _ Ht).
Qed.

Lemma ProcessQueue_events config region gameMode w :
  let run := ProcessQueue config region gameMode w in
  Forall read_only (events_since w run.2) ∨
  ∃ fetch gs,
    run.1 = None ∧
    events_since w run.2 = fetch :: concat (group_events region gameMode <$> gs) ∧
    read_only fetch ∧
    Forall (λ g, length g.2 = length (Players g.1.1) ∧
                 (g.1.2 = None → g.1.1 ∈ saved run.2)) gs.
Proof.
  cbn. destruct (ProcessQueue config region gameMode w) as [r w'] eqn:H. cbn.
  apply ProcessQueue_inv in H as [(e & _ & _ & Ht) | (-> & gs & Ht & Hgs & _)].
  - left. rewrite (events_since_app _ _ _ Ht). by repeat constructor.
  - right. exists (Store (CallGetPlayersInRange (queueKey region gameMode)
                            0 Int64.max_int 100) None), gs.
    split; [done |]. split; [exact (events_since_app _ _ _ Ht) |].
    split; [done |].
    eapply Forall_impl; [exact Hgs |].
    intros [[m err] outs] (_ & _ & _ & ? & ?). done.
Qed.

Lemma read_only_no_save evs m serr :
  Forall read_only evs → Store (CallSaveMatch m) serr ∉ evs.
Proof.
  intros Hro Hin. rewrite Forall_forall in Hro. by apply Hro in Hin.
Qed.

(** C2, as the claim states it, fails: with the save failing in the duel
    scenario, [FindMatch] still returns the match, [ProcessQueue] still
    returns no error, nothing is persisted and both players are removed
    from the queue. *)
Lemma save_failure_counterexample :
  let m := {| MatchID := "match_1000000001";
              Players := [duel_p; duel_q];
              CreatedAt := 1000000002 |} in
  let found :=
    FindMatch DefaultMatcherConfig "p"
      (duel_world [None; None; None; Some "store unavailable"]) in
  let processed :=
    ProcessQueue DefaultMatcherConfig "EU" "1v1"
      (duel_world [None; Some "store unavailable"]) in
  (trace found.2 !! 3%nat
   = Some (Store (CallSaveMatch m) (Some "store unavailable")) ∧
   found.1 = Ok m ∧ saved found.2 = [] ∧
   Redis.members (queueKey "EU" "1v1") found.2 = [] ∧
   strs found.2 !! playerKey "p" = None ∧ strs found.2 !! playerKey "q" = None) ∧
  (processed.1 = None ∧ saved processed.2 = [] ∧
   Redis.members (queueKey "EU" "1v1") processed.2 = [] ∧
   strs processed.2 !! playerKey "p" = None ∧
   strs processed.2 !! playerKey "q" = None).
Proof. by vm_compute. Qed.

(** C2 (amended): when the save of an assembled group fails, the failure
    is logged as a warning and not propagated: [FindMatch] still returns
    the match, [ProcessQueue] still returns no error, and a removal from
    the queue is still issued for every member of the group. *)
Theorem failed_save_logged_not_propagated config :
  (∀ playerID w m e,
     let run := FindMatch config playerID w in
     let evs := events_since w run.2 in
     Store (CallSaveMatch m) (Some e) ∈ evs →
     run.1 = Ok m ∧
     Log Warn "Failed to save match" [("match_id", MatchID m); ("error", e)] ∈ evs ∧
     ∀ p, p ∈ Players m →
          ∃ rerr, Store (CallRemovePlayerFromQueue (ID p)) rerr ∈ evs) ∧
  (∀ region gameMode w m e,
     let run := ProcessQueue config region gameMode w in
     let evs := events_since w run.2 in
     Store (CallSaveMatch m) (Some e) ∈ evs →
     run.1 = None ∧
     Log Warn "Failed to save match" [("match_id", MatchID m); ("error", e)] ∈ evs ∧
     ∀ p, p ∈ Players m →
          ∃ rerr, Store (CallRemovePlayerFromQueue (ID p)) rerr ∈ evs).
Proof.
  split.
  - intros playerID w m e run evs Hin. subst run evs.
    destruct (FindMatch_events config playerID w)
      as [Hro | (m0 & pre & err & outs & Hr & Hev & Hpre & Hlen & _)].
    { by apply read_only_no_save in Hin. }
    rewrite Hev in Hin |- *.
    apply elem_of_app in Hin as [Hin | Hin];
      [by apply read_only_no_save in Hin |].
    apply elem_of_app in Hin as [Hin | Hin];
      [| by apply list_elem_of_singleton in Hin].
    apply save_in_match_events in Hin as [<- <-].
    destruct (failed_save_continues m e outs Hlen) as [Hwarn Hrem].
    split; [done |]. split.
    + apply elem_of_app. right. apply elem_of_app. by left.
    + intros p Hp. destruct (Hrem p Hp) as [rerr Hrerr]. exists rerr.
      apply elem_of_app. right. apply elem_of_app. by left.
  - intros region gameMode w m e run evs Hin. subst run evs.
    destruct (ProcessQueue_events config region gameMode w)
      as [Hro | (fetch & gs & Hr & Hev & Hfetch & Hgs)].
    { by apply read_only_no_save in Hin. }
    rewrite Hev in Hin |- *.
    apply elem_of_cons in Hin as [<- | Hin]; [done |].
    apply elem_of_concat in Hin as (gevs & Hin & Hgevs).
    pose proof Hgevs as Hg.
    apply list_elem_of_fmap in Hg as (g & -> & Hg).
    apply save_in_group_events in Hin as (outs & ->).
    rewrite Forall_forall in Hgs. destruct (Hgs _ Hg) as [Hlen _]. cbn in Hlen.
    destruct (failed_save_continues m e outs Hlen) as [Hwarn Hrem].
    assert (∀ ev, ev ∈ match_events m (Some e) outs →
                  ev ∈ fetch :: concat (group_events region gameMode <$> gs))
      as Hsub.
    { intros ev Hev'. right. apply elem_of_concat. eexists. split; [| exact Hgevs].
      unfold group_events. apply elem_of_app. by left. }
    split; [done |]. split; [by apply Hsub |].
    intros p Hp. destruct (Hrem p Hp) as [rerr Hrerr]. exists rerr. by apply Hsub.
Qed.

Lemma failed_save_logged_not_propagated_witness :
  let m := {| MatchID := "match_1000000001";
              Players := [duel_p; duel_q];
              CreatedAt := 1000000002 |} in
  let w := duel_world [None; None; None; Some "store unavailable"] in
  let run := FindMatch DefaultMatcherConfig "p" w in
  run.1 = Ok m ∧
  Log Warn "Failed to save match"
    [("match_id", MatchID m); ("error", "store unavailable")]
    ∈ events_since w run.2.
Proof.
  intros m w run.
  destruct (failed_save_logged_not_propagated DefaultMatcherConfig) as [Hfind _].
  destruct (Hfind "p" w m "store unavailable") as (Hr & Hwarn & _).
  - vm_compute. do 3 right. left.
  - split; [exact Hr | exact Hwarn].
Defined.

(** C5, as the claim states it, fails when the save fails: in the duel
    scenario [ProcessQueue] builds a match whose save fails, then removes
    both members successfully; no match is persisted before the removals,
    or ever. *)
Lemma removal_without_persistence_counterexample :
  let run :=
    ProcessQueue DefaultMatcherConfig "EU" "1v1"
      (duel_world [None; Some "store unavailable"]) in
  run.1 = None ∧
  trace run.2 !! 4%nat = Some (Store (CallRemovePlayerFromQueue "p") None) ∧
  Redis.members (queueKey "EU" "1v1") run.2 = [] ∧
  saved run.2 = [] ∧
  ¬ persisted_before_removal (trace run.2).
Proof.
  intros run. split; [by vm_compute |]. split; [by vm_compute |].
  split; [by vm_compute |]. split; [by vm_compute |].
  intros H. destruct (H 4%nat "p" None) as (j & m & Hlt & Hj & _);
    [by vm_compute |].
  revert Hj. do 4 (destruct j as [| j]; [by vm_compute |]). lia.
Qed.

(** C5 (amended): in every call of [FindMatch] and of [ProcessQueue], each
    removal from the queue is issued after the save of a match containing
    the removed player was issued; if that save succeeded the match is
    persisted (and still is when the call returns); a failed removal is
    logged as a warning; and whenever a match was handed to the store,
    whatever the outcome of the removals, [FindMatch] returns that match
    and [ProcessQueue] returns no error. *)
Theorem save_call_precedes_removals config :
  (∀ playerID w,
     let run := FindMatch config playerID w in
     let evs := events_since w run.2 in
     removals_follow_save (λ m, m ∈ saved run.2) evs ∧
     ∀ m serr, Store (CallSaveMatch m) serr ∈ evs → run.1 = Ok m) ∧
  (∀ region gameMode w,
     let run := ProcessQueue config region gameMode w in
     let evs := events_since w run.2 in
     removals_follow_save (λ m, m ∈ saved run.2) evs ∧
     ∀ m serr, Store (CallSaveMatch m) serr ∈ evs → run.1 = None).
Proof.
  split.
  - intros playerID w run evs. subst run evs.
    destruct (FindMatch_events config playerID w)
      as [Hro | (m0 & pre & err & outs & Hr & Hev & Hpre & Hlen & Hsaved)].
    { split; [by apply removals_follow_save_read_only |].
      intros m serr Hin. by apply read_only_no_save in Hin. }
    rewrite Hev. split.
    + apply removals_follow_save_app;
        [by apply removals_follow_save_read_only |].
      apply removals_follow_save_app;
        [by apply removals_follow_save_match |].
      apply removals_follow_save_read_only. by repeat constructor.
    + intros m serr Hin.
      apply elem_of_app in Hin as [Hin | Hin];
        [by apply read_only_no_save in Hin |].
      apply elem_of_app in Hin as [Hin | Hin];
        [| by apply list_elem_of_singleton in Hin].
      by apply save_in_match_events in Hin as [-> _].
  - intros region gameMode w run evs. subst run evs.
    destruct (ProcessQueue_events config region gameMode w)
      as [Hro | (fetch & gs & Hr & Hev & Hfetch & Hgs)].
    { split; [by apply removals_follow_save_read_only |].
      intros m serr Hin. by apply read_only_no_save in Hin. }
    rewrite Hev. split; [| done].
    change (fetch :: ?l) with ([fetch] ++ l).
    apply removals_follow_save_app.
    + apply removals_follow_save_read_only. by repeat constructor.
    + apply removals_follow_save_groups.
      eapply Forall_impl; [exact Hgs |]. by intros g [_ ?].
Qed.

(** In the duel scenario with the lookup of the first member failing
    during its removal: the save came first and succeeded, the match is
    persisted and returned, and the failed removal is logged. *)
Lemma save_call_precedes_removals_witness :
  let m := {| MatchID := "match_1000000001";
              Players := [duel_p; duel_q];
              CreatedAt := 1000000002 |} in
  let w := duel_world [None; None; None; None; Some "timeout"] in
  let run := FindMatch DefaultMatcherConfig "p" w in
  run.1 = Ok m ∧
  Log Warn "Failed to remove player from queue"
    [("player_id", "p"); ("error", "failed to get player: timeout")]
    ∈ events_since w run.2.
Proof.
  intros m w run.
  destruct (save_call_precedes_removals DefaultMatcherConfig) as [Hfind _].
  destruct (Hfind "p" w) as [Horder Hresult].
  split.
  - apply (Hresult m None). vm_compute. do 3 right. left.
  - destruct (Horder 4%nat "p" (Some "failed to get player: timeout"))
      as (_ & _ & _ & _ & _ & _ & _ & Hwarn); [by vm_compute |].
    by apply Hwarn.
Defined.

(** * Further properties of the engine, the storage layer and the handlers *)

(** ** The window across the saturation threshold *)

(** X1: when the linear ramp has not passed 1000 at [MaxSearchTime], the
    window is non-decreasing over all wait times, the jump to 1000
    included; when it has, the window drops right after the threshold. *)
Theorem calculateRatingRange_monotone config :
  Int64.in_range (MaxSearchTime config) → fits config →
  0 <= RatingExpansionRate config →
  (calculateRatingRange config (MaxSearchTime config) <= 1000 →
   ∀ t t', Int64.in_range t → Int64.in_range t' → t <= t' →
           calculateRatingRange config t <= calculateRatingRange config t') ∧
  (1000 < calculateRatingRange config (MaxSearchTime config) →
   calculateRatingRange config (MaxSearchTime config + 1)
   < calculateRatingRange config (MaxSearchTime config)).
Proof.
  intros Hmax Hfits Hrate. split.
  - intros Htop t t' Ht Ht' Hle.
    rewrite calculateRatingRange_ramp in Htop by (done || lia).
    destruct (Z.lt_ge_cases (MaxSearchTime config) t') as [Hsat' | Hramp'].
    + rewrite (calculateRatingRange_saturated config t') by done.
      destruct (Z.lt_ge_cases (MaxSearchTime config) t) as [Hsat | Hramp].
      * by rewrite calculateRatingRange_saturated.
      * rewrite calculateRatingRange_ramp by (done || lia).
        pose proof (expansionCount_mono t (MaxSearchTime config) Ht Hmax
                      ltac:(lia)).
        assert (expansionCount t * RatingExpansionRate config
                <= expansionCount (MaxSearchTime config) * RatingExpansionRate config)
          by (apply Z.mul_le_mono_nonneg_r; lia).
        lia.
    + rewrite !calculateRatingRange_ramp by (done || lia).
      pose proof (expansionCount_mono t t' Ht Ht' Hle).
      apply Z.add_le_mono_l, Z.mul_le_mono_nonneg_r; lia.
  - intros Htop. rewrite (calculateRatingRange_saturated config (_ + 1)); lia.
Qed.

Lemma calculateRatingRange_monotone_witness :
  calculateRatingRange DefaultMatcherConfig (299 * Second)
  <= calculateRatingRange DefaultMatcherConfig (301 * Second) ∧
  calculateRatingRange (mkConfig 200 (20 * Minute) 50 6) (20 * Minute + 1)
  < calculateRatingRange (mkConfig 200 (20 * Minute) 50 6) (20 * Minute).
Proof.
  split.
  - apply (calculateRatingRange_monotone DefaultMatcherConfig); by vm_compute.
  - apply (calculateRatingRange_monotone (mkConfig 200 (20 * Minute) 50 6));
      by vm_compute.
Defined.

(** ** Store commands under a healthy store *)

Lemma command_ok n w :
  available (S n) w →
  Redis.command w = (None, set_faults (tail (faults w)) w) ∧
  available n (set_faults (tail (faults w)) w).
Proof.
  unfold available, Redis.command. intros Hav.
  destruct (faults w) as [| f fs]; cbn in *.
  - split; [done |]. rewrite take_nil. constructor.
  - apply Forall_cons in Hav as [-> Hav]. done.
Qed.

(** ** The range query *)

Lemma range_crossed min max count (l : list Player) :
  Int64.to_float64 max < Int64.to_float64 min → Redis.range min max count l = [].
Proof.
  intros Hcross. unfold Redis.range. cbv zeta.
  assert (filter (Redis.within min max) l = []) as ->.
  { induction l as [| q l IH]; [done |].
    rewrite filter_cons. case_decide as Hq; [| done].
    unfold Redis.within in Hq. lia. }
  case_match; [by rewrite take_nil | done].
Qed.

Lemma range_all min max count (l : list Player) :
  count <= 0 ∨ (length l <= Z.to_nat count)%nat →
  Redis.range min max count l = filter (Redis.within min max) l.
Proof.
  intros Hall. unfold Redis.range. cbv zeta.
  destruct (Z.ltb_spec 0 count) as [Hpos | Hle]; [| done].
  destruct Hall as [? | Hlen]; [lia |].
  apply take_ge. etrans; [apply length_filter | done].
Qed.

(** X2: a range query that succeeds returns the members of the queried
    partition whose float64 score lies between the float64 values of the
    two bounds, in store order, cut to the first [limit] of them when the
    limit is positive (a limit of zero or less does not cut).  The players
    returned are rated within the bounds when the bounds and the ratings
    of the partition are below 2^53 in magnitude; every player rated
    within the bounds is returned when the partition is no larger than the
    limit or the limit does not cut; nothing is returned when the bounds
    are crossed as float64 values (for bounds below 2^53 in magnitude:
    when the upper one is the smaller); the store is left as it was. *)
Theorem GetPlayersInRange_bounds region gameMode lo hi limit w players :
  let run := GetPlayersInRange region gameMode lo hi limit w in
  let partition := Redis.members (queueKey region gameMode) w in
  run.1 = Ok players →
  players = Redis.range lo hi limit partition ∧
  (0 < limit → (length players <= Z.to_nat limit)%nat) ∧
  players `sublist_of` partition ∧
  Forall (Redis.within lo hi) players ∧
  (Z.abs lo < 2 ^ 53 → Z.abs hi < 2 ^ 53 →
   Forall (λ p, Z.abs (Rating p) < 2 ^ 53) partition →
   Forall (λ p, lo <= Rating p <= hi) players) ∧
  (limit <= 0 ∨ (length partition <= Z.to_nat limit)%nat →
   ∀ p, p ∈ partition → lo <= Rating p <= hi → p ∈ players) ∧
  (Int64.to_float64 hi < Int64.to_float64 lo → players = []) ∧
  (Z.abs lo < 2 ^ 53 → Z.abs hi < 2 ^ 53 → hi < lo → players = []) ∧
  same_store w run.2.
Proof.
  intros run partition Hrun. subst run.
  destruct (GetPlayersInRange region gameMode lo hi limit w) as [r w'] eqn:H.
  cbn in *. subst r.
  apply GetPlayersInRange_inv in H as (Hst & _ & e & _ & _ & ->).
  fold partition.
  split; [done |].
  split; [apply range_length |].
  split; [apply range_sublist |].
  assert (Forall (Redis.within lo hi) (Redis.range lo hi limit partition))
    as Hwithin.
  { apply Forall_forall. intros p Hp. by apply range_elem in Hp as [_ ?]. }
  split; [done |]. split.
  { intros Hlo Hhi Hsmall. apply Forall_forall. intros p Hp.
    apply within_exact; [done | done | | by apply (proj1 (Forall_forall _ _) Hwithin)].
    apply (proj1 (Forall_forall _ _) Hsmall).
    by apply range_elem in Hp as [? _]. }
  split.
  { intros Hsize p Hp Hrating. rewrite range_all by done.
    apply list_elem_of_filter. split; [by apply within_rating | done]. }
  split; [apply range_crossed |]. split; [| done].
  intros Hlo Hhi Hcross. apply range_crossed.
  by rewrite !to_float64_exact.
Qed.

Lemma GetPlayersInRange_bounds_witness :
  (GetPlayersInRange "EU" "3v3" 1200 1800 12 lone_world).1
  = Ok [lone_p; lone_a; lone_b; lone_c; lone_d; lone_near] ∧
  (length [lone_p; lone_a; lone_b; lone_c; lone_d; lone_near] <= 12)%nat ∧
  Forall (λ p, 1200 <= Rating p <= 1800)
    [lone_p; lone_a; lone_b; lone_c; lone_d; lone_near].
Proof.
  split; [reflexivity |].
  destruct (GetPlayersInRange_bounds "EU" "3v3" 1200 1800 12 lone_world
              [lone_p; lone_a; lone_b; lone_c; lone_d; lone_near])
    as (_ & Hlen & _ & _ & Hall & _); [reflexivity |].
  split; [by apply Hlen |].
  apply Hall; [by vm_compute | by vm_compute |].
  apply (bool_decide_unpack _). by vm_compute.
Defined.

(** ** Leaving the queue *)

Lemma available_le n m w : (n <= m)%nat → available m w → available n w.
Proof.
  unfold available. intros Hle Hav.
  replace n with (n `min` m)%nat by lia. rewrite <- take_take.
  by apply Forall_take.
Qed.

Lemma available_after n k w w' :
  available (k + n) w → faults w' = drop k (faults w) → available n w'.
Proof.
  unfold available. intros Hav ->.
  rewrite take_drop_commute. by apply Forall_drop.
Qed.

Lemma Get_ok n key w :
  available (S n) w →
  Redis.Get key w = (Ok (strs w !! key), set_faults (tail (faults w)) w) ∧
  available n (set_faults (tail (faults w)) w).
Proof.
  intros Hav. destruct (command_ok n w Hav) as [Hc Hav'].
  unfold Redis.Get, bind. rewrite Hc. done.
Qed.

Lemma RemovePlayerFromQueue_ok playerID p w :
  strs w !! playerKey playerID = Some p → available 3 w →
  ∃ w',
    RemovePlayerFromQueue playerID w = (None, w') ∧
    strs w' = delete (playerKey playerID) (strs w) ∧
    zsets w' = alter (filter (λ q, q ≠ p)) (queueKey (Region p) (GameMode p)) (zsets w) ∧
    saved w' = saved w ∧
    faults w' = tail (tail (tail (faults w))).
Proof.
  intros Hkey Hav. unfold RemovePlayerFromQueue. unfold bind at 1.
  destruct (Get_ok _ (playerKey playerID) _ Hav) as [-> Hav1]. rewrite Hkey.
  unfold bind at 1, Redis.ZRem. unfold bind at 1.
  destruct (command_ok _ _ Hav1) as [-> Hav2].
  unfold bind at 1, modify, ret at 1.
  unfold bind at 1, Redis.Del. unfold bind at 1.
  match goal with |- context [Redis.command ?w0] =>
    assert (available 1 w0) as Hav3 by exact Hav2 end.
  destruct (command_ok _ _ Hav3) as [-> _].
  munfold. eexists. split; [reflexivity |]. cbn. done.
Qed.

Lemma RemovePlayerFromQueue_missing playerID w :
  strs w !! playerKey playerID = None → available 1 w →
  ∃ w',
    RemovePlayerFromQueue playerID w = (Some "player not found", w') ∧
    same_store w w' ∧ faults w' = tail (faults w).
Proof.
  intros Hkey Hav. unfold RemovePlayerFromQueue. unfold bind at 1.
  destruct (Get_ok _ (playerKey playerID) _ Hav) as [-> _]. rewrite Hkey.
  munfold. eexists. split; [reflexivity |]. done.
Qed.

Lemma members_filtered (P : Player → Prop) `{!∀ q, Decision (P q)} key key' w w' :
  zsets w' = alter (filter P) key (zsets w) →
  Redis.members key' w'
  = (if decide (key = key') then filter P (Redis.members key' w)
     else Redis.members key' w).
Proof.
  intros Hz. unfold Redis.members. rewrite Hz, lookup_alter.
  case_decide; [subst | done]. by destruct (zsets w !! key').
Qed.

(** X3: with the player key present and the store healthy, leaving the
    queue succeeds: the key is deleted, the stored record is no longer in
    the sorted set of its region and mode, and no other key, no other
    member of any sorted set and no persisted match is touched. *)
Theorem RemovePlayerFromQueue_removes playerID p w :
  strs w !! playerKey playerID = Some p → available 3 w →
  let run := RemovePlayerFromQueue playerID w in
  run.1 = None ∧
  strs run.2 !! playerKey playerID = None ∧
  ¬ (p ∈ Redis.members (queueKey (Region p) (GameMode p)) run.2) ∧
  (∀ k, k ≠ playerKey playerID → strs run.2 !! k = strs w !! k) ∧
  (∀ key q, q ≠ p → q ∈ Redis.members key run.2 ↔ q ∈ Redis.members key w) ∧
  saved run.2 = saved w.
Proof.
  intros Hkey Hav run. subst run.
  destruct (RemovePlayerFromQueue_ok playerID p w Hkey Hav)
    as (w' & -> & Hs & Hz & Hsv & _). cbn.
  split; [done |]. split; [by rewrite Hs, lookup_delete_eq |]. split.
  { rewrite (members_filtered _ _ _ _ _ Hz). rewrite decide_True by done.
    intros [Hne _]%list_elem_of_filter. done. }
  split; [intros k Hk; by rewrite Hs, lookup_delete_ne |]. split; [| done].
  intros key q Hq. rewrite (members_filtered _ _ _ _ _ Hz).
  case_decide; [| done]. rewrite list_elem_of_filter. tauto.
Qed.

Lemma RemovePlayerFromQueue_removes_witness :
  let run := RemovePlayerFromQueue "p" (duel_world []) in
  run.1 = None ∧
  strs run.2 !! playerKey "p" = None ∧
  strs run.2 !! playerKey "q" = Some duel_q ∧
  duel_q ∈ Redis.members (queueKey "EU" "1v1") run.2.
Proof.
  intros run.
  destruct (RemovePlayerFromQueue_removes "p" duel_p (duel_world []))
    as (Hr & Hgone & _ & Hkeys & Hmembers & _).
  - reflexivity.
  - unfold available. vm_compute. constructor.
  - split; [exact Hr |]. split; [exact Hgone |]. split.
    + rewrite Hkeys; [reflexivity | by vm_compute].
    + apply Hmembers; [by vm_compute |]. vm_compute. right. left.
Defined.

(** X4: leaving twice: after a successful removal a second removal of the
    same player fails with "player not found" and changes nothing. *)
Theorem RemovePlayerFromQueue_twice playerID p w :
  strs w !! playerKey playerID = Some p → available 4 w →
  let first := RemovePlayerFromQueue playerID w in
  let second := RemovePlayerFromQueue playerID first.2 in
  first.1 = None ∧
  second.1 = Some "player not found" ∧
  same_store first.2 second.2.
Proof.
  intros Hkey Hav first second. subst first second.
  destruct (RemovePlayerFromQueue_ok playerID p w Hkey
              (available_le 3 4 w ltac:(lia) Hav))
    as (w1 & -> & Hs & _ & _ & Hf). cbn.
  assert (strs w1 !! playerKey playerID = None) as Hgone
    by (by rewrite Hs, lookup_delete_eq).
  assert (available 1 w1) as Hav1.
  { apply (available_after 1 3 w); [done |].
    rewrite Hf. by destruct (faults w) as [| ? [| ? [| ? ?]]]. }
  destruct (RemovePlayerFromQueue_missing playerID w1 Hgone Hav1)
    as (w2 & -> & Hst & _). done.
Qed.

Lemma RemovePlayerFromQueue_twice_witness :
  let first := RemovePlayerFromQueue "p" (duel_world []) in
  first.1 = None ∧
  (RemovePlayerFromQueue "p" first.2).1 = Some "player not found".
Proof.
  intros first.
  destruct (RemovePlayerFromQueue_twice "p" duel_p (duel_world []))
    as (H1 & H2 & _).
  - reflexivity.
  - unfold available. vm_compute. constructor.
  - split; [exact H1 | exact H2].
Defined.

(** X5: a removal that reports an error has deleted no player key and
    touched no persisted match; the sorted sets are as before too, unless
    the error is the failed deletion of the key, in which case the record
    is already out of its sorted set while the key remains. *)
Theorem RemovePlayerFromQueue_error playerID w e :
  let run := RemovePlayerFromQueue playerID w in
  run.1 = Some e →
  strs run.2 = strs w ∧ saved run.2 = saved w ∧
  (zsets run.2 = zsets w ∨
   ∃ e' p,
     e = Errorf "failed to delete player key" e' ∧
     strs w !! playerKey playerID = Some p ∧
     zsets run.2
     = alter (filter (λ q, q ≠ p)) (queueKey (Region p) (GameMode p)) (zsets w)).
Proof.
  intros run. subst run.
  destruct (RemovePlayerFromQueue playerID w) as [r w'] eqn:H. cbn. intros ->.
  unfold RemovePlayerFromQueue, Redis.Get, Redis.ZRem, Redis.Del in H. munfold.
  repeat case_match; simplify_eq; cbn in *; (split; [done |]); (split; [done |]);
    try (by left).
  right. eauto.
Qed.

Lemma RemovePlayerFromQueue_error_witness :
  let run := RemovePlayerFromQueue "p" (duel_world [None; None; Some "timeout"]) in
  run.1 = Some "failed to delete player key: timeout" ∧
  strs run.2 !! playerKey "p" = Some duel_p ∧
  Redis.members (queueKey "EU" "1v1") run.2 = [duel_q].
Proof.
  intros run. split; [reflexivity |].
  destruct (RemovePlayerFromQueue_error "p"
              (duel_world [None; None; Some "timeout"])
              "failed to delete player key: timeout")
    as (Hs & _ & _); [reflexivity |].
  split; [| reflexivity].
  unfold run. rewrite Hs. reflexivity.
Defined.

(** ** [FindMatch]: failures, the fetch window, serving the members *)

(** X6: a call of [FindMatch] that fails reports one of three errors (no
    group, the player lookup failed, the candidate fetch failed), leaves
    the queue, the player keys and the persisted matches as they were, and
    has issued no save and no removal. *)
Theorem FindMatch_failure_keeps_store config playerID w e :
  let run := FindMatch config playerID w in
  run.1 = Err e →
  (e = "no suitable match found" ∨
   (∃ e', e = Errorf "player not found in queue" e') ∨
   (∃ e', e = Errorf "failed to get candidates" e')) ∧
  same_store w run.2 ∧
  Forall read_only (events_since w run.2).
Proof.
  intros run. subst run.
  destruct (FindMatch config playerID w) as [r w'] eqn:H. cbn. intros ->.
  pose proof H as Hinv. apply FindMatch_inv in Hinv as (Hst & evs & Ht & Hro).
  split; [| split; [done | by rewrite (events_since_app _ _ _ Ht)]].
  clear Hst Ht Hro.
  unfold FindMatch in H. unfold bind at 1 in H.
  destruct (GetMatchByPlayerID playerID w) as [r0 w0].
  assert (∀ w0, assemble config playerID w0 = (Err e, w') →
                e = "no suitable match found" ∨
                (∃ e', e = Errorf "player not found in queue" e') ∨
                (∃ e', e = Errorf "failed to get candidates" e')) as Hassemble.
  { clear. intros w0 H. unfold assemble in H. unfold bind at 1 in H.
    destruct (GetPlayerByID playerID w0) as [[cur | e1] w1];
      [| unfold ret in H; simplify_eq; eauto].
    unfold bind at 1 in H. destruct (time_Now w1) as [now w2].
    unfold bind at 1 in H.
    destruct (GetPlayersInRange _ _ _ _ _ w2) as [[cands | e3] w3];
      [| unfold ret in H; simplify_eq; eauto].
    destruct (_ <=? _); [| unfold ret in H; simplify_eq; eauto].
    unfold bind at 1 in H. destruct (createMatch _ w3) as [m w4].
    munfold. simplify_eq. }
  destruct r0 as [[savedMatch |] | e0]; [munfold; simplify_eq | |];
    by apply (Hassemble w0).
Qed.

Lemma FindMatch_failure_keeps_store_witness :
  let run := FindMatch DefaultMatcherConfig "p" lone_world in
  run.1 = Err "no suitable match found" ∧
  zsets run.2 = zsets lone_world ∧ strs run.2 = strs lone_world.
Proof.
  intros run.
  destruct (FindMatch_failure_keeps_store DefaultMatcherConfig "p" lone_world
              "no suitable match found") as (_ & (Hz & Hs & _) & _);
    [reflexivity |].
  split; [reflexivity |]. split; [exact Hz | exact Hs].
Defined.

Lemma GetMatchByPlayerID_clock playerID w :
  clock (GetMatchByPlayerID playerID w).2 = clock w ∧
  ticks (GetMatchByPlayerID playerID w).2 = ticks w.
Proof. unfold GetMatchByPlayerID. munfold. by repeat case_match. Qed.

Lemma GetPlayerByID_clock playerID w :
  clock (GetPlayerByID playerID w).2 = clock w ∧
  ticks (GetPlayerByID playerID w).2 = ticks w.
Proof.
  unfold GetPlayerByID, Redis.Get. munfold.
  repeat case_match; simplify_eq; cbn in *; repeat case_match; by simplify_eq.
Qed.

(** The candidates of a new group, with the fetch bounds written out. *)
Lemma FindMatch_new_explicit config playerID w m :
  find (contains playerID) (saved w) = None →
  (FindMatch config playerID w).1 = Ok m →
  ∃ currentPlayer,
    let window :=
      calculateRatingRange config
        (time_Sub (clock w (ticks w)) (JoinedAt currentPlayer)) in
    let playersPerMatch := GetPlayersPerMatch (GameMode currentPlayer) in
    let candidates :=
      Redis.range (Int64.wrap (Rating currentPlayer - window))
        (Int64.wrap (Rating currentPlayer + window))
        (Int64.wrap (playersPerMatch * 2))
        (Redis.members
           (queueKey (Region currentPlayer) (GameMode currentPlayer)) w) in
    strs w !! playerKey playerID = Some currentPlayer ∧
    Players m = selectCandidates config playerID currentPlayer playersPerMatch
                  candidates [currentPlayer] ∧
    playersPerMatch <= len (Players m).
Proof.
  intros Hnone Hm.
  destruct (FindMatch config playerID w) as [r w'] eqn:H. cbn in Hm. subst r.
  rewrite FindMatch_unfold in H. unfold bind at 1 in H.
  pose proof (GetMatchByPlayerID_clock playerID w) as [Hc0 Hk0].
  destruct (GetMatchByPlayerID playerID w) as [r0 w0] eqn:H0. cbn in Hc0, Hk0.
  apply GetMatchByPlayerID_inv in H0 as ((Hz0 & Hs0 & _) & _ & e0 & _ & Hr0).
  assert (assemble config playerID w0 = (Ok m, w')) as Ha.
  { destruct r0 as [[savedMatch |] | ?]; [| done | done].
    destruct Hr0 as [_ Hfind]. congruence. }
  clear H Hr0. unfold assemble in Ha. unfold bind at 1 in Ha.
  pose proof (GetPlayerByID_clock playerID w0) as [Hc1 Hk1].
  destruct (GetPlayerByID playerID w0) as [r1 w1] eqn:H1. cbn in Hc1, Hk1.
  apply GetPlayerByID_inv in H1 as ((Hz1 & _) & _ & e1 & _ & Hr1).
  destruct r1 as [cur | ?]; [| unfold ret in Ha; simplify_eq].
  destruct Hr1 as [_ Hcur]. rewrite Hs0 in Hcur.
  unfold bind at 1 in Ha.
  assert (time_Now w1 = (clock w (ticks w), set_ticks (S (ticks w1)) w1)) as Hnow.
  { unfold time_Now, bind, gets, modify, ret. cbn.
    by rewrite Hc1, Hk1, Hc0, Hk0. }
  rewrite Hnow in Ha. unfold bind at 1 in Ha.
  match type of Ha with
  | context [GetPlayersInRange ?a ?b ?lo ?hi ?lim ?w2] =>
      destruct (GetPlayersInRange a b lo hi lim w2) as [r3 w3] eqn:H3;
      apply GetPlayersInRange_inv in H3 as (_ & _ & e3 & _ & Hr3)
  end.
  destruct r3 as [cands | ?]; [| unfold ret in Ha; simplify_eq].
  destruct Hr3 as [_ ->].
  unfold Redis.members in Ha. cbn [zsets set_ticks] in Ha. rewrite Hz1, Hz0 in Ha.
  fold (Redis.members (queueKey (Region cur) (GameMode cur)) w) in Ha.
  exists cur. cbv zeta.
  match type of Ha with
  | context [?a <=? len ?b] =>
      destruct (Z.leb_spec a (len b)) as [Hfull | Hshort];
      [| unfold ret in Ha; simplify_eq]
  end.
  unfold bind at 1 in Ha.
  destruct (createMatch _ w3) as [m' w4] eqn:H4.
  apply createMatch_inv in H4 as (Hpl & _).
  unfold bind, logger, emit, modify, ret in Ha. simplify_eq.
  split; [done |]. split; [done |]. by rewrite Hpl.
Qed.



(** X8: a negative window makes the on-demand search fail: when the
    window computed for the requesting player is negative (its join
    instant lies far enough in the future) and the two fetch bounds are
    below 2^53 in magnitude, or in general when the upper fetch bound is
    the smaller one as a float64, the fetch bounds are crossed, no
    candidate is fetched and [FindMatch] returns no match. *)
Theorem FindMatch_negative_window config playerID w currentPlayer :
  let window :=
    calculateRatingRange config
      (time_Sub (clock w (ticks w)) (JoinedAt currentPlayer)) in
  let lo := Int64.wrap (Rating currentPlayer - window) in
  let hi := Int64.wrap (Rating currentPlayer + window) in
  find (contains playerID) (saved w) = None →
  strs w !! playerKey playerID = Some currentPlayer →
  Int64.to_float64 hi < Int64.to_float64 lo ∨
  (window < 0 ∧ Z.abs (Rating currentPlayer - window) < 2 ^ 53 ∧
   Z.abs (Rating currentPlayer + window) < 2 ^ 53) →
  ∀ m, (FindMatch config playerID w).1 ≠ Ok m.
Proof.
  intros window lo hi Hnone Hcur Hcross m Hm.
  destruct (FindMatch_new_explicit config playerID w m Hnone Hm)
    as (cur & Hcur' & Hpl & Hfull). cbv zeta in Hpl, Hfull.
  assert (cur = currentPlayer) as -> by congruence.
  fold window in Hpl. fold lo hi in Hpl.
  assert (Int64.to_float64 hi < Int64.to_float64 lo) as Hscores.
  { destruct Hcross as [? | (Hneg & Hlo & Hhi)]; [done |]. subst lo hi.
    rewrite !wrap_in_range
      by (unfold Int64.in_range, Int64.min_int, Int64.max_int; lia).
    rewrite !to_float64_exact by done. lia. }
  rewrite range_crossed in Hpl by done. cbn in Hpl. rewrite Hpl in Hfull.
  unfold len in Hfull. cbn in Hfull.
  destruct (GetPlayersPerMatch_values (GameMode currentPlayer)); lia.
Qed.

Lemma FindMatch_negative_window_witness :
  let w := {| zsets := zsets (duel_world []);
              strs := strs (duel_world []);
              saved := [];
              faults := [];
              clock := λ _, - (150 * Second);
              ticks := 0;
              trace := [] |} in
  (FindMatch DefaultMatcherConfig "p" w).1 = Err "no suitable match found".
Proof.
  intros w.
  pose proof (FindMatch_negative_window DefaultMatcherConfig "p" w duel_p
                eq_refl eq_refl) as Hno.
  destruct (FindMatch DefaultMatcherConfig "p" w).1 as [m | e] eqn:Hrun.
  - exfalso. apply (Hno ltac:(right; by vm_compute) m eq_refl).
  - vm_compute in Hrun. congruence.
Defined.

Lemma GetMatchByPlayerID_absent playerID w :
  find (contains playerID) (saved w) = None →
  ∃ e, (GetMatchByPlayerID playerID w).1 = Err e ∧
       strs (GetMatchByPlayerID playerID w).2 = strs w ∧
       faults (GetMatchByPlayerID playerID w).2 = tail (faults w).
Proof.
  intros Hnone. unfold GetMatchByPlayerID. munfold.
  destruct (faults w) as [| [e |] fs]; cbn; rewrite ?Hnone; cbn; eauto.
Qed.

(** X9: for a player that has no key in the store and is in no persisted
    match, with a healthy store, [FindMatch] fails with "player not found
    in queue: player not found". *)
Theorem FindMatch_unknown_player config playerID w :
  find (contains playerID) (saved w) = None →
  strs w !! playerKey playerID = None →
  available 2 w →
  (FindMatch config playerID w).1
  = Err "player not found in queue: player not found".
Proof.
  intros Hnone Hkey Hav.
  destruct (GetMatchByPlayerID_absent playerID w Hnone) as (e & Hr & Hs & Hf).
  rewrite FindMatch_unfold. unfold bind at 1.
  destruct (GetMatchByPlayerID playerID w) as [r0 w0]. cbn in Hr, Hs, Hf. subst r0.
  assert (available 1 w0) as Hav0.
  { apply (available_after 1 1 w); [done |]. rewrite Hf.
    by destruct (faults w). }
  unfold assemble. unfold bind at 1. unfold GetPlayerByID. unfold bind at 1.
  destruct (Get_ok _ (playerKey playerID) _ Hav0) as [-> _].
  rewrite Hs, Hkey. reflexivity.
Qed.

Lemma FindMatch_unknown_player_witness :
  (FindMatch DefaultMatcherConfig "nobody" (duel_world [])).1
  = Err "player not found in queue: player not found".
Proof.
  apply FindMatch_unknown_player.
  - reflexivity.
  - reflexivity.
  - unfold available. vm_compute. constructor.
Defined.

(** X10: once [FindMatch] has built a match and its save succeeded, every
    member of the match gets that same match from [FindMatch] (the store
    answering the lookup), with no new match built. *)
Theorem FindMatch_serves_members config playerID w m :
  let run := FindMatch config playerID w in
  run.1 = Ok m →
  Store (CallSaveMatch m) None ∈ events_since w run.2 →
  ∀ q, q ∈ Players m → available 1 run.2 →
       (FindMatch config (ID q) run.2).1 = Ok m ∧
       same_store run.2 (FindMatch config (ID q) run.2).2.
Proof.
  intros run Hm Hsave q Hq Hav. subst run.
  destruct (FindMatch config playerID w) as [r w'] eqn:H. cbn in *. subst r.
  apply FindMatch_inv in H as [(_ & _ & _ & Ht) | Hnew].
  { rewrite (events_since_app _ _ _ Ht) in Hsave.
    repeat (apply elem_of_cons in Hsave as [? | Hsave]; [done |]).
    by apply elem_of_nil in Hsave. }
  destruct Hnew as (cur & lo & hi & lookup & err & outs & _ & _ & _ & _ & Ht & Hs).
  cbv zeta in Ht. rewrite (events_since_app _ _ _ Ht) in Hsave.
  assert (err = None) as ->.
  { repeat (apply elem_of_cons in Hsave as [? | Hsave]; [done |]).
    apply elem_of_app in Hsave as [Hsave | Hsave].
    - by apply save_in_match_events in Hsave as [_ <-].
    - by apply list_elem_of_singleton in Hsave. }
  assert (find (contains (ID q)) (saved w') = Some m) as Hfind.
  { rewrite Hs. cbn. unfold contains at 1.
    rewrite bool_decide_eq_true_2; [done |]. by apply list_elem_of_fmap_2. }
  destruct (FindMatch_saved config (ID q) w' m Hfind Hav) as (w2 & -> & Hst & _).
  done.
Qed.

Lemma FindMatch_serves_members_witness :
  let m := {| MatchID := "match_1000000001";
              Players := [duel_p; duel_q];
              CreatedAt := 1000000002 |} in
  let run := FindMatch DefaultMatcherConfig "p" (duel_world []) in
  (FindMatch DefaultMatcherConfig "q" run.2).1 = Ok m.
Proof.
  intros m run.
  apply (FindMatch_serves_members DefaultMatcherConfig "p" (duel_world []) m
           eq_refl) with (q := duel_q).
  - vm_compute. do 3 right. left.
  - right. left.
  - unfold available. vm_compute. constructor.
Defined.

(** ** [ProcessQueue]: the marker set and the groups *)

Lemma is_used_insert used k id :
  is_used (<[k := true]> used) id = bool_decide (id = k) || is_used used id.
Proof.
  unfold is_used. rewrite lookup_insert.
  destruct (decide (k = id)) as [-> | Hne].
  - by rewrite bool_decide_eq_true_2.
  - rewrite bool_decide_eq_false_2 by congruence. done.
Qed.

Lemma is_used_delete used k id :
  is_used (delete k used) id = (if bool_decide (id = k) then false else is_used used id).
Proof.
  unfold is_used. rewrite lookup_delete.
  destruct (decide (k = id)) as [-> | Hne].
  - by rewrite bool_decide_eq_true_2.
  - by rewrite bool_decide_eq_false_2 by congruence.
Qed.

Lemma is_used_deletes (l : list Player) used id :
  is_used (foldl (λ u p, delete (ID p) u) used l) id
  = (if bool_decide (id ∈ ID <$> l) then false else is_used used id).
Proof.
  revert used. induction l as [| p l IH]; intros used; cbn; [done |].
  rewrite IH, is_used_delete.
  repeat case_bool_decide; try done; exfalso.
  - match goal with H : ¬ (_ ∈ _ :: _) |- _ => apply H end. by right.
  - subst. match goal with H : ¬ (_ ∈ _ :: _) |- _ => apply H end. by left.
  - match goal with H : _ ∈ _ :: _ |- _ =>
      apply elem_of_cons in H as [? | ?] end; done.
Qed.

Lemma is_used_release group used id :
  is_used (release group used) id
  = (if bool_decide (id ∈ ID <$> group) then false else is_used used id).
Proof.
  unfold release. destruct group as [| anchor rest]; cbn; [done |].
  rewrite is_used_delete, is_used_deletes.
  repeat case_bool_decide; try done; exfalso.
  - subst. match goal with H : ¬ (_ ∈ _ :: _) |- _ => apply H end. by left.
  - match goal with H : ¬ (_ ∈ _ :: _) |- _ => apply H end. by right.
  - match goal with H : _ ∈ _ :: _ |- _ =>
      apply elem_of_cons in H as [? | ?] end; done.
Qed.

Section Marking.

Variable config : MatcherConfig.

(** The inner loop adds only players whose id was not marked, marks them,
    never adds an id twice and marks nothing else. *)
Lemma fillGroup_marks playersPerMatch players anchor rest used group' used' :
  fillGroup config playersPerMatch players (anchor :: rest) used = (group', used') →
  ∃ added,
    group' = anchor :: rest ++ added ∧
    Forall (λ c, isCompatible config anchor c = true) added ∧
    NoDup (ID <$> added) ∧
    Forall (λ c, is_used used (ID c) = false) added ∧
    (∀ id, is_used used' id = is_used used id || bool_decide (id ∈ ID <$> added)).
Proof.
  revert rest used.
  induction players as [| pj players IH]; intros rest used; cbn [fillGroup].
  - intros ?; simplify_eq. exists []. rewrite app_nil_r.
    repeat split; try done; [constructor |].
    intros id. cbn. by rewrite orb_false_r.
  - destruct (len (anchor :: rest) <? playersPerMatch).
    2: { intros ?; simplify_eq. exists []. rewrite app_nil_r.
         repeat split; try done; [constructor |].
         intros id. cbn. by rewrite orb_false_r. }
    destruct (is_used used (ID pj)) eqn:Hpj; [by apply IH |].
    destruct (isCompatible config anchor pj) eqn:Hc; [| by apply IH].
    change ((anchor :: rest) ++ [pj]) with (anchor :: (rest ++ [pj])).
    intros Hfill. apply IH in Hfill as (added & -> & Hcompat & Hnodup & Hunused & Hmark).
    exists (pj :: added). rewrite <- app_assoc. split; [done |].
    assert (Forall (λ c, ID c ≠ ID pj ∧ is_used used (ID c) = false) added) as Hfresh.
    { eapply Forall_impl; [exact Hunused |]. cbn. intros c Hcu.
      rewrite is_used_insert in Hcu. apply orb_false_iff in Hcu as [Hne Hcu].
      split; [| done]. by apply bool_decide_eq_false in Hne. }
    split; [by constructor |]. split; [| split].
    + cbn. apply NoDup_cons. split; [| done].
      intros (c & Heq & Hc')%list_elem_of_fmap.
      rewrite Forall_forall in Hfresh. destruct (Hfresh c Hc') as [Hne _]. congruence.
    + constructor; [done |]. eapply Forall_impl; [exact Hfresh |]. by intros c [_ ?].
    + intros id. rewrite Hmark, is_used_insert. cbn.
      destruct (decide (id = ID pj)) as [-> | Hne].
      * rewrite bool_decide_eq_true_2 by done.
        rewrite (bool_decide_eq_true_2 (ID pj ∈ ID pj :: _)) by left.
        by rewrite orb_true_r.
      * rewrite (bool_decide_eq_false_2 (id = ID pj)) by done. cbn.
        f_equal. apply bool_decide_ext. rewrite elem_of_cons. tauto.
Qed.

(** The groups of one pass: each is built around its first member and full,
    and no player id occurs twice in them; the ids were unmarked before. *)
Lemma formGroups_groups region gameMode playersPerMatch players anchors used w w' :
  1 <= playersPerMatch →
  formGroups config region gameMode playersPerMatch players anchors used w = (tt, w') →
  ∃ gs,
    trace w' = trace w ++ concat (group_events region gameMode <$> gs) ∧
    Forall (λ g, anchored config (Players g.1.1) ∧
                 len (Players g.1.1) = playersPerMatch) gs ∧
    NoDup (member_ids ((λ g, g.1.1) <$> gs)) ∧
    Forall (λ id, is_used used id = false) (member_ids ((λ g, g.1.1) <$> gs)).
Proof.
  intros Hppm. revert used w.
  induction anchors as [| pi anchors IH]; intros used w; cbn [formGroups].
  - unfold ret. intros ?; simplify_eq. exists []. cbn. rewrite app_nil_r.
    repeat split; try constructor.
  - destruct (is_used used (ID pi)) eqn:Hpi; [by apply IH |].
    destruct (fillGroup config playersPerMatch players [pi] (<[ID pi:=true]> used))
      as [group used'] eqn:Hfill.
    pose proof Hfill as Hshape.
    apply fillGroup_shape in Hshape as (added0 & Hg0 & _ & Hle);
      [| unfold len; cbn; lia].
    apply fillGroup_marks in Hfill as (added & -> & Hcompat & Hnodup & Hunused & Hmark).
    cbn [app] in *.
    assert (Forall (λ c, ID c ≠ ID pi ∧ is_used used (ID c) = false) added) as Hfresh.
    { eapply Forall_impl; [exact Hunused |]. cbn. intros c Hcu.
      rewrite is_used_insert in Hcu. apply orb_false_iff in Hcu as [Hne Hcu].
      split; [| done]. by apply bool_decide_eq_false in Hne. }
    assert (∀ id, is_used used' id
                  = is_used used id || bool_decide (id ∈ ID <$> pi :: added)) as Hmark'.
    { intros id. rewrite Hmark, is_used_insert. cbn.
      destruct (decide (id = ID pi)) as [-> | Hne].
      - rewrite bool_decide_eq_true_2 by done.
        rewrite (bool_decide_eq_true_2 (ID pi ∈ ID pi :: _)) by left.
        by rewrite orb_true_r.
      - rewrite (bool_decide_eq_false_2 (id = ID pi)) by done. cbn.
        destruct (is_used used id); [done |]. cbn.
        apply bool_decide_ext. rewrite elem_of_cons. tauto. }
    destruct (Z.leb_spec playersPerMatch (len (pi :: added))) as [Hfull | Hshort].
    + unfold bind at 1.
      destruct (createMatch (pi :: added) w) as [m w1] eqn:Hcreate.
      apply createMatch_inv in Hcreate as (Hpl & err & outcomes & Hlen & Ht1 & _).
      unfold bind at 1, logger, emit, modify.
      intros Hrest. apply IH in Hrest as (gs & Ht & Hgs & Hnd & Hun).
      cbn [trace set_trace] in Ht.
      exists ((m, err, outcomes) :: gs). split; [| split; [| split]].
      * rewrite Ht, Ht1. cbn [fmap list_fmap concat group_events].
        by rewrite <- !app_assoc.
      * constructor; [| done]. cbn. rewrite Hpl. split; [done | lia].
      * unfold member_ids in *. cbn. rewrite Hpl. cbn.
        change (ID pi :: (ID <$> added) ++ ?l) with ((ID <$> pi :: added) ++ l).
        apply NoDup_app. split; [| split; [| done]].
        -- cbn. apply NoDup_cons. split; [| done].
           intros (c & Heq & Hc')%list_elem_of_fmap.
           rewrite Forall_forall in Hfresh. destruct (Hfresh c Hc') as [Hne _].
           congruence.
        -- intros id Hid Hid'. rewrite Forall_forall in Hun.
           specialize (Hun id Hid'). rewrite Hmark' in Hun.
           apply orb_false_iff in Hun as [_ Hun].
           by apply bool_decide_eq_false in Hun.
      * unfold member_ids in *. cbn. rewrite Hpl. cbn.
        change (ID pi :: (ID <$> added) ++ ?l) with ((ID <$> pi :: added) ++ l).
        apply Forall_app. split.
        -- cbn. constructor; [done |].
           apply Forall_fmap. eapply Forall_impl; [exact Hfresh |]. by intros c [_ ?].
        -- eapply Forall_impl; [exact Hun |]. cbn. intros id Hid.
           rewrite Hmark' in Hid. by apply orb_false_iff in Hid as [? _].
    + intros Hrest. apply IH in Hrest as (gs & Ht & Hgs & Hnd & Hun).
      exists gs. split; [done |]. split; [done |]. split; [done |].
      eapply Forall_impl; [exact Hun |]. intros id Hid. cbv beta in Hid.
      rewrite is_used_release in Hid. case_bool_decide as Hin.
      * apply elem_of_cons in Hin as [-> | Hin]; [done |].
        apply list_elem_of_fmap in Hin as (c & -> & Hc').
        rewrite Forall_forall in Hfresh. by destruct (Hfresh c Hc').
      * rewrite Hmark' in Hid. by apply orb_false_iff in Hid as [? _].
Qed.

End Marking.

Lemma built_app evs1 evs2 : built (evs1 ++ evs2) = built evs1 ++ built evs2.
Proof. apply omap_app. Qed.

Lemma built_removals players outcomes :
  built (concat (zip_with removal_events players outcomes)) = [].
Proof.
  revert outcomes. induction players as [| p players IH]; intros [| o outcomes];
    cbn; try done.
  rewrite built_app, IH. by destruct o.
Qed.

Lemma built_match_events m err outcomes : built (match_events m err outcomes) = [m].
Proof.
  unfold match_events. rewrite built_app, built_removals. by destruct err.
Qed.

Lemma built_groups region gameMode gs :
  built (concat (group_events region gameMode <$> gs)) = (λ g, g.1.1) <$> gs.
Proof.
  induction gs as [| [[m err] outcomes] gs IH]; [done |].
  cbn [fmap list_fmap concat]. rewrite built_app, IH.
  unfold group_events. by rewrite built_app, built_match_events.
Qed.

Lemma built_read_only evs : Forall read_only evs → built evs = [].
Proof.
  induction 1 as [| e evs He _ IH]; [done |].
  cbn. destruct e as [| [] ?]; cbn in *; done.
Qed.

(** The matches one pass of [ProcessQueue] builds. *)
Lemma ProcessQueue_built config region gameMode w :
  let run := ProcessQueue config region gameMode w in
  let ms := built (events_since w run.2) in
  Forall (λ m, anchored config (Players m) ∧
               len (Players m) = GetPlayersPerMatch gameMode) ms ∧
  NoDup (member_ids ms).
Proof.
  cbn. destruct (ProcessQueue config region gameMode w) as [r w'] eqn:H. cbn.
  unfold ProcessQueue in H. unfold bind at 1 in H.
  destruct (GetPlayersInRange region gameMode 0 Int64.max_int 100 w)
    as [r1 w1] eqn:H1.
  apply GetPlayersInRange_inv in H1 as (_ & _ & e1 & Ht1 & _).
  assert (built (events_since w w1) = []) as Hfetch.
  { rewrite (events_since_app _ _ _ Ht1). done. }
  destruct r1 as [players | e];
    [| unfold ret in H; simplify_eq; rewrite Hfetch; split; constructor].
  destruct (len players <? GetPlayersPerMatch gameMode);
    [unfold ret in H; simplify_eq; rewrite Hfetch; split; constructor |].
  unfold bind at 1 in H.
  destruct (formGroups config region gameMode (GetPlayersPerMatch gameMode)
              players players ∅ w1) as [[] w2] eqn:H2.
  unfold ret in H. simplify_eq.
  apply formGroups_groups in H2 as (gs & Ht & Hgs & Hnd & _);
    [| destruct (GetPlayersPerMatch_values gameMode); lia].
  rewrite Ht1, <- app_assoc in Ht.
  rewrite (events_since_app _ _ _ Ht), built_app, built_groups. cbn.
  split; [| done]. apply Forall_fmap. exact Hgs.
Qed.


(** X11: in one pass of [ProcessQueue] no player id is placed in two
    matches, nor twice in one match. *)
Theorem ProcessQueue_groups_disjoint config region gameMode w :
  let run := ProcessQueue config region gameMode w in
  NoDup (member_ids (built (events_since w run.2))).
Proof. apply ProcessQueue_built. Qed.



(** X13: [ProcessQueue] reports an error only when its one fetch of the
    partition fails; the error then reads [failed to get players: failed
    to get players in range: <cause>], nothing is stored or removed and
    the fetch is the only event.  When the fetch succeeds the result is
    nil whatever happens to the saves and removals that follow. *)
Theorem ProcessQueue_reports_fetch_only config region gameMode w :
  let run := ProcessQueue config region gameMode w in
  match mjoin (head (faults w)) with
  | Some e =>
      run.1 = Some ("failed to get players: failed to get players in range: " +:+ e) ∧
      same_store w run.2 ∧
      events_since w run.2
      = [Store (CallGetPlayersInRange (queueKey region gameMode) 0 Int64.max_int 100)
           (Some ("failed to get players in range: " +:+ e))]
  | None => run.1 = None
  end.
Proof.
  cbv zeta. unfold ProcessQueue, GetPlayersInRange, Redis.ZRangeByScore. munfold.
  unfold events_since, same_store.
  destruct (faults w) as [| [e |] fs]; cbn.
  - match goal with |- context [if ?b then _ else _] => destruct b end; [done |].
    by destruct (formGroups _ _ _ _ _ _ _ _).
  - by rewrite drop_app_length.
  - match goal with |- context [if ?b then _ else _] => destruct b end; [done |].
    by destruct (formGroups _ _ _ _ _ _ _ _).
Qed.

(** ** [ProcessQueue] on mutually compatible players *)

Lemma filter_from {A} (P : A → Prop) `{∀ x, Decision (P x)} (l : list A) (k : nat) :
  (∀ j x, l !! j = Some x → P x ↔ (k <= j)%nat) → filter P l = drop k l.
Proof.
  revert k. induction l as [| x l IH]; intros k Hk; [by destruct k |].
  destruct k as [| k].
  - rewrite filter_cons_True by (apply (Hk 0%nat); [done | lia]).
    cbn. f_equal. rewrite (IH 0%nat); [done |].
    intros j y Hy. split; [lia |]. intros _. apply (Hk (S j)); [done | lia].
  - rewrite filter_cons_False by (rewrite (Hk 0%nat); [lia | done]).
    cbn. apply IH. intros j y Hy. rewrite (Hk (S j)) by done. lia.
Qed.

Lemma filter_length_strict {A} (P Q : A → Prop) `{∀ x, Decision (P x)}
    `{∀ x, Decision (Q x)} (l : list A) (x : A) :
  (∀ y, Q y → P y) → x ∈ l → P x → ¬ Q x →
  (length (filter Q l) < length (filter P l))%nat.
Proof.
  intros HQP Hx HP HQ.
  assert (filter Q l = filter Q (filter P l)) as ->.
  { rewrite list_filter_filter. apply list_filter_iff.
    intros y. split; [by auto | by intros [? _]]. }
  apply length_filter_lt with x; [| done].
  apply list_elem_of_filter. done.
Qed.

Lemma unused_marks players used k : marks players used k → unused used players = drop k players.
Proof.
  intros Hm. apply filter_from. intros j p Hp. rewrite (Hm j p Hp).
  rewrite bool_decide_eq_false. lia.
Qed.

Lemma unused_insert used p players :
  ¬ (ID p ∈ ID <$> players) →
  unused (<[ID p := true]> used) players = unused used players.
Proof.
  intros Hp. induction players as [| q players IH]; [done |].
  unfold unused in *. rewrite !filter_cons, is_used_insert.
  rewrite bool_decide_eq_false_2.
  2: { intros Heq. apply Hp. cbn. rewrite Heq. left. }
  cbn [orb]. rewrite IH; [done |]. intros Hin. apply Hp. cbn. by right.
Qed.

Section Greedy.

Variable config : MatcherConfig.
Variable playersPerMatch : Z.
Hypothesis Hsize : 1 <= playersPerMatch.

(** The inner loop on candidates that all suit the anchor: the group is
    topped up with the first unmarked players. *)
Lemma fillGroup_first_unused candidates anchor rest used group' used' :
  NoDup (ID <$> candidates) →
  Forall (λ c, isCompatible config anchor c = true) candidates →
  fillGroup config playersPerMatch candidates (anchor :: rest) used = (group', used') →
  group' = anchor :: rest ++
           take (Z.to_nat (playersPerMatch - len (anchor :: rest)))
                (unused used candidates).
Proof.
  revert rest used.
  induction candidates as [| pj candidates IH]; intros rest used Hnd Hall;
    cbn [fillGroup].
  - intros ?; simplify_eq. unfold unused. cbn. by rewrite take_nil, app_nil_r.
  - apply NoDup_cons in Hnd as [Hpj Hnd]. apply Forall_cons in Hall as [Hc Hall].
    destruct (Z.ltb_spec (len (anchor :: rest)) playersPerMatch) as [Hroom | Hfull].
    2: { intros ?; simplify_eq.
         replace (Z.to_nat _) with 0%nat by lia. by rewrite app_nil_r. }
    destruct (is_used used (ID pj)) eqn:Hused.
    { intros Hfill. apply IH in Hfill; [| done | done].
      unfold unused in *. by rewrite filter_cons_False by congruence. }
    rewrite Hc. change ((anchor :: rest) ++ [pj]) with (anchor :: (rest ++ [pj])).
    intros Hfill. apply IH in Hfill; [| done | done].
    rewrite unused_insert in Hfill by done. rewrite Hfill.
    unfold unused. rewrite filter_cons_True by done.
    unfold len in *. cbn [length] in *. rewrite length_app in *. cbn [length] in *.
    replace (Z.to_nat (playersPerMatch - Z.of_nat (S (length rest))))
      with (S (Z.to_nat (playersPerMatch - Z.of_nat (S (length rest + 1))))) by lia.
    cbn [take]. by rewrite <- app_assoc.
Qed.

Variable players : list Player.
Hypothesis Hnodup : NoDup (ID <$> players).
Hypothesis Hcompat :
  ∀ a b, a ∈ players → b ∈ players → isCompatible config a b = true.

Lemma index_of_id j j' p p' :
  players !! j = Some p → players !! j' = Some p' → ID p = ID p' → j = j'.
Proof.
  intros Hj Hj' Heq. apply (NoDup_lookup (ID <$> players) j j' (ID p) Hnodup).
  - by rewrite list_lookup_fmap, Hj.
  - by rewrite list_lookup_fmap, Hj', Heq.
Qed.

Lemma ids_window j p a b :
  players !! j = Some p →
  ID p ∈ ID <$> take a (drop b players) ↔ (b <= j < b + a)%nat.
Proof.
  intros Hj. split.
  - intros (c & Heq & Hc)%list_elem_of_fmap.
    apply list_elem_of_lookup_1 in Hc as [j' Hj'].
    apply lookup_take_Some in Hj' as [Hj' Hlt]. rewrite lookup_drop in Hj'.
    rewrite (index_of_id _ _ _ _ Hj Hj' Heq). lia.
  - intros Hwin. apply list_elem_of_fmap. exists p. split; [done |].
    apply list_elem_of_lookup_2 with (j - b)%nat.
    apply lookup_take_Some. split; [| lia].
    rewrite lookup_drop. by replace (b + (j - b))%nat with j by lia.
Qed.

Lemma marks_window used used' a b :
  marks players used b →
  (∀ id, is_used used' id
         = is_used used id || bool_decide (id ∈ ID <$> take a (drop b players))) →
  marks players used' (b + a).
Proof.
  intros Hm Hmark j p Hp. rewrite Hmark, (Hm j p Hp).
  rewrite (bool_decide_ext _ _ (ids_window j p a b Hp)).
  repeat case_bool_decide; cbn; try done; exfalso; lia.
Qed.

Lemma marks_anchor used k pi :
  marks players used k → players !! k = Some pi →
  marks players (<[ID pi := true]> used) (S k).
Proof.
  intros Hm Hpi j p Hp. rewrite is_used_insert, (Hm j p Hp).
  destruct (decide (j = k)) as [-> | Hne].
  - simplify_eq. rewrite bool_decide_eq_true_2 by done. cbn.
    symmetry. apply bool_decide_eq_true_2. lia.
  - rewrite (bool_decide_eq_false_2 (ID p = ID pi)).
    2: { intros Heq. apply Hne. by apply (index_of_id _ _ _ _ Hp Hpi). }
    cbn. apply bool_decide_ext. lia.
Qed.

(** The outer loop from index [i] on, when the first [k] players are the
    marked ones: the matches are the successive blocks of the others. *)
Lemma formGroups_chunks region gameMode anchors i k used w w' :
  drop i players = anchors → marks players used k →
  (i <= k)%nat ∨ (length players - k < Z.to_nat playersPerMatch)%nat →
  formGroups config region gameMode playersPerMatch players anchors used w = (tt, w') →
  ∃ evs,
    trace w' = trace w ++ evs ∧
    length (built evs) = ((length players - k) / Z.to_nat playersPerMatch)%nat ∧
    concat (Players <$> built evs)
    = take ((length players - k) / Z.to_nat playersPerMatch
            * Z.to_nat playersPerMatch) (drop k players).
Proof.
  set (size := Z.to_nat playersPerMatch).
  assert (size ≠ 0)%nat as Hsize0 by (unfold size; lia).
  revert i k used w.
  induction anchors as [| pi anchors IH]; intros i k used w Hdrop Hm Hphase;
    cbn [formGroups].
  - unfold ret. intros ?; simplify_eq. exists []. rewrite app_nil_r.
    split; [done |].
    assert (length players <= i)%nat as Hi.
    { apply (f_equal length) in Hdrop. rewrite length_drop in Hdrop.
      cbn in Hdrop. lia. }
    assert (((length players - k) / size)%nat = 0%nat) as ->.
    { destruct Hphase as [Hik | Hfew]; [| by apply Nat.div_small].
      replace (length players - k)%nat with 0%nat by lia.
      by apply Nat.Div0.div_0_l. }
    done.
  - assert (players !! i = Some pi) as Hpi.
    { rewrite <- (Nat.add_0_r i), <- lookup_drop, Hdrop. done. }
    assert (drop (S i) players = anchors) as Hdrop'.
    { rewrite (drop_S _ _ _ Hpi) in Hdrop. by simplify_eq. }
    rewrite (Hm i pi Hpi). case_bool_decide as Hik.
    { apply (IH (S i) k); [done | done |].
      destruct Hphase; [left; lia | by right]. }
    destruct (fillGroup config playersPerMatch players [pi] (<[ID pi:=true]> used))
      as [group used'] eqn:Hfill.
    pose proof Hfill as Hexp. apply fillGroup_first_unused in Hexp; [| done |].
    2: { apply Forall_forall. intros c Hc. apply Hcompat; [| done].
         by apply list_elem_of_lookup_2 with i. }
    apply fillGroup_marks in Hfill as (added & Hg & _ & _ & Hunused & Hmark).
    rewrite Hg in Hexp. cbn [app] in *. injection Hexp as Hadded. subst group.
    replace (Z.to_nat (playersPerMatch - len [pi])) with (size - 1)%nat in Hadded
      by (unfold len, size; cbn; lia).
    destruct (decide (size <= length players - k)%nat) as [Hmany | Hfew].
    + assert (i = k) as -> by (destruct Hphase; lia).
      pose proof (marks_anchor used k pi Hm Hpi) as Hm1.
      rewrite (unused_marks _ _ _ Hm1) in Hadded.
      assert (length added = (size - 1)%nat) as Hlen.
      { rewrite Hadded, length_take, length_drop. lia. }
      assert (marks players used' (k + size)) as Hm2.
      { replace (k + size)%nat with (S k + (size - 1))%nat by lia.
        apply marks_window with (<[ID pi:=true]> used); [done |].
        intros id. by rewrite Hmark, Hadded. }
      destruct (Z.leb_spec playersPerMatch (len (pi :: added))) as [_ | Hshort];
        [| unfold len in Hshort; cbn in Hshort; lia].
      unfold bind at 1.
      destruct (createMatch (pi :: added) w) as [m w1] eqn:Hcreate.
      apply createMatch_inv in Hcreate as (Hpl & err & outcomes & _ & Ht1 & _).
      unfold bind at 1, logger, emit, modify.
      intros Hrest.
      apply (IH (S k) (k + size)%nat) in Hrest as (evs & Ht & Hcount & Hcat);
        [| done | done | left; lia].
      cbn [trace set_trace] in Ht. rewrite Ht1, <- !app_assoc in Ht.
      eexists. split; [exact Ht |].
      assert (((length players - k) / size)%nat
              = S ((length players - (k + size)) / size)) as ->.
      { replace (length players - k)%nat
          with ((length players - (k + size)) + 1 * size)%nat by lia.
        rewrite Nat.div_add by done. lia. }
      rewrite !built_app, built_match_events. cbn [built omap list_omap app length].
      split; [by rewrite Hcount |].
      cbn [fmap list_fmap concat]. rewrite Hcat, Hpl, Hadded.
      rewrite <- drop_drop.
      replace (S ((length players - (k + size)) / size) * size)%nat
        with (size + (length players - (k + size)) / size * size)%nat by lia.
      rewrite <- take_take_drop. f_equal.
      rewrite (drop_S _ _ _ Hpi).
      replace size with (S (size - 1)) at 2 by lia. done.
    + assert (length added < length players - k - 0)%nat as Hlen.
      { rewrite Hadded, length_take.
        assert (length (unused (<[ID pi:=true]> used) players)
                < length (unused used players))%nat as Hlt.
        { apply filter_length_strict with pi.
          - intros p. rewrite is_used_insert. by intros [_ ?]%orb_false_iff.
          - by apply list_elem_of_lookup_2 with i.
          - rewrite (Hm i pi Hpi). by apply bool_decide_eq_false_2.
          - rewrite is_used_insert. by rewrite bool_decide_eq_true_2. }
        rewrite (unused_marks _ _ _ Hm), length_drop in Hlt. lia. }
      destruct (Z.leb_spec playersPerMatch (len (pi :: added))) as [Hfull | _];
        [unfold len in Hfull; cbn in Hfull; lia |].
      apply (IH (S i) k); [done | | right; lia].
      intros j p Hp. rewrite is_used_release, <- (Hm j p Hp).
      case_bool_decide as Hin.
      * apply elem_of_cons in Hin as [Heq | Hin].
        -- rewrite Heq, (Hm i pi Hpi). by rewrite bool_decide_eq_false_2.
        -- apply list_elem_of_fmap in Hin as (c & -> & Hc).
           rewrite Forall_forall in Hunused. specialize (Hunused c Hc).
           rewrite is_used_insert in Hunused.
           by apply orb_false_iff in Hunused as [_ ?].
      * rewrite Hmark, is_used_insert.
        rewrite (bool_decide_eq_false_2 (ID p = ID pi)).
        2: { intros Heq. apply Hin. cbn. rewrite Heq. left. }
        rewrite (bool_decide_eq_false_2 (ID p ∈ ID <$> added)).
        2: { intros Hin'. apply Hin. cbn. by right. }
        cbn. by rewrite orb_false_r.
Qed.

End Greedy.

(** X14: when the players [ProcessQueue] fetches have distinct ids and suit
    one another pairwise, the pass cuts the fetched list, in queue order,
    into consecutive blocks of the match size: it builds as many matches as
    the size goes into the number of players, their members are the
    players in fetched order, and only the remainder at the end is left
    out.  Failing saves and removals do not change the grouping. *)
Theorem ProcessQueue_blocks config region gameMode w players :
  (GetPlayersInRange region gameMode 0 Int64.max_int 100 w).1 = Ok players →
  NoDup (ID <$> players) →
  (∀ a b, a ∈ players → b ∈ players → isCompatible config a b = true) →
  let run := ProcessQueue config region gameMode w in
  let ms := built (events_since w run.2) in
  let size := Z.to_nat (GetPlayersPerMatch gameMode) in
  length ms = (length players / size)%nat ∧
  concat (Players <$> ms) = take (length players / size * size) players ∧
  Forall (λ m, length (Players m) = size) ms.
Proof.
  intros Hfetch Hnodup Hcompat run ms size.
  assert (1 <= GetPlayersPerMatch gameMode) as Hsize
    by (destruct (GetPlayersPerMatch_values gameMode); lia).
  split; [| split].
  3: { destruct (ProcessQueue_built config region gameMode w) as [Hall _].
       eapply Forall_impl; [exact Hall |]. cbn. intros m [_ Hlen].
       unfold size. rewrite <- Hlen. unfold len. lia. }
  all: subst ms run; unfold ProcessQueue; unfold bind at 1;
    destruct (GetPlayersInRange region gameMode 0 Int64.max_int 100 w)
      as [r1 w1] eqn:H1; cbn in Hfetch; subst r1;
    apply GetPlayersInRange_inv in H1 as (_ & _ & e1 & Ht1 & _);
    (destruct (Z.ltb_spec (len players) (GetPlayersPerMatch gameMode))
      as [Hfew | Hmany];
     [unfold ret; cbn; rewrite (events_since_app _ _ _ Ht1); cbn;
      rewrite Nat.div_small by (unfold len, size in *; lia); done |]);
    unfold bind at 1;
    destruct (formGroups config region gameMode (GetPlayersPerMatch gameMode)
                players players ∅ w1) as [[] w2] eqn:H2;
    apply (formGroups_chunks config _ Hsize players Hnodup Hcompat
             region gameMode players 0%nat 0%nat) in H2
      as (evs & Ht & Hcount & Hcat);
    [| done | by intros j p _ | left; lia];
    rewrite Ht1, <- app_assoc in Ht; unfold ret; cbn [snd];
    rewrite (events_since_app _ _ _ Ht), built_app; cbn [built omap list_omap app];
    rewrite Nat.sub_0_r in *; done.
Qed.

Lemma ProcessQueue_blocks_witness :
  let run := ProcessQueue DefaultMatcherConfig "EU" "1v1" (duel_world []) in
  concat (Players <$> built (events_since (duel_world []) run.2)) = [duel_p; duel_q].
Proof.
  refine (proj1 (proj2 (ProcessQueue_blocks DefaultMatcherConfig "EU" "1v1"
                          (duel_world []) [duel_p; duel_q] eq_refl _ _))).
  - apply (bool_decide_unpack (NoDup (ID <$> [duel_p; duel_q]))).
    vm_compute. exact I.
  - intros a b Ha Hb.
    apply elem_of_cons in Ha as [-> | Ha];
      [| apply elem_of_cons in Ha as [-> | Ha]; [| by apply elem_of_nil in Ha]];
      (apply elem_of_cons in Hb as [-> | Hb];
       [| apply elem_of_cons in Hb as [-> | Hb]; [| by apply elem_of_nil in Hb]]);
      vm_compute; reflexivity.
Defined.

(** ** Joining the queue *)

Lemma playerKey_inj id id' : playerKey id = playerKey id' → id = id'.
Proof. unfold playerKey. cbn. intros H. by simplify_eq. Qed.

Section Joining.

Variable encoding_le : Player → Player → bool.

Lemma elem_of_zinsert p q l : q ∈ zinsert encoding_le p l ↔ q = p ∨ q ∈ l.
Proof.
  induction l as [| x l IH]; cbn.
  - rewrite list_elem_of_singleton, elem_of_nil. tauto.
  - destruct (zbefore encoding_le p x).
    + by rewrite elem_of_cons.
    + rewrite !elem_of_cons, IH. tauto.
Qed.

Lemma length_zinsert p l : length (zinsert encoding_le p l) = S (length l).
Proof.
  induction l as [| x l IH]; cbn; [done |].
  destruct (zbefore encoding_le p x); cbn; by rewrite ?IH.
Qed.

Lemma zinsert_ascending p l : ascending l → ascending (zinsert encoding_le p l).
Proof.
  unfold ascending. induction 1 as [| x l Hl IH Hx]; cbn.
  - repeat constructor.
  - destruct (zbefore encoding_le p x) eqn:Hb; unfold zbefore in Hb.
    + assert (Redis.score p <= Redis.score x) as Hpx.
      { apply orb_true_iff in Hb as [Hb | Hb]; [lia |].
        apply andb_true_iff in Hb as [Hb _]. lia. }
      constructor; [by constructor |]. constructor; [done |].
      eapply Forall_impl; [exact Hx |]. cbn. lia.
    + assert (Redis.score x <= Redis.score p) as Hxp.
      { apply orb_false_iff in Hb as [Hb _]. lia. }
      constructor; [done |]. apply Forall_forall. intros q Hq.
      apply elem_of_zinsert in Hq as [-> | Hq]; [done |].
      rewrite Forall_forall in Hx. by apply Hx.
Qed.


(** The effect of a join that meets no store failure. *)
Lemma AddPlayerToQueue_ok n player w :
  encodable (JoinedAt player) = true →
  available (S (S n)) w →
  let key := queueKey (Region player) (GameMode player) in
  let l := Redis.members key w in
  ∃ w',
    AddPlayerToQueue encoding_le player w = (None, w') ∧
    zsets w'
    = <[key := if bool_decide (player ∈ l) then l else zinsert encoding_le player l]>
        (zsets w) ∧
    strs w' = <[playerKey (ID player) := player]> (strs w) ∧
    saved w' = saved w ∧
    faults w' = drop 2 (faults w) ∧
    available n w'.
Proof.
  intros Henc Hav key l. unfold available in *.
  unfold AddPlayerToQueue, ZAdd, SetEX. rewrite Henc. cbn [negb]. munfold.
  destruct (faults w) as [| f1 [| f2 fs]] eqn:Hf; cbn in *.
  - eexists. split; [reflexivity |]. cbn. rewrite ?Hf. cbn.
    repeat split; try done. rewrite take_nil. constructor.
  - apply Forall_cons in Hav as [-> _].
    eexists. split; [reflexivity |]. cbn. rewrite ?Hf. cbn.
    repeat split; try done. rewrite take_nil. constructor.
  - apply Forall_cons in Hav as [-> Hav]. apply Forall_cons in Hav as [-> Hav].
    eexists. split; [reflexivity |]. cbn. rewrite ?Hf. cbn.
    repeat split; done.
Qed.

Lemma members_after_add player l' key' w w' :
  zsets w' = <[queueKey (Region player) (GameMode player) := l']> (zsets w) →
  Redis.members key' w'
  = (if decide (queueKey (Region player) (GameMode player) = key') then l'
     else Redis.members key' w).
Proof.
  intros Hz. unfold Redis.members. rewrite Hz, lookup_insert.
  by case_decide.
Qed.

(** A record whose join instant cannot be encoded is refused before any
    store command. *)
Lemma AddPlayerToQueue_unencodable player w :
  encodable (JoinedAt player) = false →
  AddPlayerToQueue encoding_le player w
  = (Some ("failed to marshal player: " +:+ marshal_error), w).
Proof. intros Henc. unfold AddPlayerToQueue. by rewrite Henc. Qed.

End Joining.

Lemma GetPlayerByID_found playerID p w :
  strs w !! playerKey playerID = Some p → available 1 w →
  (GetPlayerByID playerID w).1 = Ok p.
Proof.
  intros Hkey Hav. unfold GetPlayerByID. unfold bind at 1.
  destruct (Get_ok _ (playerKey playerID) _ Hav) as [-> _]. by rewrite Hkey.
Qed.

Lemma GetQueueSize_ok region gameMode w :
  available 1 w →
  (GetQueueSize region gameMode w).1
  = Ok (len (Redis.members (queueKey region gameMode) w)).
Proof.
  intros Hav. unfold GetQueueSize, ZCard. unfold bind at 1.
  by destruct (command_ok _ _ Hav) as [-> _].
Qed.

Lemma ascending_sublist l1 l2 : sublist l1 l2 → ascending l2 → ascending l1.
Proof.
  unfold ascending. induction 1 as [| x l1 l2 Hsub IH | x l1 l2 Hsub IH];
    intros Hl2; [done | |].
  - apply StronglySorted_inv in Hl2 as [Hl2 Hx]. constructor; [by apply IH |].
    rewrite Forall_forall in *. intros y Hy. apply Hx.
    by eapply elem_of_sublist.
  - apply StronglySorted_inv in Hl2 as [Hl2 _]. by apply IH.
Qed.

(** Below 2^53 in magnitude the order of the scores is that of the
    ratings. *)
Lemma ascending_ratings l :
  ascending l → Forall (λ p, Z.abs (Rating p) < 2 ^ 53) l →
  StronglySorted (λ p q, Rating p <= Rating q) l.
Proof.
  unfold ascending. induction 1 as [| x l Hl IH Hx]; intros Hsmall;
    [constructor |].
  apply Forall_cons in Hsmall as [Hsx Hsl]. constructor; [by apply IH |].
  rewrite Forall_forall in *. intros y Hy. specialize (Hx y Hy).
  unfold Redis.score in Hx. rewrite !to_float64_exact in Hx; [done | | done].
  by apply Hsl.
Qed.



Lemma RemovePlayerFromQueue_zsets playerID w :
  let w' := (RemovePlayerFromQueue playerID w).2 in
  zsets w' = zsets w ∨
  ∃ p, zsets w' = alter (filter (λ q, q ≠ p)) (queueKey (Region p) (GameMode p))
                    (zsets w).
Proof.
  unfold RemovePlayerFromQueue, Redis.Get, Redis.ZRem, Redis.Del. munfold.
  repeat case_match; simplify_eq; cbn; eauto.
Qed.

Lemma AddPlayerToQueue_zsets encoding_le player w :
  let key := queueKey (Region player) (GameMode player) in
  let l := Redis.members key w in
  let w' := (AddPlayerToQueue encoding_le player w).2 in
  zsets w' = zsets w ∨
  zsets w' = <[key := if bool_decide (player ∈ l) then l
                      else zinsert encoding_le player l]> (zsets w).
Proof.
  cbv zeta. destruct (encodable (JoinedAt player)) eqn:Henc; cycle 1.
  { rewrite AddPlayerToQueue_unencodable by done. by left. }
  unfold AddPlayerToQueue, ZAdd, SetEX. rewrite Henc. cbn [negb]. munfold.
  destruct (faults w) as [| [e |] [| [e' |] fs]]; cbn; eauto.
Qed.

(** X16: the queue stays sorted.  If every sorted set lists its members by
    ascending float64 score (the order Redis keeps), it still does after
    [AddPlayerToQueue] and after [RemovePlayerFromQueue], whatever their
    outcome, and the players [GetPlayersInRange] returns are in ascending
    score; they are in ascending rating when their ratings are below 2^53
    in magnitude. *)
Theorem queue_stays_sorted encoding_le w :
  sorted_store w →
  (∀ player, sorted_store (AddPlayerToQueue encoding_le player w).2) ∧
  (∀ playerID, sorted_store (RemovePlayerFromQueue playerID w).2) ∧
  (∀ region gameMode lo hi limit players,
     (GetPlayersInRange region gameMode lo hi limit w).1 = Ok players →
     ascending players ∧
     (Forall (λ p, Z.abs (Rating p) < 2 ^ 53) players →
      StronglySorted (λ p q, Rating p <= Rating q) players)).
Proof.
  intros Hsorted. split; [| split].
  - intros player key'.
    destruct (AddPlayerToQueue_zsets encoding_le player w) as [Hz | Hz].
    + unfold Redis.members. rewrite Hz. apply Hsorted.
    + rewrite (members_after_add _ _ _ _ _ Hz). clear Hz.
      case_decide; [| apply Hsorted].
      case_bool_decide; [apply Hsorted |]. apply zinsert_ascending, Hsorted.
  - intros playerID key'.
    destruct (RemovePlayerFromQueue_zsets playerID w) as [Hz | [p Hz]].
    + unfold Redis.members. rewrite Hz. apply Hsorted.
    + rewrite (members_filtered _ _ _ _ _ Hz). clear Hz.
      case_decide; [| apply Hsorted].
      eapply ascending_sublist; [apply sublist_filter | apply Hsorted].
  - intros region gameMode lo hi limit players Hfetch.
    destruct (GetPlayersInRange region gameMode lo hi limit w) as [r w1] eqn:H.
    cbn in Hfetch. subst r.
    apply GetPlayersInRange_inv in H as (_ & _ & _ & _ & _ & ->).
    assert (ascending
              (Redis.range lo hi limit
                 (Redis.members (queueKey region gameMode) w))) as Hasc.
    { eapply ascending_sublist; [apply range_sublist | apply Hsorted]. }
    split; [done |]. by apply ascending_ratings.
Qed.

Lemma queue_stays_sorted_witness :
  ascending (Redis.members (queueKey "EU" "1v1")
               (AddPlayerToQueue arrival_le duel_r (duel_world [])).2).
Proof.
  refine (proj1 (queue_stays_sorted arrival_le (duel_world []) _) duel_r _).
  intros key. unfold Redis.members. cbn.
  destruct (decide (key = queueKey "EU" "1v1")) as [-> | Hne].
  - vm_compute. repeat constructor; discriminate.
  - rewrite lookup_singleton_ne by done. constructor.
Defined.

(** X17: the size of the queue after a join.  For a record that encodes
    (its join instant lies in the years 0 to 9999) and with the store
    healthy, [GetQueueSize] on the partition of the player then gives one
    more than the number of members before, or the same number when this
    very record was already a member; the other sorted sets keep their
    size. *)
Theorem AddPlayerToQueue_size encoding_le player w :
  encodable (JoinedAt player) = true →
  available 3 w →
  let key := queueKey (Region player) (GameMode player) in
  let add := AddPlayerToQueue encoding_le player w in
  (GetQueueSize (Region player) (GameMode player) add.2).1
  = Ok (len (Redis.members key w)
        + (if bool_decide (player ∈ Redis.members key w) then 0 else 1)) ∧
  (∀ region gameMode,
     queueKey region gameMode ≠ key →
     (GetQueueSize region gameMode add.2).1
     = Ok (len (Redis.members (queueKey region gameMode) w))).
Proof.
  intros Henc Hav key add. subst add key.
  destruct (AddPlayerToQueue_ok encoding_le 1 player w Henc Hav)
    as (w' & -> & Hz & _ & _ & _ & Hav'). cbn [fst snd].
  split.
  - rewrite GetQueueSize_ok by done. rewrite (members_after_add _ _ _ _ _ Hz).
    clear Hz. rewrite decide_True by done. f_equal.
    case_bool_decide; [lia |]. unfold len. rewrite length_zinsert. lia.
  - intros region gameMode Hne.
    rewrite GetQueueSize_ok by done. rewrite (members_after_add _ _ _ _ _ Hz).
    clear Hz. by rewrite decide_False by done.
Qed.

Lemma AddPlayerToQueue_size_witness :
  (GetQueueSize "EU" "1v1" (AddPlayerToQueue arrival_le duel_r (duel_world [])).2).1
  = Ok 3.
Proof.
  refine (proj1 (AddPlayerToQueue_size arrival_le duel_r (duel_world []) _ _)).
  - reflexivity.
  - unfold available. vm_compute. constructor.
Defined.



(** X19: the three ways a join fails.  When the record does not encode
    (its join instant lies outside the years 0 to 9999) the error is
    [failed to marshal player: <cause>], no store command is issued and
    nothing has changed.  For a record that encodes: when the [ZADD] fails
    the error is [failed to add player to queue: <cause>] and nothing has
    changed; when the [ZADD] succeeds and the [SET] fails the error is
    [failed to set player TTL: <cause>], but the record stays in the sorted
    set without its player key: if the key was free, a following
    [RemovePlayerFromQueue] of that id answers [player not found] and
    leaves the record queued.  A join that reports an error has failed in
    one of these three ways. *)
Theorem AddPlayerToQueue_failures encoding_le player w :
  let key := queueKey (Region player) (GameMode player) in
  let add := AddPlayerToQueue encoding_le player w in
  (encodable (JoinedAt player) = false →
   add.1 = Some ("failed to marshal player: " +:+ marshal_error) ∧
   add.2 = w) ∧
  (∀ e fs,
     encodable (JoinedAt player) = true → faults w = Some e :: fs →
     add.1 = Some ("failed to add player to queue: " +:+ e) ∧
     same_store w add.2 ∧ events_since w add.2 = []) ∧
  (∀ e fs,
     encodable (JoinedAt player) = true → faults w = None :: Some e :: fs →
     add.1 = Some ("failed to set player TTL: " +:+ e) ∧
     player ∈ Redis.members key add.2 ∧
     strs add.2 = strs w ∧
     (strs w !! playerKey (ID player) = None → available 1 add.2 →
      let leave := RemovePlayerFromQueue (ID player) add.2 in
      leave.1 = Some "player not found" ∧
      player ∈ Redis.members key leave.2)) ∧
  (∀ err,
     add.1 = Some err →
     (encodable (JoinedAt player) = false ∧
      err = "failed to marshal player: " +:+ marshal_error) ∨
     (∃ e fs, faults w = Some e :: fs ∧
              err = "failed to add player to queue: " +:+ e) ∨
     (∃ e fs, faults w = None :: Some e :: fs ∧
              err = "failed to set player TTL: " +:+ e)).
Proof.
  cbv zeta. split; [| split; [| split]].
  - intros Henc. by rewrite AddPlayerToQueue_unencodable.
  - intros e fs Henc Hf.
    unfold AddPlayerToQueue, ZAdd, SetEX, events_since. rewrite Henc.
    cbn [negb]. munfold.
    rewrite Hf. cbn. by rewrite drop_all.
  - intros e fs Henc Hf.
    assert (∃ w1, AddPlayerToQueue encoding_le player w
                  = (Some ("failed to set player TTL: " +:+ e), w1) ∧
                  strs w1 = strs w ∧
                  player ∈ Redis.members
                             (queueKey (Region player) (GameMode player)) w1)
      as (w1 & -> & Hs & Hin).
    { unfold AddPlayerToQueue, ZAdd, SetEX. rewrite Henc. cbn [negb]. munfold.
      rewrite Hf. cbn.
      eexists. split; [reflexivity |]. split; [done |].
      unfold Redis.members. cbn. rewrite lookup_insert_eq. cbn.
      case_bool_decide; [done |]. apply elem_of_zinsert. by left. }
    cbn [fst snd]. split; [done |]. split; [done |]. split; [done |].
    intros Hfree Hav. rewrite <- Hs in Hfree.
    destruct (RemovePlayerFromQueue_missing (ID player) w1 Hfree Hav)
      as (w2 & -> & (Hz & _) & _). cbn [fst snd].
    split; [done |]. unfold Redis.members in *. by rewrite Hz.
  - intros err.
    destruct (encodable (JoinedAt player)) eqn:Henc; cycle 1.
    { rewrite AddPlayerToQueue_unencodable by done. cbn. intros [= <-].
      by left. }
    unfold AddPlayerToQueue, ZAdd, SetEX. rewrite Henc. cbn [negb]. munfold.
    destruct (faults w) as [| [e |] [| [e' |] fs]]; cbn; intros [= <-];
      eauto 10.
Qed.

Lemma AddPlayerToQueue_failures_witness :
  let add := AddPlayerToQueue arrival_le duel_r (duel_world [None; Some "down"]) in
  let far := mkPlayer "r" 1520 "EU" "1v1" year_10000 1 in
  (add.1 = Some "failed to set player TTL: down" ∧
   (RemovePlayerFromQueue "r" add.2).1 = Some "player not found") ∧
  (AddPlayerToQueue arrival_le far (duel_world [])).2 = duel_world [].
Proof.
  intros add far. split.
  - destruct (proj1 (proj2 (proj2 (AddPlayerToQueue_failures arrival_le duel_r
                                     (duel_world [None; Some "down"]))))
                "down" [] eq_refl eq_refl)
      as (Hr & _ & _ & Horphan).
    split; [exact Hr |]. apply Horphan.
    + reflexivity.
    + unfold available. vm_compute. constructor.
  - apply (proj1 (AddPlayerToQueue_failures arrival_le far (duel_world []))).
    reflexivity.
Defined.

(** ** The HTTP handlers *)

Lemma respondError_run code message err w :
  respondError code message err w
  = ({| status := code;
        body := Object (match err with
                        | Some e => <["details" := VString e]>
                                      {[ "error" := VString message ]}
                        | None => {[ "error" := VString message ]}
                        end) |},
     set_trace (trace w ++
                [Log Warn "Request error"
                   ([("status", pretty code); ("message", message)]
                    ++ match err with Some e => [("error", e)] | None => [] end)])
       w).
Proof. unfold respondError. munfold. by destruct err. Qed.

(** With the clock past the year 9999 the record of a join does not
    encode: the request is answered 500 and nothing is queued. *)
Lemma JoinQueue_far_clock :
  let req := {| req_PlayerID := "chosen"; req_Rating := 1520; req_Region := "EU";
                req_GameMode := "1v1"; req_PlayerLevel := 1 |} in
  let w := {| zsets := zsets (duel_world []);
              strs := strs (duel_world []);
              saved := [];
              faults := [];
              clock := λ _, year_10000;
              ticks := 0;
              trace := [] |} in
  let run := JoinQueue arrival_le "r" (Ok req) w in
  available 3 w ∧
  status run.1 = StatusInternalServerError ∧
  same_store w run.2.
Proof. cbv zeta. split; [| by vm_compute]. unfold available. by vm_compute. Qed.

(** X20: a join request that decodes, with the store healthy and the clock
    reading an instant that encodes (a year from 0 to 9999, as the clock
    of a running system does), is answered 200 with the generated id, and
    the record queued under that id carries the rating, region, mode and
    level of the request as they were sent and the instant of the join;
    the [player_id] of the request is not used. *)
Theorem JoinQueue_queues_fresh_record encoding_le uuid req w :
  encodable (clock w (ticks w)) = true →
  available 3 w →
  let run := JoinQueue encoding_le uuid (Ok req) w in
  let player := {| ID := uuid;
                   Rating := req_Rating req;
                   Region := req_Region req;
                   GameMode := req_GameMode req;
                   JoinedAt := clock w (ticks w);
                   PlayerLevel := req_PlayerLevel req |} in
  status run.1 = StatusOK ∧
  body run.1 = Object {[ "player_id" := VString uuid;
                         "status" := VString "queued";
                         "message" := VString "Player added to queue" ]} ∧
  (GetPlayerByID uuid run.2).1 = Ok player ∧
  player ∈ Redis.members (queueKey (req_Region req) (req_GameMode req)) run.2.
Proof.
  intros Henc Hav run player. subst run.
  destruct (AddPlayerToQueue_ok encoding_le 1 player
              (set_ticks (S (ticks w)) w) Henc Hav)
    as (w1 & Hadd & Hz & Hs & _ & _ & Hav1).
  assert (∃ w2, JoinQueue encoding_le uuid (Ok req) w
                = ({| status := StatusOK;
                      body := Object {[ "player_id" := VString uuid;
                                        "status" := VString "queued";
                                        "message" := VString "Player added to queue" ]} |},
                   w2) ∧
                zsets w2 = zsets w1 ∧ strs w2 = strs w1 ∧ faults w2 = faults w1)
    as (w2 & -> & Hz2 & Hs2 & Hf2).
  { unfold JoinQueue, NewPlayer, time_Now.
    unfold bind at 1. unfold bind at 1. unfold bind at 1.
    unfold gets, modify, ret at 1. unfold bind at 1. unfold ret at 1.
    fold player. unfold bind at 1. rewrite Hadd. unfold respondJSON. munfold.
    eexists. split; [reflexivity |]. done. }
  cbn [fst snd status body].
  split; [done |]. split; [done |]. split.
  - apply GetPlayerByID_found.
    + by rewrite Hs2, Hs, lookup_insert_eq.
    + unfold available in *. by rewrite Hf2.
  - unfold Redis.members in *. rewrite Hz2, Hz.
    change (Region player) with (req_Region req).
    change (GameMode player) with (req_GameMode req).
    rewrite lookup_insert_eq. cbn [default]. clear Hz.
    case_bool_decide; [done |]. apply elem_of_zinsert. by left.
Qed.

Lemma JoinQueue_queues_fresh_record_witness :
  let req := {| req_PlayerID := "chosen"; req_Rating := 1520; req_Region := "EU";
                req_GameMode := "1v1"; req_PlayerLevel := 1 |} in
  let run := JoinQueue arrival_le "r" (Ok req) (duel_world []) in
  (GetPlayerByID "r" run.2).1 = Ok (mkPlayer "r" 1520 "EU" "1v1" Second 1).
Proof.
  intros req run.
  refine (proj1 (proj2 (proj2 (JoinQueue_queues_fresh_record arrival_le "r" req
                                 (duel_world []) _ _)))).
  - reflexivity.
  - unfold available. vm_compute. constructor.
Defined.

(** X21: the rejections of a join.  A body that does not decode is answered
    400 without any store command.  With the clock reading an instant that
    encodes (a year from 0 to 9999, as the clock of a running system
    does): a failing [ZADD] is answered 500 with nothing changed; a failing
    [SET] after the [ZADD] is answered 500 as well, with no [player_id] in
    the body, while the record stays in the sorted set.  Were the clock to
    read an instant that does not encode, the request would be answered
    500 for the marshalling failure, without any store command. *)
Theorem JoinQueue_rejections encoding_le uuid w :
  (∀ e,
     let run := JoinQueue encoding_le uuid (Err e) w in
     status run.1 = StatusBadRequest ∧
     body run.1 = Object (<["details" := VString e]>
                            {[ "error" := VString "Invalid request body" ]}) ∧
     same_store w run.2 ∧ faults run.2 = faults w) ∧
  (∀ req e fs,
     encodable (clock w (ticks w)) = true →
     faults w = Some e :: fs →
     let run := JoinQueue encoding_le uuid (Ok req) w in
     status run.1 = StatusInternalServerError ∧
     body run.1
     = Object (<["details" := VString ("failed to add player to queue: " +:+ e)]>
                 {[ "error" := VString "Failed to add player to queue" ]}) ∧
     same_store w run.2) ∧
  (∀ req e fs,
     encodable (clock w (ticks w)) = true →
     faults w = None :: Some e :: fs →
     let run := JoinQueue encoding_le uuid (Ok req) w in
     status run.1 = StatusInternalServerError ∧
     body run.1
     = Object (<["details" := VString ("failed to set player TTL: " +:+ e)]>
                 {[ "error" := VString "Failed to add player to queue" ]}) ∧
     {| ID := uuid;
        Rating := req_Rating req;
        Region := req_Region req;
        GameMode := req_GameMode req;
        JoinedAt := clock w (ticks w);
        PlayerLevel := req_PlayerLevel req |}
     ∈ Redis.members (queueKey (req_Region req) (req_GameMode req)) run.2) ∧
  (∀ req,
     encodable (clock w (ticks w)) = false →
     let run := JoinQueue encoding_le uuid (Ok req) w in
     status run.1 = StatusInternalServerError ∧
     body run.1
     = Object (<["details" := VString ("failed to marshal player: "
                                       +:+ marshal_error)]>
                 {[ "error" := VString "Failed to add player to queue" ]}) ∧
     same_store w run.2 ∧ faults run.2 = faults w).
Proof.
  split; [| split; [| split]].
  - intros e. cbv zeta. unfold JoinQueue. by rewrite respondError_run.
  - intros req e fs Henc Hf. cbv zeta.
    unfold JoinQueue, NewPlayer, time_Now, AddPlayerToQueue, ZAdd, SetEX.
    unfold respondError. munfold. cbn. rewrite Henc. cbn. rewrite Hf. cbn. done.
  - intros req e fs Henc Hf. cbv zeta.
    unfold JoinQueue, NewPlayer, time_Now, AddPlayerToQueue, ZAdd, SetEX.
    unfold respondError. munfold. cbn. rewrite Henc. cbn. rewrite Hf. cbn.
    split; [done |]. split; [done |].
    unfold Redis.members. cbn. rewrite lookup_insert_eq. cbn.
    case_bool_decide; [done |]. apply elem_of_zinsert. by left.
  - intros req Henc. cbv zeta.
    unfold JoinQueue, NewPlayer, time_Now, AddPlayerToQueue.
    unfold respondError. munfold. cbn. rewrite Henc. cbn. done.
Qed.

Lemma JoinQueue_rejections_witness :
  let req := {| req_PlayerID := "chosen"; req_Rating := 1520; req_Region := "EU";
                req_GameMode := "1v1"; req_PlayerLevel := 1 |} in
  let run := JoinQueue arrival_le "r" (Ok req) (duel_world [None; Some "down"]) in
  status run.1 = StatusInternalServerError ∧
  mkPlayer "r" 1520 "EU" "1v1" Second 1 ∈ Redis.members (queueKey "EU" "1v1") run.2.
Proof.
  intros req run.
  destruct (proj1 (proj2 (proj2 (JoinQueue_rejections arrival_le "r"
                                   (duel_world [None; Some "down"]))))
              req "down" [] eq_refl eq_refl) as (Hstatus & _ & Hin).
  split; [exact Hstatus | exact Hin].
Defined.

(** X22: leaving through the handler.  An empty id is answered 400 without
    any store command.  Otherwise, with the store healthy, a player whose
    key exists is answered 200 and is then neither under its key nor in
    the sorted set of its record; an unknown id is answered 404 with the
    detail [player not found] and nothing changes.  A store outage at the
    lookup is answered 404 as well. *)
Theorem LeaveQueue_outcomes playerID w :
  let run := LeaveQueue playerID w in
  (playerID = "" →
   status run.1 = StatusBadRequest ∧ same_store w run.2 ∧ faults run.2 = faults w) ∧
  (playerID ≠ "" → available 3 w →
   match strs w !! playerKey playerID with
   | Some p =>
       status run.1 = StatusOK ∧
       body run.1 = Object {[ "player_id" := VString playerID;
                              "status" := VString "removed";
                              "message" := VString "Player removed from queue" ]} ∧
       strs run.2 !! playerKey playerID = None ∧
       ¬ (p ∈ Redis.members (queueKey (Region p) (GameMode p)) run.2)
   | None =>
       status run.1 = StatusNotFound ∧
       body run.1
       = Object (<["details" := VString "player not found"]>
                   {[ "error" := VString "Failed to remove player from queue" ]}) ∧
       same_store w run.2
   end) ∧
  (playerID ≠ "" → ∀ e fs, faults w = Some e :: fs →
   status run.1 = StatusNotFound ∧
   body run.1
   = Object (<["details" := VString ("failed to get player: " +:+ e)]>
               {[ "error" := VString "Failed to remove player from queue" ]}) ∧
   same_store w run.2).
Proof.
  cbv zeta. destruct (LeaveQueue playerID w) as [resp w'] eqn:Hrun.
  cbn [fst snd]. unfold LeaveQueue in Hrun. split; [| split].
  - intros ->. cbn [String.eqb] in Hrun. rewrite respondError_run in Hrun.
    by simplify_eq.
  - intros Hid Hav. apply String.eqb_neq in Hid. rewrite Hid in Hrun.
    unfold bind at 1 in Hrun.
    destruct (strs w !! playerKey playerID) as [p |] eqn:Hkey.
    + destruct (RemovePlayerFromQueue_ok playerID p w Hkey Hav)
        as (w1 & Hrm & Hs & Hz & _ & _).
      rewrite Hrm in Hrun. unfold respondJSON in Hrun. munfold. simplify_eq.
      cbn [status body].
      split; [done |]. split; [reflexivity |]. split.
      * cbn. by rewrite Hs, lookup_delete_eq.
      * unfold Redis.members. cbn [zsets set_trace]. rewrite Hz, lookup_alter.
        rewrite decide_True by done.
        destruct (zsets w !! _); cbn; [| apply not_elem_of_nil].
        rewrite list_elem_of_filter. tauto.
    + destruct (RemovePlayerFromQueue_missing playerID w Hkey
                  (available_le 1 3 w ltac:(lia) Hav)) as (w1 & Hrm & Hst & _).
      rewrite Hrm in Hrun. rewrite respondError_run in Hrun. by simplify_eq.
  - intros Hid e fs Hf. apply String.eqb_neq in Hid. rewrite Hid in Hrun.
    unfold RemovePlayerFromQueue, Redis.Get, respondError in Hrun. munfold.
    rewrite Hf in Hrun. by simplify_eq.
Qed.

Lemma LeaveQueue_outcomes_witness :
  let run := LeaveQueue "p" (duel_world []) in
  status run.1 = StatusOK ∧
  ¬ (duel_p ∈ Redis.members (queueKey "EU" "1v1") run.2).
Proof.
  intros run.
  destruct (proj1 (proj2 (LeaveQueue_outcomes "p" (duel_world []))))
    as (Hstatus & _ & _ & Hgone).
  - discriminate.
  - unfold available. vm_compute. constructor.
  - split; [exact Hstatus | exact Hgone].
Defined.

(** X23: the queue status only reads.  A missing [region] or [game_mode] is
    answered 400 without any store command; a failing [ZCARD] is answered
    500 with the store's own message; otherwise the answer is 200 with the
    number of members of the sorted set of that region and mode and the
    clock reading in whole seconds.  The store is the same afterwards in
    every case. *)
Theorem GetQueueStatus_outcomes region gameMode w :
  let run := GetQueueStatus region gameMode w in
  same_store w run.2 ∧
  (region = "" ∨ gameMode = "" →
   status run.1 = StatusBadRequest ∧ faults run.2 = faults w) ∧
  (region ≠ "" → gameMode ≠ "" →
   match mjoin (head (faults w)) with
   | Some e =>
       status run.1 = StatusInternalServerError ∧
       body run.1 = Object (<["details" := VString e]>
                              {[ "error" := VString "Failed to get queue size" ]})
   | None =>
       status run.1 = StatusOK ∧
       body run.1
       = Object {[ "region" := VString region;
                   "game_mode" := VString gameMode;
                   "queue_size" :=
                     VInt (len (Redis.members (queueKey region gameMode) w));
                   "timestamp" := VInt (clock w (ticks w) / Second) ]}
   end).
Proof.
  cbv zeta. destruct (GetQueueStatus region gameMode w) as [resp w'] eqn:Hrun.
  cbn [fst snd]. unfold GetQueueStatus in Hrun.
  destruct (String.eqb_spec region "") as [-> | Hr].
  { cbn [orb] in Hrun. rewrite respondError_run in Hrun. simplify_eq.
    cbn. split; [done |]. split; [done |]. intros Hne. done. }
  destruct (String.eqb_spec gameMode "") as [-> | Hg].
  { cbn [orb] in Hrun. rewrite respondError_run in Hrun. simplify_eq.
    cbn. split; [done |]. split; [done |]. intros _ Hne. done. }
  cbn [orb] in Hrun.
  unfold GetQueueSize, ZCard, respondError, respondJSON, time_Now in Hrun.
  munfold. unfold same_store.
  destruct (faults w) as [| [e |] fs]; cbn in *; simplify_eq; cbn;
    (split; [done |]); (split; [by intros [? | ?] |]); done.
Qed.

Lemma GetQueueStatus_outcomes_witness :
  body (GetQueueStatus "EU" "1v1" (duel_world [])).1
  = Object {[ "region" := VString "EU";
              "game_mode" := VString "1v1";
              "queue_size" := VInt 2;
              "timestamp" := VInt 1 ]}.
Proof.
  refine (proj2 (proj2 (proj2 (GetQueueStatus_outcomes "EU" "1v1" (duel_world []))) _ _)).
  - discriminate.
  - discriminate.
Defined.

(** X24: the match handler.  An empty id is answered 400 without any store
    command.  Otherwise every error of [FindMatch], a store outage
    included, is answered 404 [Match not found] with the error as detail
    and leaves the queue, the player keys and the persisted matches as
    they were; a match is answered 200 with the match as body. *)
Theorem HandleFindMatch_outcomes config playerID w :
  let run := HandleFindMatch config playerID w in
  (playerID = "" →
   status run.1 = StatusBadRequest ∧ same_store w run.2 ∧ faults run.2 = faults w) ∧
  (playerID ≠ "" →
   match (FindMatch config playerID w).1 with
   | Ok m => status run.1 = StatusOK ∧ body run.1 = MatchBody m
   | Err e =>
       status run.1 = StatusNotFound ∧
       body run.1 = Object (<["details" := VString e]>
                              {[ "error" := VString "Match not found" ]}) ∧
       same_store w run.2
   end).
Proof.
  cbv zeta. destruct (HandleFindMatch config playerID w) as [resp w'] eqn:Hrun.
  cbn [fst snd]. unfold HandleFindMatch in Hrun. split.
  - intros ->. cbn [String.eqb] in Hrun. rewrite respondError_run in Hrun.
    by simplify_eq.
  - intros Hid. apply String.eqb_neq in Hid. rewrite Hid in Hrun.
    unfold bind at 1 in Hrun.
    destruct (FindMatch config playerID w) as [[m | e] w1] eqn:H; cbn [fst].
    + unfold respondJSON in Hrun. munfold. by simplify_eq.
    + apply FindMatch_inv in H as [Hst _]. rewrite respondError_run in Hrun.
      by simplify_eq.
Qed.

Lemma HandleFindMatch_outcomes_witness :
  status (HandleFindMatch DefaultMatcherConfig "p" lone_world).1 = StatusNotFound.
Proof.
  refine (proj1 (proj2 (HandleFindMatch_outcomes DefaultMatcherConfig "p" lone_world)
                   _)).
  discriminate.
Defined.

(** ** The periodic queue processing *)

Lemma fetches_app evs1 evs2 : fetches (evs1 ++ evs2) = fetches evs1 ++ fetches evs2.
Proof. apply omap_app. Qed.

Lemma process_warnings_app evs1 evs2 :
  process_warnings (evs1 ++ evs2) = process_warnings evs1 ++ process_warnings evs2.
Proof. apply omap_app. Qed.

Lemma removals_quiet players outcomes :
  fetches (concat (zip_with removal_events players outcomes)) = [] ∧
  process_warnings (concat (zip_with removal_events players outcomes)) = [].
Proof.
  revert outcomes. induction players as [| p players IH]; intros [| o outcomes];
    cbn; try done.
  destruct (IH outcomes) as [IH1 IH2].
  rewrite fetches_app, process_warnings_app, IH1, IH2. by destruct o.
Qed.

Lemma groups_quiet region gameMode gs :
  fetches (concat (group_events region gameMode <$> gs)) = [] ∧
  process_warnings (concat (group_events region gameMode <$> gs)) = [].
Proof.
  induction gs as [| [[m err] outcomes] gs [IH1 IH2]]; [done |].
  cbn [fmap list_fmap concat]. rewrite fetches_app, process_warnings_app, IH1, IH2.
  unfold group_events, match_events.
  rewrite !fetches_app, !process_warnings_app.
  destruct (removals_quiet (Players m) outcomes) as [-> ->].
  by destruct err.
Qed.

(** One pass: one fetch of the partition first, no other fetch, and an
    error exactly when that fetch failed. *)
Lemma ProcessQueue_pass config region gameMode w :
  let run := ProcessQueue config region gameMode w in
  ∃ err evs,
    trace run.2 = trace w ++
      Store (CallGetPlayersInRange (queueKey region gameMode) 0 Int64.max_int 100) err
      :: evs ∧
    fetches evs = [] ∧ process_warnings evs = [] ∧
    (run.1 = None ↔ err = None).
Proof.
  cbv zeta. destruct (ProcessQueue config region gameMode w) as [r w'] eqn:H.
  apply ProcessQueue_inv in H as [(e & -> & _ & Ht) | (-> & gs & Ht & _)];
    cbn [fst snd].
  - exists (Some e), []. by rewrite Ht.
  - exists None, (concat (group_events region gameMode <$> gs)).
    split; [done |]. destruct (groups_quiet region gameMode gs) as [-> ->]. done.
Qed.

Lemma processModes_passes config region modes w :
  let run := processModes config region modes w in
  ∃ evs,
    trace run.2 = trace w ++ evs ∧
    (fetches evs).*1 = queueKey region <$> modes ∧
    length (process_warnings evs)
    = length (filter (λ f, f.2 ≠ None) (fetches evs)).
Proof.
  cbv zeta. revert w. induction modes as [| gameMode modes IH]; intros w.
  - exists []. cbn. by rewrite app_nil_r.
  - cbn [processModes]. unfold bind at 1. unfold bind at 1.
    destruct (ProcessQueue_pass config region gameMode w)
      as (err & evs & Ht & Hf & Hw & Herr).
    destruct (ProcessQueue config region gameMode w) as [r w1]. cbn [fst snd] in *.
    destruct r as [e |].
    + destruct err as [e' |];
        [| by destruct Herr as [_ Herr]; specialize (Herr eq_refl)].
      unfold logger, emit, modify.
      match goal with |- context [processModes config region modes ?w0] =>
        remember w0 as wlog eqn:Hwlog end.
      destruct (IH wlog) as (evs' & Ht' & Hf' & Hw').
      assert (trace wlog = trace w1 ++
                [Log Warn "Failed to process queue"
                   [("region", region); ("game_mode", gameMode); ("error", e)]])
        as Hlog by (by subst wlog).
      rewrite Hlog, Ht in Ht'.
      exists ([Store (CallGetPlayersInRange (queueKey region gameMode) 0
                        Int64.max_int 100) (Some e')] ++ evs ++
              [Log Warn "Failed to process queue"
                 [("region", region); ("game_mode", gameMode); ("error", e)]] ++
              evs').
      split; [by rewrite Ht', <- !app_assoc |].
      rewrite !fetches_app, !process_warnings_app, Hf, Hw.
      change (fetches [Store _ _]) with
        [(queueKey region gameMode, Some e')].
      change (fetches [Log _ _ _]) with (@nil (string * option string)).
      change (process_warnings [Store _ _]) with (@nil (list (string * string))).
      change (process_warnings [Log _ _ _]) with
        [[("region", region); ("game_mode", gameMode); ("error", e)]].
      cbn [app fmap list_fmap fst]. rewrite filter_cons_True by done.
      cbn [length]. split; [by f_equal | by f_equal].
    + destruct err as [e' |];
        [by destruct Herr as [Herr _]; specialize (Herr eq_refl) |].
      unfold ret at 1.
      destruct (IH w1) as (evs' & Ht' & Hf' & Hw').
      rewrite Ht in Ht'.
      exists ([Store (CallGetPlayersInRange (queueKey region gameMode) 0
                        Int64.max_int 100) None] ++ evs ++ evs').
      split; [by rewrite Ht', <- !app_assoc |].
      rewrite !fetches_app, !process_warnings_app, Hf, Hw.
      change (fetches [Store _ _]) with
        [(queueKey region gameMode, @None string)].
      change (process_warnings [Store _ _]) with (@nil (list (string * string))).
      cbn [app fmap list_fmap fst]. rewrite filter_cons_False by (intros Hne; by apply Hne).
      split; [by f_equal | done].
Qed.

Lemma processRegions_passes config rs w :
  let run := processRegions config rs w in
  ∃ evs,
    trace run.2 = trace w ++ evs ∧
    (fetches evs).*1 = concat ((λ region, queueKey region <$> gameModes) <$> rs) ∧
    length (process_warnings evs)
    = length (filter (λ f, f.2 ≠ None) (fetches evs)).
Proof.
  cbv zeta. revert w. induction rs as [| region rs IH]; intros w.
  - exists []. cbn. by rewrite app_nil_r.
  - cbn [processRegions]. unfold bind at 1.
    destruct (processModes_passes config region gameModes w)
      as (evs & Ht & Hf & Hw).
    destruct (processModes config region gameModes w) as [[] w1].
    cbn [fst snd] in *.
    destruct (IH w1) as (evs' & Ht' & Hf' & Hw').
    exists (evs ++ evs'). split; [by rewrite Ht', Ht, <- app_assoc |].
    rewrite fetches_app, process_warnings_app, fmap_app, filter_app, !length_app.
    cbn [fmap list_fmap concat]. by rewrite Hf, Hf', Hw, Hw'.
Qed.

(** X25: one tick of the background processor makes exactly six passes, one
    range query each, over EU, US and ASIA with 1v1 then 3v3 in that
    order, whatever fails on the way; no other region or mode is ever
    processed.  Each failed query gives one [Failed to process queue]
    warning and the remaining partitions are still processed. *)
Theorem tick_visits_fixed_partitions config w :
  let evs := events_since w (tick config w).2 in
  (fetches evs).*1
  = [queueKey "EU" "1v1"; queueKey "EU" "3v3";
     queueKey "US" "1v1"; queueKey "US" "3v3";
     queueKey "ASIA" "1v1"; queueKey "ASIA" "3v3"] ∧
  length (process_warnings evs)
  = length (filter (λ f, f.2 ≠ None) (fetches evs)).
Proof.
  cbv zeta. unfold tick.
  destruct (processRegions_passes config regions w) as (evs & Ht & Hf & Hw).
  rewrite (events_since_app _ _ _ Ht). done.
Qed.

(** ** Matched players leave the queue *)

Lemma healthy_available n w : healthy w → available n w.
Proof. unfold healthy, available. apply Forall_take. Qed.

Lemma healthy_after w w' : healthy w → faults w' = tail (faults w) → healthy w'.
Proof.
  unfold healthy. intros Hw ->. destruct (faults w) as [| f fs]; [done |].
  by apply Forall_cons in Hw as [_ ?].
Qed.

Lemma removed_keys players w w' :
  removed players w w' →
  (∀ p, p ∈ players → strs w' !! playerKey (ID p) = None) ∧
  (∀ k, (∀ p, p ∈ players → k ≠ playerKey (ID p)) → strs w' !! k = strs w !! k) ∧
  (∀ k v, strs w' !! k = Some v → strs w !! k = Some v).
Proof.
  intros [-> _]. generalize (strs w) as s.
  induction players as [| x players IH]; intros s; cbn [foldl].
  - split; [by intros p ?%elem_of_nil |]. done.
  - destruct (IH (delete (playerKey (ID x)) s)) as (IH1 & IH2 & IH3).
    split; [| split].
    + intros p [-> | Hp]%elem_of_cons; [| by apply IH1].
      destruct (foldl _ _ players !! playerKey (ID x)) as [v |] eqn:Hv; [| done].
      apply IH3 in Hv. by rewrite lookup_delete_eq in Hv.
    + intros k Hk. rewrite IH2 by (intros p Hp; apply Hk; by right).
      apply lookup_delete_ne. intros Heq. by apply (Hk x); [left |].
    + intros k v Hv. apply IH3 in Hv.
      apply lookup_delete_Some in Hv as [_ ?]. done.
Qed.

Lemma removed_members players w w' key q :
  removed players w w' →
  q ∈ Redis.members key w'
  ↔ q ∈ Redis.members key w ∧
    ∀ p, p ∈ players → queueKey (Region p) (GameMode p) = key → q ≠ p.
Proof.
  intros [_ Hz]. unfold Redis.members. rewrite Hz. clear Hz.
  generalize (zsets w) as z.
  induction players as [| x players IH]; intros z; cbn [foldl].
  - split; [| by intros [? _]]. intros Hq. split; [done |].
    by intros p ?%elem_of_nil.
  - rewrite IH, lookup_alter. split.
    + intros [Hq Hrest]. case_decide as Hk.
      * subst key.
        destruct (z !! _) as [l |]; cbn in *; [| by apply elem_of_nil in Hq].
        apply list_elem_of_filter in Hq as [Hne Hq]. split; [done |].
        intros p [-> | Hp]%elem_of_cons; [done | by apply Hrest].
      * split; [done |]. intros p [-> | Hp]%elem_of_cons; [done | by apply Hrest].
    + intros [Hq Hall]. split; [| intros p Hp; apply Hall; by right].
      case_decide as Hk; [| done]. subst key.
      destruct (z !! _) as [l |]; cbn in *; [| done].
      apply list_elem_of_filter. split; [| done]. apply Hall; [left | done].
Qed.

Lemma removeFromQueue_healthy players w :
  (∀ p, p ∈ players → strs w !! playerKey (ID p) = Some p) →
  NoDup (ID <$> players) → healthy w →
  ∃ w', removeFromQueue players w = (tt, w') ∧
        removed players w w' ∧ saved w' = saved w ∧ healthy w'.
Proof.
  revert w. induction players as [| p players IH]; intros w Hkeys Hnd Hw.
  - exists w. done.
  - cbn [fmap list_fmap] in Hnd. apply NoDup_cons in Hnd as [Hp Hnd].
    destruct (RemovePlayerFromQueue_ok (ID p) p w) as (w1 & Hrm & Hs & Hz & Hsv & Hf);
      [apply Hkeys; left | by apply healthy_available |].
    assert (healthy w1) as Hw1.
    { unfold healthy in *. rewrite Hf.
      destruct (faults w) as [| ? [| ? [| ? ?]]]; cbn; try done.
      apply Forall_cons in Hw as [_ Hw]. apply Forall_cons in Hw as [_ Hw].
      by apply Forall_cons in Hw as [_ ?]. }
    destruct (IH w1) as (w' & Hrest & [Hs' Hz'] & Hsv' & Hw'); [| done | done |].
    { intros q Hq. rewrite Hs, lookup_delete_ne; [apply Hkeys; by right |].
      intros Heq%playerKey_inj. apply Hp. rewrite Heq.
      by apply list_elem_of_fmap_2. }
    exists w'. split; [| split; [| split; [congruence | done]]].
    + cbn [removeFromQueue]. unfold bind at 1. unfold bind at 1.
      rewrite Hrm. unfold ret at 1. exact Hrest.
    + split; cbn [foldl]; congruence.
Qed.

Lemma createMatch_healthy players w :
  (∀ p, p ∈ players → strs w !! playerKey (ID p) = Some p) →
  NoDup (ID <$> players) → healthy w →
  ∃ m w', createMatch players w = (m, w') ∧
          Players m = players ∧ saved w' = m :: saved w ∧
          removed players w w' ∧ healthy w'.
Proof.
  intros Hkeys Hnd Hw. unfold createMatch, time_Now, SaveMatch.
  unfold bind at 1. unfold bind at 1. unfold gets at 1.
  unfold bind at 1. unfold modify at 1, ret at 1.
  unfold bind at 1. unfold bind at 1. unfold gets at 1.
  unfold bind at 1. unfold modify at 1, ret at 1.
  unfold bind at 1. unfold bind at 1. unfold bind at 1.
  cbn [clock ticks set_ticks].
  match goal with |- context [Redis.command ?w0] =>
    destruct (command_ok 0 w0) as [Hc _];
      [by apply healthy_available | rewrite Hc; clear Hc] end.
  munfold. cbn [faults set_ticks clock ticks].
  match goal with |- context [removeFromQueue players ?w0] =>
    destruct (removeFromQueue_healthy players w0) as (w' & Hrm & Hrem & Hsv & Hw');
      [done | done | by eapply healthy_after | rewrite Hrm] end.
  eexists _, _. split; [reflexivity |]. done.
Qed.

Lemma removed_sublist players w w' key :
  removed players w w' → sublist (Redis.members key w') (Redis.members key w).
Proof.
  intros [_ Hz]. unfold Redis.members. rewrite Hz. clear Hz.
  generalize (zsets w) as z.
  induction players as [| x players IH]; intros z; cbn [foldl]; [done |].
  etrans; [apply IH |]. rewrite lookup_alter. case_decide; [| done]. subst key.
  destruct (z !! _); cbn; [apply sublist_filter | done].
Qed.

Lemma removed_consistent players w w' :
  consistent w → removed players w w' →
  (∀ p, p ∈ players → strs w !! playerKey (ID p) = Some p) →
  consistent w'.
Proof.
  intros (Hid & Hmem & Hnd) Hrem Hkeys.
  destruct (removed_keys _ _ _ Hrem) as (_ & Hother & Hsub).
  split; [| split].
  - intros id p Hp. apply Hid. by apply Hsub.
  - intros key p Hp. apply (removed_members _ _ _ _ _ Hrem) in Hp as [Hp Hne].
    destruct (Hmem key p Hp) as [Hkey ->]. split; [| done].
    rewrite Hother; [done |]. intros x Hx Heq%playerKey_inj.
    specialize (Hkeys x Hx). rewrite <- Heq, Hkey in Hkeys. simplify_eq.
    by apply (Hne x Hx).
  - intros key. eapply sublist_NoDup; [apply Hnd | by eapply removed_sublist].
Qed.

Section Dequeue.

Variable config : MatcherConfig.

Lemma selectCandidates_sublist playerID currentPlayer playersPerMatch candidates acc :
  ∃ accepted,
    selectCandidates config playerID currentPlayer playersPerMatch candidates acc
    = acc ++ accepted ∧
    sublist accepted candidates ∧
    Forall (λ c, ID c ≠ playerID) accepted.
Proof.
  revert acc. induction candidates as [| c candidates IH]; intros acc; cbn.
  - exists []. by rewrite app_nil_r.
  - destruct (String.eqb_spec (ID c) playerID) as [Hself | Hother].
    { destruct (IH acc) as (accepted & -> & Hsub & Hall).
      exists accepted. split; [done |]. split; [by constructor | done]. }
    destruct (isCompatible config currentPlayer c).
    2: { destruct (IH acc) as (accepted & -> & Hsub & Hall).
         exists accepted. split; [done |]. split; [by constructor | done]. }
    destruct (playersPerMatch <=? len (acc ++ [c])).
    + exists [c]. split; [done |]. split; [| by constructor].
      constructor. apply sublist_nil_l.
    + destruct (IH (acc ++ [c])) as (accepted & -> & Hsub & Hall).
      exists (c :: accepted). rewrite <- app_assoc. split; [done |].
      split; [by constructor | by constructor].
Qed.

(** A group [FindMatch] selects in a consistent store: its members have
    distinct ids and each is the record under its own key. *)
Lemma selected_keys playerID currentPlayer playersPerMatch key candidates w :
  consistent w →
  strs w !! playerKey playerID = Some currentPlayer →
  sublist candidates (Redis.members key w) →
  let group := selectCandidates config playerID currentPlayer playersPerMatch
                 candidates [currentPlayer] in
  NoDup (ID <$> group) ∧
  (∀ p, p ∈ group → strs w !! playerKey (ID p) = Some p).
Proof.
  intros (Hid & Hmem & Hnd) Hcur Hcands group. subst group.
  destruct (selectCandidates_sublist playerID currentPlayer playersPerMatch
              candidates [currentPlayer]) as (accepted & -> & Hsub & Hall).
  assert (sublist accepted (Redis.members key w)) as Hsub'
    by (by etrans).
  assert (∀ p, p ∈ accepted → strs w !! playerKey (ID p) = Some p) as Hkeys.
  { intros p Hp. apply (Hmem key). by eapply elem_of_sublist. }
  split.
  - cbn. apply NoDup_cons. split.
    + intros (c & Heq & Hc)%list_elem_of_fmap.
      rewrite Forall_forall in Hall. apply (Hall c Hc).
      rewrite <- Heq. by apply Hid.
    + apply NoDup_fmap_2_strong.
      * intros p q Hp Hq Heq. apply Hkeys in Hp, Hq. rewrite Heq in Hp. congruence.
      * eapply sublist_NoDup; [apply Hnd | exact Hsub'].
  - intros p [-> | Hp]%elem_of_cons; [| by apply Hkeys].
    by rewrite (Hid _ _ Hcur).
Qed.

End Dequeue.

(** X26: a new match takes its members out of the queue.  In a consistent
    store that answers every command, when [FindMatch] builds a match for
    a player without a persisted one, the match is persisted, every member
    has lost its player key and is in no sorted set any more, every other
    queued record stays where it was, and the store is consistent again. *)
Theorem FindMatch_dequeues config playerID w m :
  consistent w → healthy w →
  find (contains playerID) (saved w) = None →
  let run := FindMatch config playerID w in
  run.1 = Ok m →
  saved run.2 = m :: saved w ∧
  (∀ p, p ∈ Players m →
        strs run.2 !! playerKey (ID p) = None ∧
        ∀ key, ¬ (p ∈ Redis.members key run.2)) ∧
  (∀ key q, ¬ (q ∈ Players m) →
            q ∈ Redis.members key run.2 ↔ q ∈ Redis.members key w) ∧
  consistent run.2.
Proof.
  intros Hcons Hw Hnone run Hm. subst run.
  destruct (FindMatch config playerID w) as [r w'] eqn:H. cbn [fst snd] in *. subst r.
  rewrite FindMatch_unfold in H. unfold bind at 1 in H.
  destruct (GetMatchByPlayerID playerID w) as [r0 w0] eqn:H0.
  apply GetMatchByPlayerID_inv in H0 as ((Hz0 & Hs0 & Hsv0) & Hf0 & e0 & _ & Hr0).
  assert (assemble config playerID w0 = (Ok m, w')) as Ha.
  { destruct r0 as [[savedMatch |] | ?]; [| done | done].
    destruct Hr0 as [_ Hfind]. congruence. }
  clear H Hr0. unfold assemble in Ha. unfold bind at 1 in Ha.
  destruct (GetPlayerByID playerID w0) as [r1 w1] eqn:H1.
  apply GetPlayerByID_inv in H1 as ((Hz1 & Hs1 & Hsv1) & Hf1 & e1 & _ & Hr1).
  destruct r1 as [cur | ?]; [| unfold ret in Ha; simplify_eq].
  destruct Hr1 as [_ Hcur]. rewrite Hs0 in Hcur.
  unfold bind at 1 in Ha.
  destruct (time_Now w1) as [now w2] eqn:H2.
  apply time_Now_inv in H2 as ((Hz2 & Hs2 & Hsv2) & Hf2 & _).
  unfold bind at 1 in Ha.
  match type of Ha with
  | context [GetPlayersInRange ?a ?b ?lo ?hi ?lim w2] =>
      destruct (GetPlayersInRange a b lo hi lim w2) as [r3 w3] eqn:H3;
      apply GetPlayersInRange_inv in H3
        as ((Hz3 & Hs3 & Hsv3) & Hf3 & e3 & _ & Hr3)
  end.
  destruct r3 as [candidates |]; [| unfold ret in Ha; simplify_eq].
  destruct Hr3 as [_ ->].
  assert (zsets w3 = zsets w ∧ strs w3 = strs w ∧ saved w3 = saved w)
    as (Hz & Hs & Hsv) by (repeat split; congruence).
  assert (Redis.members (queueKey (Region cur) (GameMode cur)) w2
          = Redis.members (queueKey (Region cur) (GameMode cur)) w) as Hmem2.
  { unfold Redis.members. congruence. }
  rewrite Hmem2 in Ha.
  assert (healthy w3) as Hw3.
  { apply (healthy_after w2); [| done]. unfold healthy in *. rewrite Hf2.
    apply (healthy_after w0); [| done]. by apply (healthy_after w). }
  match type of Ha with context [?a <=? len ?b] =>
    destruct (Z.leb_spec a (len b)) as [_ | _]; [| unfold ret in Ha; simplify_eq];
    match b with selectCandidates _ _ _ _ ?cands _ =>
      destruct (selected_keys config playerID cur a
                  (queueKey (Region cur) (GameMode cur)) cands w Hcons Hcur)
        as [Hnd Hkeys];
        [apply range_sublist |]
    end
  end.
  cbv zeta in Hnd, Hkeys.
  unfold bind at 1 in Ha.
  match type of Ha with context [createMatch ?g w3] =>
    destruct (createMatch_healthy g w3) as (m' & w4 & Hcreate & Hpl & Hsaved & Hrem & _);
      [intros p Hp; rewrite Hs; by apply Hkeys | done | done |];
    rewrite Hcreate in Ha
  end.
  unfold bind, logger, emit, modify, ret in Ha. simplify_eq.
  rewrite <- Hpl in Hkeys, Hrem.
  match goal with |- saved ?wf = _ ∧ _ =>
    assert (removed (Players m) w wf) as Hrem'
      by (destruct Hrem as [Hrs Hrz]; split; cbn; congruence)
  end.
  split; [cbn; congruence |]. split; [| split].
  - intros p Hp.
    destruct (removed_keys _ _ _ Hrem') as (Hgone & _ & _).
    split; [by apply Hgone |].
    intros key [Hin Hne]%(removed_members _ _ _ _ _ Hrem').
    destruct Hcons as (_ & Hmem & _). destruct (Hmem key p Hin) as [_ ->].
    by apply (Hne p Hp).
  - intros key q Hq. rewrite (removed_members _ _ _ _ _ Hrem').
    split; [by intros [? _] |]. intros Hin. split; [done |].
    intros p Hp _ ->. done.
  - by apply (removed_consistent (Players m) w).
Qed.

Lemma duel_world_consistent fs : consistent (duel_world fs).
Proof.
  split; [| split].
  - intros id p. cbn. rewrite lookup_insert_Some, lookup_singleton_Some.
    intros [[Hk <-] | [_ [Hk <-]]].
    + by apply (playerKey_inj "p") in Hk.
    + by apply (playerKey_inj "q") in Hk.
  - intros key p. unfold Redis.members. cbn.
    destruct (decide (key = queueKey "EU" "1v1")) as [-> | Hne].
    + rewrite lookup_singleton_eq. cbn.
      intros [-> | [-> | []%elem_of_nil]%elem_of_cons]%elem_of_cons; done.
    + rewrite lookup_singleton_ne by done. by intros ?%elem_of_nil.
  - intros key. unfold Redis.members. cbn.
    destruct (decide (key = queueKey "EU" "1v1")) as [-> | Hne].
    + rewrite lookup_singleton_eq. cbn.
      apply (bool_decide_unpack (NoDup [duel_p; duel_q])). vm_compute. exact I.
    + rewrite lookup_singleton_ne by done. constructor.
Qed.

Lemma FindMatch_dequeues_witness :
  let run := FindMatch DefaultMatcherConfig "p" (duel_world []) in
  strs run.2 !! playerKey "q" = None ∧
  ¬ (duel_q ∈ Redis.members (queueKey "EU" "1v1") run.2).
Proof.
  intros run.
  destruct (FindMatch_dequeues DefaultMatcherConfig "p" (duel_world [])
              {| MatchID := "match_1000000001";
                 Players := [duel_p; duel_q];
                 CreatedAt := 1000000002 |}
              (duel_world_consistent []) ltac:(constructor) eq_refl eq_refl)
    as (_ & Hgone & _).
  destruct (Hgone duel_q) as [Hkey Hmem]; [right; left |].
  split; [exact Hkey | apply Hmem].
Defined.

Lemma removed_app l1 l2 w w1 w2 :
  removed l1 w w1 → removed l2 w1 w2 → removed (l1 ++ l2) w w2.
Proof.
  intros [Hs1 Hz1] [Hs2 Hz2]. split; rewrite foldl_app; congruence.
Qed.

Section DequeuePass.

Variable config : MatcherConfig.
Variable playersPerMatch : Z.
Variable players : list Player.
Hypothesis Hsize : 1 <= playersPerMatch.
Hypothesis Hinj : ∀ p q, p ∈ players → q ∈ players → ID p = ID q → p = q.

Lemma formGroups_dequeues region gameMode anchors used w w' :
  Forall (λ p, p ∈ players) anchors →
  healthy w →
  (∀ p, p ∈ players → is_used used (ID p) = false →
        strs w !! playerKey (ID p) = Some p) →
  formGroups config region gameMode playersPerMatch players anchors used w = (tt, w') →
  ∃ evs,
    trace w' = trace w ++ evs ∧
    removed (concat (Players <$> built evs)) w w' ∧
    saved w' = reverse (built evs) ++ saved w ∧
    (∀ p, p ∈ concat (Players <$> built evs) →
          strs w !! playerKey (ID p) = Some p).
Proof.
  intros Hanchors. revert used w.
  induction anchors as [| pi anchors IH]; intros used w Hw Hkeys; cbn [formGroups].
  - unfold ret. intros ?; simplify_eq. exists []. rewrite app_nil_r. cbn.
    repeat split; try done. by intros p ?%elem_of_nil.
  - apply Forall_cons in Hanchors as [Hpi Hanchors]. specialize (IH Hanchors).
    destruct (is_used used (ID pi)) eqn:Hunused_pi; [by apply IH |].
    destruct (fillGroup config playersPerMatch players [pi] (<[ID pi:=true]> used))
      as [group used'] eqn:Hfill.
    pose proof Hfill as Hshape.
    apply fillGroup_shape in Hshape as (added0 & Hg0 & Hin & _);
      [| unfold len; cbn; lia].
    apply fillGroup_marks in Hfill as (added & -> & _ & Hnodup & Hunused & Hmark).
    cbn [app] in *. injection Hg0 as <-.
    assert (Forall (λ c, ID c ≠ ID pi ∧ is_used used (ID c) = false) added) as Hfresh.
    { eapply Forall_impl; [exact Hunused |]. cbn. intros c Hcu.
      rewrite is_used_insert in Hcu. apply orb_false_iff in Hcu as [Hne Hcu].
      split; [| done]. by apply bool_decide_eq_false in Hne. }
    assert (∀ id, is_used used' id
                  = is_used used id || bool_decide (id ∈ ID <$> pi :: added)) as Hmark'.
    { intros id. rewrite Hmark, is_used_insert. cbn.
      destruct (decide (id = ID pi)) as [-> | Hne].
      - rewrite bool_decide_eq_true_2 by done.
        rewrite (bool_decide_eq_true_2 (ID pi ∈ ID pi :: _)) by left.
        by rewrite orb_true_r.
      - rewrite (bool_decide_eq_false_2 (id = ID pi)) by done. cbn.
        destruct (is_used used id); [done |]. cbn.
        apply bool_decide_ext. rewrite elem_of_cons. tauto. }
    assert (∀ p, p ∈ pi :: added → p ∈ players ∧ is_used used (ID p) = false)
      as Hgroup.
    { rewrite Forall_forall in Hin, Hfresh.
      intros p [-> | Hp]%elem_of_cons; [done |].
      split; [by apply Hin | by apply Hfresh]. }
    destruct (Z.leb_spec playersPerMatch (len (pi :: added))) as [Hfull | Hshort].
    + unfold bind at 1.
      destruct (createMatch_healthy (pi :: added) w)
        as (m & w1 & Hcreate & Hpl & Hsaved & Hrem & Hw1); [| | done |].
      { intros p Hp. destruct (Hgroup p Hp). by apply Hkeys. }
      { cbn. apply NoDup_cons. split; [| done].
        intros (c & Heq & Hc)%list_elem_of_fmap.
        rewrite Forall_forall in Hfresh. destruct (Hfresh c Hc) as [Hne _].
        congruence. }
      rewrite Hcreate. unfold bind at 1, logger, emit, modify.
      intros Hrest.
      destruct (removed_keys _ _ _ Hrem) as (_ & Hother & Hsub).
      apply IH in Hrest as (evs & Ht & Hrem' & Hsaved' & Hkeys').
      * apply createMatch_inv in Hcreate as (_ & err & outcomes & _ & Ht1 & _).
        cbn [trace set_trace] in Ht. rewrite Ht1, <- !app_assoc in Ht.
        eexists. split; [exact Ht |].
        rewrite !built_app, built_match_events.
        cbn [built omap list_omap app fmap list_fmap concat].
        fold (built evs). rewrite Hpl. split; [| split].
        -- apply removed_app with w1; [done |].
           destruct Hrem' as [Hs' Hz']. split; [exact Hs' | exact Hz'].
        -- rewrite reverse_cons, <- app_assoc. cbn in Hsaved'.
           by rewrite Hsaved', Hsaved.
        -- intros p [Hp | Hp]%elem_of_app.
           ++ destruct (Hgroup p Hp). by apply Hkeys.
           ++ apply Hsub. by apply Hkeys'.
      * done.
      * intros p Hp Hfree. cbn [strs set_trace]. rewrite Hmark' in Hfree.
        apply orb_false_iff in Hfree as [Hfree Hout].
        apply bool_decide_eq_false in Hout.
        rewrite Hother; [by apply Hkeys |].
        intros x Hx Heq%playerKey_inj. apply Hout. rewrite Heq.
        by apply list_elem_of_fmap_2.
    + apply IH; [done |]. intros p Hp Hfree.
      rewrite is_used_release in Hfree. case_bool_decide as Hout.
      * apply list_elem_of_fmap in Hout as (x & Heq & Hx).
        destruct (Hgroup x Hx) as [Hxp Hxfree].
        rewrite (Hinj p x Hp Hxp Heq). by apply Hkeys.
      * rewrite Hmark' in Hfree. apply orb_false_iff in Hfree as [Hfree _].
        by apply Hkeys.
Qed.

End DequeuePass.

(** X27: a pass of [ProcessQueue] takes the matched players out of the
    queue.  In a consistent store that answers every command, every match
    built by the pass is persisted (the later ones first), every member of
    a built match has lost its player key and is in no sorted set any
    more, every queued record that is in none of the matches stays where
    it was, and the store is consistent again. *)
Theorem ProcessQueue_dequeues config region gameMode w :
  consistent w → healthy w →
  let run := ProcessQueue config region gameMode w in
  let ms := built (events_since w run.2) in
  run.1 = None ∧
  saved run.2 = reverse ms ++ saved w ∧
  (∀ m p, m ∈ ms → p ∈ Players m →
          strs run.2 !! playerKey (ID p) = None ∧
          ∀ key, ¬ (p ∈ Redis.members key run.2)) ∧
  (∀ key q, (∀ m, m ∈ ms → ¬ (q ∈ Players m)) →
            q ∈ Redis.members key run.2 ↔ q ∈ Redis.members key w) ∧
  consistent run.2.
Proof.
  intros Hcons Hw run ms. subst ms run.
  assert (∃ w' evs,
            ProcessQueue config region gameMode w = (None, w') ∧
            trace w' = trace w ++ evs ∧
            removed (concat (Players <$> built evs)) w w' ∧
            saved w' = reverse (built evs) ++ saved w ∧
            (∀ p, p ∈ concat (Players <$> built evs) →
                  strs w !! playerKey (ID p) = Some p))
    as (w' & evs & -> & Ht & Hrem & Hsaved & Hkeys).
  { unfold ProcessQueue. unfold bind at 1.
    destruct (GetPlayersInRange region gameMode 0 Int64.max_int 100 w)
      as [r1 w1] eqn:H1.
    pose proof H1 as Hfetch.
    apply GetPlayersInRange_inv in H1 as ((Hz1 & Hs1 & Hsv1) & Hf1 & e1 & Ht1 & Hr1).
    assert (r1 = Ok (Redis.range 0 Int64.max_int 100
                       (Redis.members (queueKey region gameMode) w))) as ->.
    { unfold GetPlayersInRange, Redis.ZRangeByScore in Hfetch. munfold.
      unfold healthy in Hw. destruct (faults w) as [| f fs]; cbn in *.
      - by simplify_eq.
      - apply Forall_cons in Hw as [-> _]. by simplify_eq. }
    set (players := Redis.range _ _ _ _) in *.
    destruct (len players <? GetPlayersPerMatch gameMode).
    { unfold ret. eexists _, _. split; [reflexivity |]. split; [exact Ht1 |].
      cbn. split; [by split |]. split; [done |]. by intros p ?%elem_of_nil. }
    unfold bind at 1.
    destruct (formGroups config region gameMode (GetPlayersPerMatch gameMode)
                players players ∅ w1) as [[] w2] eqn:H2.
    assert (∀ p, p ∈ players → p ∈ Redis.members (queueKey region gameMode) w)
      as Hsub.
    { intros p Hp. eapply elem_of_sublist; [exact Hp |].
      apply range_sublist. }
    destruct Hcons as (Hid & Hmem & Hnd).
    apply formGroups_dequeues in H2 as (evs & Ht & [Hrs Hrz] & Hsaved & Hkeys).
    - unfold ret. eexists _, _. split; [reflexivity |].
      rewrite Ht1, <- app_assoc in Ht. split; [exact Ht |].
      cbn [app built omap list_omap]. fold (built evs).
      split; [split; congruence |]. split; [congruence |].
      intros p Hp. rewrite <- Hs1. by apply Hkeys.
    - destruct (GetPlayersPerMatch_values gameMode); lia.
    - intros p q Hp Hq Heq.
      destruct (Hmem _ _ (Hsub p Hp)) as [Hkp _].
      destruct (Hmem _ _ (Hsub q Hq)) as [Hkq _].
      rewrite Heq in Hkp. congruence.
    - by apply Forall_forall.
    - by apply (healthy_after w).
    - intros p Hp _. rewrite Hs1. by apply (Hmem _ _ (Hsub p Hp)). }
  cbn [fst snd]. rewrite (events_since_app _ _ _ Ht).
  split; [done |]. split; [done |]. split; [| split].
  - intros m p Hm Hp.
    assert (p ∈ concat (Players <$> built evs)) as Hin.
    { apply elem_of_concat. exists (Players m). split; [done |].
      by apply list_elem_of_fmap_2. }
    destruct (removed_keys _ _ _ Hrem) as (Hgone & _ & _).
    split; [by apply Hgone |].
    intros key [Hq Hne]%(removed_members _ _ _ _ _ Hrem).
    destruct Hcons as (_ & Hmem & _). destruct (Hmem key p Hq) as [_ ->].
    by apply (Hne p Hin).
  - intros key q Hq. rewrite (removed_members _ _ _ _ _ Hrem).
    split; [by intros [? _] |]. intros Hin. split; [done |].
    intros p Hp _ ->. apply elem_of_concat in Hp as (l & Hl & Hl').
    apply list_elem_of_fmap in Hl' as (m & -> & Hm). by apply (Hq m Hm).
  - by apply (removed_consistent (concat (Players <$> built evs)) w).
Qed.

Lemma ProcessQueue_dequeues_witness :
  let run := ProcessQueue DefaultMatcherConfig "EU" "1v1" (duel_world []) in
  strs run.2 !! playerKey "q" = None ∧
  ¬ (duel_q ∈ Redis.members (queueKey "EU" "1v1") run.2).
Proof.
  intros run.
  destruct (ProcessQueue_dequeues DefaultMatcherConfig "EU" "1v1" (duel_world [])
              (duel_world_consistent []) ltac:(constructor))
    as (_ & _ & Hgone & _).
  destruct (Hgone {| MatchID := "match_1000000000";
                     Players := [duel_p; duel_q];
                     CreatedAt := 1000000001 |} duel_q) as [Hkey Hmem].
  - vm_compute. left.
  - right. left.
  - split; [exact Hkey | apply Hmem].
Defined.

(** ** Consistency of the queue with the player keys *)





(** ** The configured group size *)

(** X29: the [PlayersPerMatch] field of the configuration is never read.
    Two configurations that agree on [MaxRatingDiff], [MaxSearchTime] and
    [RatingExpansionRate] make [FindMatch] and [ProcessQueue] behave the
    same on every input: the size of a group comes from the game mode
    alone. *)
Theorem PlayersPerMatch_unused config config' :
  MaxRatingDiff config' = MaxRatingDiff config →
  MaxSearchTime config' = MaxSearchTime config →
  RatingExpansionRate config' = RatingExpansionRate config →
  (∀ playerID w, FindMatch config' playerID w = FindMatch config playerID w) ∧
  (∀ region gameMode w,
     ProcessQueue config' region gameMode w = ProcessQueue config region gameMode w).
Proof.
  destruct config as [diff time rate size], config' as [diff' time' rate' size'].
  cbn. intros -> -> ->. split; reflexivity.
Qed.

Lemma PlayersPerMatch_unused_witness :
  let config := {| MaxRatingDiff := 200;
                   MaxSearchTime := 5 * Minute;
                   RatingExpansionRate := 50;
                   PlayersPerMatch := 2 |} in
  ProcessQueue config "EU" "1v1" (duel_world [])
  = ProcessQueue DefaultMatcherConfig "EU" "1v1" (duel_world []).
Proof.
  intros config.
  apply (PlayersPerMatch_unused DefaultMatcherConfig config eq_refl eq_refl eq_refl).
Defined.

(** ** The outcome of [FindMatch] *)

Section Outcome.

Variable config : MatcherConfig.

(** The candidate loop takes the first suitable candidates, as many as the
    group still needs. *)
Lemma selectCandidates_first playerID currentPlayer playersPerMatch candidates acc :
  len acc < playersPerMatch →
  selectCandidates config playerID currentPlayer playersPerMatch candidates acc
  = acc ++ take (Z.to_nat (playersPerMatch - len acc))
             (filter (λ c, ID c ≠ playerID ∧
                           isCompatible config currentPlayer c = true) candidates).
Proof.
  revert acc.
  induction candidates as [| c candidates IH]; intros acc Hroom;
    cbn [selectCandidates].
  - by rewrite filter_nil, take_nil, app_nil_r.
  - destruct (String.eqb_spec (ID c) playerID) as [Hself | Hother].
    { rewrite filter_cons_False by (intros [Hne _]; by apply Hne). by apply IH. }
    destruct (isCompatible config currentPlayer c) eqn:Hc.
    2: { rewrite filter_cons_False by (intros [_ ?]; congruence). by apply IH. }
    rewrite filter_cons_True by done.
    unfold len in *. rewrite length_app. cbn [length].
    destruct (Z.leb_spec playersPerMatch (Z.of_nat (length acc + 1))) as [Hfull | Hmore].
    + replace (Z.to_nat (playersPerMatch - Z.of_nat (length acc))) with 1%nat by lia.
      cbn. by rewrite take_0.
    + rewrite IH by (rewrite length_app; cbn; lia).
      rewrite length_app. cbn [length].
      replace (Z.to_nat (playersPerMatch - Z.of_nat (length acc)))
        with (S (Z.to_nat (playersPerMatch - Z.of_nat (length acc + 1)))) by lia.
      cbn [take]. by rewrite <- app_assoc.
Qed.

Lemma assemble_run playerID currentPlayer w :
  strs w !! playerKey playerID = Some currentPlayer → available 2 w →
  let window :=
    calculateRatingRange config
      (time_Sub (clock w (ticks w)) (JoinedAt currentPlayer)) in
  let size := GetPlayersPerMatch (GameMode currentPlayer) in
  let candidates :=
    Redis.range (Int64.wrap (Rating currentPlayer - window))
      (Int64.wrap (Rating currentPlayer + window))
      (Int64.wrap (size * 2))
      (Redis.members
         (queueKey (Region currentPlayer) (GameMode currentPlayer)) w) in
  let group := selectCandidates config playerID currentPlayer size candidates
                 [currentPlayer] in
  if size <=? len group
  then ∃ m, (assemble config playerID w).1 = Ok m ∧ Players m = group
  else (assemble config playerID w).1 = Err "no suitable match found".
Proof.
  intros Hcur Hav. cbv zeta.
  destruct (assemble config playerID w) as [r w'] eqn:Ha. cbn [fst].
  unfold assemble, GetPlayerByID, Redis.Get, time_Now, GetPlayersInRange,
    Redis.ZRangeByScore in Ha. munfold.
  assert (match faults w with [] => None | f :: _ => f end = None ∧
          match tail (faults w) with [] => None | f :: _ => f end = None)
    as [Hf1 Hf2].
  { unfold available in Hav. destruct (faults w) as [| f1 [| f2 fs]]; cbn in *.
    - done.
    - by apply Forall_cons in Hav as [-> _].
    - apply Forall_cons in Hav as [-> Hav]. by apply Forall_cons in Hav as [-> _]. }
  unfold Redis.members in *.
  cbn [strs zsets faults ticks clock trace set_faults set_ticks set_trace] in Ha.
  rewrite Hf1 in Ha.
  cbn [strs zsets faults ticks clock trace set_faults set_ticks set_trace] in Ha.
  rewrite Hcur in Ha.
  cbn [strs zsets faults ticks clock trace set_faults set_ticks set_trace] in Ha.
  rewrite Hf2 in Ha.
  cbn [strs zsets faults ticks clock trace set_faults set_ticks set_trace] in Ha.
  match goal with |- context [?a <=? len ?b] =>
    destruct (a <=? len b) eqn:Hfull end.
  - destruct (createMatch _ _) as [m w4] eqn:Hcreate in Ha.
    apply createMatch_inv in Hcreate as [Hpl _]. simplify_eq.
    by exists m.
  - by simplify_eq.
Qed.

End Outcome.

(** X30: what [FindMatch] answers a queued player without a persisted
    match when the store answers.  Of the players fetched in the window
    (the members of the partition whose float64 score lies between the
    float64 values of the two fetch bounds, the first ones in store order,
    up to twice the match size) those with another id that pass
    [isCompatible] count: if they are fewer than the match size less one
    the answer is [no suitable match found], otherwise the match consists
    of the requesting player followed by the first of them. *)
Theorem FindMatch_outcome config playerID w currentPlayer :
  find (contains playerID) (saved w) = None →
  strs w !! playerKey playerID = Some currentPlayer →
  available 3 w →
  let window :=
    calculateRatingRange config
      (time_Sub (clock w (ticks w)) (JoinedAt currentPlayer)) in
  let size := GetPlayersPerMatch (GameMode currentPlayer) in
  let candidates :=
    Redis.range (Int64.wrap (Rating currentPlayer - window))
      (Int64.wrap (Rating currentPlayer + window))
      (Int64.wrap (size * 2))
      (Redis.members
         (queueKey (Region currentPlayer) (GameMode currentPlayer)) w) in
  let suitable :=
    filter (λ c, ID c ≠ playerID ∧ isCompatible config currentPlayer c = true)
      candidates in
  match (FindMatch config playerID w).1 with
  | Ok m =>
      size - 1 <= len suitable ∧
      Players m = currentPlayer :: take (Z.to_nat (size - 1)) suitable
  | Err e => len suitable < size - 1 ∧ e = "no suitable match found"
  end.
Proof.
  intros Hnone Hcur Hav. cbv zeta.
  destruct (GetMatchByPlayerID_absent playerID w Hnone) as (e0 & Hr & Hs & Hf).
  pose proof (GetMatchByPlayerID_clock playerID w) as [Hc Hk].
  rewrite FindMatch_unfold. unfold bind at 1.
  destruct (GetMatchByPlayerID playerID w) as [r0 w0] eqn:H0.
  cbn [fst snd] in Hr, Hs, Hf, Hc, Hk. subst r0.
  apply GetMatchByPlayerID_inv in H0 as ((Hz & _ & _) & _).
  assert (available 2 w0) as Hav0.
  { apply (available_after 2 1 w); [done |]. rewrite Hf. by destruct (faults w). }
  rewrite <- Hs in Hcur.
  pose proof (assemble_run config playerID currentPlayer w0 Hcur Hav0) as Hrun.
  cbv zeta in Hrun. unfold Redis.members in *. rewrite Hc, Hk, Hz in Hrun.
  assert (1 < GetPlayersPerMatch (GameMode currentPlayer)) as Hsize
    by (destruct (GetPlayersPerMatch_values (GameMode currentPlayer)); lia).
  rewrite selectCandidates_first in Hrun by (unfold len; cbn; lia).
  change (len [currentPlayer]) with 1 in Hrun. cbn [app] in Hrun.
  match type of Hrun with context [take ?n ?l] =>
    assert (len (currentPlayer :: take n l)
            = 1 + Z.min (GetPlayersPerMatch (GameMode currentPlayer) - 1) (len l))
      as Hlen by (unfold len; cbn [length]; rewrite length_take; lia)
  end.
  rewrite Hlen in Hrun.
  match type of Hrun with context [?a <=? ?b] =>
    destruct (Z.leb_spec a b) as [Hfull | Hshort] end.
  - destruct Hrun as (m & -> & ->). split; [lia | done].
  - rewrite Hrun. split; [lia | done].
Qed.

Lemma FindMatch_outcome_witness :
  (FindMatch DefaultMatcherConfig "p" lone_world).1 = Err "no suitable match found".
Proof.
  pose proof (FindMatch_outcome DefaultMatcherConfig "p" lone_world lone_p
                eq_refl eq_refl) as Hout.
  destruct (FindMatch DefaultMatcherConfig "p" lone_world).1 as [m | e].
  - destruct Hout as [Hmany _]; [unfold available; vm_compute; constructor |].
    vm_compute in Hmany. by destruct Hmany.
  - destruct Hout as [_ ->]; [unfold available; vm_compute; constructor |].
    reflexivity.
Defined.
